(** * FlowMap-r: depth-optimal K-LUT mapping with area-flow recovery

    A shallow embedding of [flowmap-r.py] (topological sort, cut
    enumeration, FlowMap labels, area-flow recovery, cover construction)
    and the properties of it that the specification states.

    Conventions of the embedding:
    - a node is a Python [str], here [string]; strings are compared
      byte-wise, which is Python's order on code points;
    - the input graph is a Python [dict] from node to fanin list; since a
      [dict] iterates in insertion order it is an association list whose
      keys are pairwise distinct ([graph_wf]);
    - a cut is a Python [set]/[frozenset] of nodes, here [gset string];
      [elements] fixes one iteration order of a set (Python's is
      unspecified), and the general theorems rely on membership only;
    - Python [int] is [Z]; Python [float] is IEEE binary64 ([PrimFloat]);
    - an exception is a value of [exn], threaded by the [result] monad. *)

From Stdlib Require Import ZArith Floats Uint63 Lia Sorted.
From stdpp Require Import gmap strings list fin_maps.

#[local] Set Warnings "-clear-no-such-hyp".

Open Scope string_scope.
Open Scope list_scope.
Open Scope Z_scope.

(** ** Data model *)

Abbreviation node := string (only parsing).
Abbreviation cut := (gset string) (only parsing).
Abbreviation Graph := (list (string * list string)) (only parsing).

(** Exceptions the code can raise.  [OutOfFuel] belongs to the embedding
    only: it marks a loop or recursion cut off by its fuel bound. *)
Inductive exn : Type :=
  | ValueError_not_a_DAG                (* ValueError("Graph is not a DAG") *)
  | ValueError_K                        (* ValueError("K must be >= 1") *)
  | ValueError_min_empty                (* min() of an empty sequence *)
  | RuntimeError_no_cuts (v : node) (K : Z)
                                        (* RuntimeError("No K-feasible cuts for v with K=..") *)
  | KeyError (k : node)                 (* missing dict key (a node) *)
  | KeyError_cut (v : node) (C : cut)   (* cut_depth[v][C] missing *)
  | OutOfFuel.

Inductive result (A : Type) : Type :=
  | Ok (a : A)
  | Raise (e : exn).
Arguments Ok {A} a.
Arguments Raise {A} e.

Definition bind {A B} (k : A → result B) (m : result A) : result B :=
  match m with
  | Ok a => k a
  | Raise e => Raise e
  end.

(** [x ← m; k] runs [m] and, unless it raised, continues with [k]. *)
#[global] Instance result_bind : MBind result := @bind.

(** [d[k]] on a dict keyed by nodes. *)
Definition get {V} (d : gmap node V) (k : node) : result V :=
  match d !! k with
  | Some x => Ok x
  | None => Raise (KeyError k)
  end.

(** A [for] loop whose body may raise. *)
Fixpoint for_each {S X} (body : S → X → result S) (xs : list X) (s : S) : result S :=
  match xs with
  | [] => Ok s
  | x :: xs' => s' ← body s x; for_each body xs' s'
  end.

(** [[f(x) for x in xs]] where [f] may raise. *)
Definition map_result {X Y} (f : X → result Y) (xs : list X) : result (list Y) :=
  for_each (fun acc x => y ← f x; Ok (acc ++ [y])) xs [].

(** ** Graph utilities *)

Definition keys (graph : Graph) : list node := graph.*1.

Definition graph_wf (graph : Graph) : Prop := NoDup (keys graph).

#[global] Instance graph_wf_dec graph : Decision (graph_wf graph).
Proof. unfold graph_wf. apply _. Defined.

(** [graph[v]] *)
Fixpoint graph_get (graph : Graph) (v : node) : result (list node) :=
  match graph with
  | [] => Raise (KeyError v)
  | (n, fins) :: rest => if String.eqb n v then Ok fins else graph_get rest v
  end.

(** [fanouts[u].append(v)] on a [defaultdict(list)]. *)
Definition fanouts_get (fanouts : gmap node (list node)) (u : node) : list node :=
  default [] (fanouts !! u).

Definition fanouts_append (v : node) (fanouts : gmap node (list node)) (u : node)
  : gmap node (list node) :=
  <[u := fanouts_get fanouts u ++ [v]]> fanouts.

Definition build_fanouts (graph : Graph) : gmap node (list node) :=
  foldl (fun fo '(v, fins) => foldl (fanouts_append v) fo fins) ∅ graph.

(** [indeg = {n: len(graph[n]) for n in graph}] *)
Definition init_indeg (graph : Graph) : gmap node Z :=
  foldl (fun m '(n, fins) => <[n := Z.of_nat (length fins)]> m) ∅ graph.

(** [indeg[w]]; every [w] read by the loop comes out of a fanout list and
    is therefore a key of the graph and of [indeg]
    (lemma [fanouts_are_keys]). *)
Definition indeg_get (indeg : gmap node Z) (w : node) : Z :=
  default 0 (indeg !! w).

(** Body of [for w in fanouts[u]]. *)
Definition relax (st : gmap node Z * list node) (w : node) : gmap node Z * list node :=
  let d := indeg_get st.1 w - 1 in
  (<[w := d]> st.1, if d =? 0 then st.2 ++ [w] else st.2).

(** The [while q] loop; one unit of fuel per iteration. *)
Fixpoint kahn (fuel : nat) (fanouts : gmap node (list node))
    (indeg : gmap node Z) (q order : list node) : result (list node) :=
  match fuel with
  | O => Raise OutOfFuel
  | S fuel' =>
      match q with
      | [] => Ok order
      | u :: q' =>
          let st := foldl relax (indeg, q') (fanouts_get fanouts u) in
          kahn fuel' fanouts st.1 st.2 (order ++ [u])
      end
  end.

Definition topo_sort (graph : Graph) : result (list node * gmap node (list node)) :=
  let indeg := init_indeg graph in
  let fanouts := build_fanouts graph in
  let q := filter (fun n => indeg_get indeg n = 0) (keys graph) in
  order ← kahn (S (length graph)) fanouts indeg q [];
  if bool_decide (length order ≠ length graph) then Raise ValueError_not_a_DAG
  else Ok (order, fanouts).

Definition primary_inputs (graph : Graph) : gset node :=
  list_to_set (filter (fun p => length p.2 = 0%nat) graph).*1.

Definition detect_outputs (graph : Graph) : list node :=
  let all_fins : gset node := list_to_set (concat graph.*2) in
  filter (fun n => n ∉ all_fins) (keys graph).

(** ** Cut handling *)

Definition enumerate {A} (l : list A) : list (nat * A) := imap pair l.

(** Inner loop of [minimalize_cuts]: is [c], at index [i], dominated? *)
Definition dominated (fs : list cut) (i : nat) (c : cut) : bool :=
  existsb (fun jd : nat * cut =>
             negb (Nat.eqb i jd.1)
             && bool_decide (jd.2 ⊆ c)
             && (negb (bool_decide (jd.2 = c)) || Nat.ltb jd.1 i))
          (enumerate fs).

(** Second loop of [minimalize_cuts]: drop what was [seen]. *)
Fixpoint dedup_seen (keep : list cut) (seen : gset cut) : list cut :=
  match keep with
  | [] => []
  | c :: rest =>
      if bool_decide (c ∈ seen) then dedup_seen rest seen
      else c :: dedup_seen rest ({[c]} ∪ seen)
  end.

Definition minimalize_cuts (cuts : list cut) : list cut :=
  let keep := (filter (fun ic => dominated cuts ic.1 ic.2 = false) (enumerate cuts)).*2 in
  dedup_seen keep ∅.

(** [itertools.product] over the pools: the last pool varies fastest. *)
Fixpoint product {A} (pools : list (list A)) : list (list A) :=
  match pools with
  | [] => [[]]
  | p :: ps => flat_map (fun x => map (cons x) (product ps)) p
  end.

(** [set().union] of the sets of a combination *)
Definition union_all (combo : list cut) : cut := ⋃ combo.

(** Stable sort by a [<=] test, as [list.sort] and [sorted] are. *)
Fixpoint insert_by {A} (le : A → A → bool) (x : A) (l : list A) : list A :=
  match l with
  | [] => [x]
  | y :: l' => if le x y then x :: y :: l' else y :: insert_by le x l'
  end.

Definition sort_by {A} (le : A → A → bool) (l : list A) : list A :=
  foldr (insert_by le) [] l.

(** [sorted(C)] for a set of strings. *)
Definition sorted (C : cut) : list node := sort_by String.leb (elements C).

(** Python's order on tuples of strings. *)
Fixpoint tuple_leb (a b : list node) : bool :=
  match a, b with
  | [], _ => true
  | _ :: _, [] => false
  | x :: a', y :: b' =>
      match String.compare x y with
      | Lt => true
      | Gt => false
      | Eq => tuple_leb a' b'
      end
  end.

(** Order on the keys [(len(s), tuple(sorted(s)))]. *)
Definition cut_key_leb (s t : cut) : bool :=
  if Nat.ltb (size s) (size t) then true
  else if Nat.ltb (size t) (size s) then false
  else tuple_leb (sorted s) (sorted t).

(** The slice [l[:n]] for a Python [int] [n]. *)
Definition slice_to {A} (n : Z) (l : list A) : list A :=
  if 0 <=? n then take (Z.to_nat n) l
  else take (Z.to_nat (Z.of_nat (length l) + n)) l.

Definition apply_cut_limit (cut_limit : option Z) (cand : list cut) : list cut :=
  match cut_limit with
  | Some lim =>
      if lim <? Z.of_nat (length cand) then slice_to lim (sort_by cut_key_leb cand)
      else cand
  | None => cand
  end.

(** Candidate cuts of a gate from the cut lists of its fanins. *)
Definition candidates (K : Z) (fins : list node) (pools : list (list cut)) : list cut :=
  let cand := filter (fun U : cut => Z.of_nat (size U) ≤ K) (union_all <$> product pools) in
  let triv : cut := list_to_set fins in
  if bool_decide (Z.of_nat (size triv) ≤ K) then cand ++ [triv] else cand.

(** Body of [for v in topo] in [enumerate_minimal_kcuts]. *)
Definition enumerate_step (graph : Graph) (K : Z) (cut_limit : option Z)
    (PIs : gset node) (node_cuts : gmap node (list cut)) (v : node)
  : result (gmap node (list cut)) :=
  if bool_decide (v ∈ PIs) then Ok (<[v := [{[v]}]]> node_cuts)
  else
    fins ← graph_get graph v;
    pools ← map_result (get node_cuts) fins;
    let cand := minimalize_cuts (candidates K fins pools) in
    Ok (<[v := apply_cut_limit cut_limit cand]> node_cuts).

Definition enumerate_minimal_kcuts (graph : Graph) (K : Z) (cut_limit : option Z)
  : result (gmap node (list cut)) :=
  if K <? 1 then Raise ValueError_K
  else
    '(topo, _) ← topo_sort graph;
    for_each (enumerate_step graph K cut_limit (primary_inputs graph)) topo ∅.

(** ** FlowMap depth labels *)

(** A dict keyed by [frozenset], in insertion order (iterated by the
    fallback of [area_recovery]). *)
Fixpoint dict_set {V} (k : cut) (x : V) (d : list (cut * V)) : list (cut * V) :=
  match d with
  | [] => [(k, x)]
  | (k', x') :: rest =>
      if bool_decide (k' = k) then (k', x) :: rest else (k', x') :: dict_set k x rest
  end.

Fixpoint dict_get {V} (k : cut) (d : list (cut * V)) : option V :=
  match d with
  | [] => None
  | (k', x') :: rest => if bool_decide (k' = k) then Some x' else dict_get k rest
  end.

(** [max] of a sequence of ints. *)
Definition max_of (ls : list Z) : result Z :=
  match ls with
  | [] => Raise ValueError_min_empty
  | x :: rest => Ok (foldl Z.max x rest)
  end.

(** [1 + max(labels[u] for u in C) if C else 1] *)
Definition depth_via (labels : gmap node Z) (C : cut) : result Z :=
  if bool_decide (C = ∅) then Ok 1
  else ls ← map_result (get labels) (elements C); m ← max_of ls; Ok (1 + m).

(** [{v: {} for v in graph}] *)
Definition init_cut_depth (graph : Graph) : gmap node (list (cut * Z)) :=
  foldl (fun m n => <[n := []]> m) ∅ (keys graph).

(** Body of [for C in node_cuts[v]] in [flowmap_labels]; the state is
    [(cut_depth, best_lbl)]. *)
Definition label_cut (labels : gmap node Z) (v : node)
    (st : gmap node (list (cut * Z)) * option Z) (C : cut)
  : result (gmap node (list (cut * Z)) * option Z) :=
  d ← depth_via labels C;
  cdv ← get st.1 v;
  Ok (<[v := dict_set C d cdv]> st.1,
      match st.2 with
      | None => Some d
      | Some b => if d <? b then Some d else Some b
      end).

(** Body of [for v in topo] in [flowmap_labels]; the state is
    [(labels, cut_depth)]. *)
Definition label_step (K : Z) (PIs : gset node) (node_cuts : gmap node (list cut))
    (st : gmap node Z * gmap node (list (cut * Z))) (v : node)
  : result (gmap node Z * gmap node (list (cut * Z))) :=
  if bool_decide (v ∈ PIs) then
    cdv ← get st.2 v;
    Ok (<[v := 0]> st.1, <[v := dict_set {[v]} 0 cdv]> st.2)
  else
    cs ← get node_cuts v;
    '(cut_depth, best_lbl) ← for_each (label_cut st.1 v) cs (st.2, None);
    match best_lbl with
    | None => Raise (RuntimeError_no_cuts v K)
    | Some b => Ok (<[v := b]> st.1, cut_depth)
    end.

Definition flowmap_labels (graph : Graph) (K : Z) (node_cuts : option (gmap node (list cut)))
  : result (gmap node Z * gmap node (list cut) * gmap node (list (cut * Z))) :=
  node_cuts ← match node_cuts with
              | None => enumerate_minimal_kcuts graph K None
              | Some nc => Ok nc
              end;
  '(topo, _) ← topo_sort graph;
  '(labels, cut_depth) ←
     for_each (label_step K (primary_inputs graph) node_cuts) topo (∅, init_cut_depth graph);
  Ok (labels, node_cuts, cut_depth).

(** ** Area-flow recovery *)

(** Conversion of a Python [int] to [float] in a mixed division (exact
    for the counts met here; [Uint63.of_Z] is exact below [2^63]). *)
Definition to_float (n : Z) : float := PrimFloat.of_uint63 (Uint63.of_Z n).

Definition compute_refcounts (graph : Graph) : result (gmap node Z) :=
  '(_, fanouts) ← topo_sort graph;
  Ok (foldl (fun m n => <[n := Z.max 1 (Z.of_nat (length (fanouts_get fanouts n)))]> m)
            ∅ (keys graph)).

(** The cost loop: [cost = 1.0; for u in C: if u not in PIs: cost += ..]. *)
Definition cut_cost (PIs : gset node) (area_flow : gmap node float) (refcnt : gmap node Z)
    (C : cut) : result float :=
  for_each (fun cost u =>
              if bool_decide (u ∈ PIs) then Ok cost
              else af ← get area_flow u; rc ← get refcnt u;
                   Ok (cost + af / to_float rc)%float)
           (elements C) 1%float.

(** Body of [for C in node_cuts[v]] in [area_recovery]; the state is
    [(best_cost, best_cut)], both [None] or both set. *)
Definition consider (PIs : gset node) (labels : gmap node Z)
    (cut_depth : gmap node (list (cut * Z)))
    (area_flow : gmap node float) (refcnt : gmap node Z) (v : node)
    (best : option (float * cut)) (C : cut) : result (option (float * cut)) :=
  cdv ← get cut_depth v;
  d ← match dict_get C cdv with Some d => Ok d | None => Raise (KeyError_cut v C) end;
  lv ← get labels v;
  if lv <? d then Ok best
  else
    cost ← cut_cost PIs area_flow refcnt C;
    match best with
    | None => Ok (Some (cost, C))
    | Some (best_cost, _) =>
        if (cost <? best_cost)%float then Ok (Some (cost, C)) else Ok best
    end.

(** The admissible-cut loop of one node (lines 189-201). *)
Definition best_admissible (PIs : gset node) (labels : gmap node Z)
    (node_cuts : gmap node (list cut)) (cut_depth : gmap node (list (cut * Z)))
    (area_flow : gmap node float) (refcnt : gmap node Z) (v : node)
  : result (option (float * cut)) :=
  cs ← get node_cuts v;
  for_each (consider PIs labels cut_depth area_flow refcnt v) cs None.

(** [proxy] of the fallback branch. *)
Definition proxy (PIs : gset node) (area_flow : gmap node float) (refcnt : gmap node Z)
    (C2 : cut) : float :=
  (1 + foldl (fun s u =>
               s + default 0%float (area_flow !! u)
                   / to_float (Z.max 1 (default 1%Z (refcnt !! u))))%float
            (to_float 0)
            (filter (fun u => u ∉ PIs) (elements C2)))%float.

(** [min(cands, key=proxy)]: the first candidate of least key. *)
Definition min_by_key {A} (key : A → float) (cands : list A) : result A :=
  match cands with
  | [] => Raise ValueError_min_empty
  | c :: rest =>
      Ok (foldl (fun b x => if (key x <? key b)%float then x else b) c rest)
  end.

Definition min_of (ls : list Z) : result Z :=
  match ls with
  | [] => Raise ValueError_min_empty
  | x :: rest => Ok (foldl Z.min x rest)
  end.

(** The fallback branch (lines 203-210). *)
Definition fallback (PIs : gset node) (cut_depth : gmap node (list (cut * Z)))
    (area_flow : gmap node float) (refcnt : gmap node Z) (v : node)
  : result (float * cut) :=
  cdv ← get cut_depth v;
  min_d ← min_of cdv.*2;
  let cands := (filter (fun cd : cut * Z => cd.2 = min_d) cdv).*1 in
  best_cut ← min_by_key (proxy PIs area_flow refcnt) cands;
  Ok (proxy PIs area_flow refcnt best_cut, best_cut).

(** Body of [for v in topo] in [area_recovery]; the state is
    [(best_cut_area, area_flow)]. *)
Definition recover_step (PIs : gset node) (labels : gmap node Z)
    (node_cuts : gmap node (list cut)) (cut_depth : gmap node (list (cut * Z)))
    (refcnt : gmap node Z)
    (st : gmap node cut * gmap node float) (v : node)
  : result (gmap node cut * gmap node float) :=
  if bool_decide (v ∈ PIs) then Ok (<[v := {[v]}]> st.1, <[v := 0%float]> st.2)
  else
    best ← best_admissible PIs labels node_cuts cut_depth st.2 refcnt v;
    '(best_cost, best_cut) ←
       match best with
       | Some b => Ok b
       | None => fallback PIs cut_depth st.2 refcnt v
       end;
    Ok (<[v := best_cut]> st.1, <[v := best_cost]> st.2).

Definition area_recovery (graph : Graph) (K : Z) (labels : gmap node Z)
    (node_cuts : gmap node (list cut)) (cut_depth : gmap node (list (cut * Z)))
  : result (gmap node cut * gmap node float) :=
  '(topo, _) ← topo_sort graph;
  refcnt ← compute_refcounts graph;
  for_each (recover_step (primary_inputs graph) labels node_cuts cut_depth refcnt) topo (∅, ∅).

(** ** LUT cover construction *)

Record LUT : Type := { output : node; inputs : list node; level : Z }.

#[global] Instance LUT_eq_dec : EqDecision LUT.
Proof. solve_decision. Defined.

(** [place(v)]; the state is [(covered, LUTs)].  [fuel] bounds the depth
    of the recursion. *)
Fixpoint place (fuel : nat) (PIs : gset node) (chosen_cut : gmap node cut)
    (labels : gmap node Z) (st : gset node * list LUT) (v : node)
  : result (gset node * list LUT) :=
  match fuel with
  | O => Raise OutOfFuel
  | S fuel' =>
      if bool_decide (v ∈ st.1 ∨ v ∈ PIs) then Ok st
      else
        C ← get chosen_cut v;
        lv ← get labels v;
        for_each (fun st' u =>
                    if bool_decide (u ∈ PIs) then Ok st'
                    else place fuel' PIs chosen_cut labels st' u)
                 (elements C)
                 ({[v]} ∪ st.1, st.2 ++ [{| output := v; inputs := sorted C; level := lv |}])
  end.

(** Order on the sort keys [(x["level"], x["output"])]. *)
Definition lut_leb (a b : LUT) : bool :=
  if level a <? level b then true
  else if level b <? level a then false
  else String.leb (output a) (output b).

Definition build_cover (graph : Graph) (chosen_cut : gmap node cut)
    (labels : gmap node Z) (outputs : option (list node)) : result (list LUT) :=
  let outputs := match outputs with
                 | None => detect_outputs graph
                 | Some os => os
                 end in
  st ← for_each (place (S (length graph)) (primary_inputs graph) chosen_cut labels)
                outputs (∅, []);
  Ok (sort_by lut_leb st.2).

(** ** End to end *)

Definition map_with_area_optimized_flow (graph : Graph) (K : Z)
    (outputs : option (list node)) (cut_limit : option Z)
  : result (gmap node Z * gmap node cut * list LUT) :=
  node_cuts ← enumerate_minimal_kcuts graph K cut_limit;
  '(labels, node_cuts, cut_depth) ← flowmap_labels graph K (Some node_cuts);
  '(best_cut_area, area_flow) ← area_recovery graph K labels node_cuts cut_depth;
  LUTs ← build_cover graph best_cut_area labels outputs;
  Ok (labels, best_cut_area, LUTs).

(** ** Scenarios

    The graphs of the scenarios of the specification and two further
    graphs, with the tables the stages compute on them. *)

Module Scenario.

(** The AND/OR graph of scenarios S1 and S2. *)
Definition and_or : Graph :=
[("a", []); ("b", []); ("c", []); ("and1", ["a"; "b"]); ("or1", ["and1"; "c"])].

(** The infeasible graph of scenario S6. *)
Definition wide : Graph :=
[("a", []); ("b", []); ("c", []); ("g", ["a"; "b"; "c"])].

(** The cyclic graph of scenario S5, and a graph with a dangling fanin. *)
Definition cyclic : Graph := [("x", ["y"]); ("y", ["x"])].
Definition dangling : Graph := [("v", ["u"])].

(** A gate [v] over a shallow fanin [f1] and a deeper one [f2],
  with [K = 3]. *)
Definition mixed : Graph :=
[("a", []); ("b", []); ("c", []); ("d", []); ("e2", []); ("e", []);
 ("f1", ["a"; "b"]); ("x", ["c"; "d"; "e2"]); ("f2", ["x"; "e"]);
 ("v", ["f1"; "f2"])].

(** Two gates [v], [v2] over the same fanins [m], [n], with [K = 4]. *)
Definition tie : Graph :=
[("a", []); ("b", []); ("c", []); ("d", []); ("e", []);
 ("p", ["b"; "c"]); ("m", ["p"; "a"]); ("n", ["d"; "e"]);
 ("v", ["m"; "n"]); ("v2", ["m"; "n"])].

(** Ranks that decrease along the fanins of the two graphs. *)
Definition and_or_rank (v : node) : nat :=
  if String.eqb v "or1" then 2 else if String.eqb v "and1" then 1 else 0.

Definition wide_rank (v : node) : nat :=
  if String.eqb v "g" then 1 else 0.

(** The table a stage returned, or an empty one had it raised. *)
Definition table {A} `{Empty A} (r : result A) : A :=
match r with
| Ok a => a
| Raise _ => ∅
end.

Definition and_or_cuts : gmap node (list cut) :=
table (enumerate_minimal_kcuts and_or 3 None).

(** What the pipeline returns on the AND/OR graph with [K = 2]. *)
Definition and_or_labels : gmap node Z :=
match map_with_area_optimized_flow and_or 2 None None with
| Ok (labels, _, _) => labels
| Raise _ => ∅
end.

Definition and_or_chosen : gmap node cut :=
match map_with_area_optimized_flow and_or 2 None None with
| Ok (_, chosen, _) => chosen
| Raise _ => ∅
end.

Definition and_or_LUTs : list LUT :=
match map_with_area_optimized_flow and_or 2 None None with
| Ok (_, _, LUTs) => LUTs
| Raise _ => []
end.

(** The labels and per-cut depths of the AND/OR graph with [K = 3]. *)
Definition and_or_labels3 : gmap node Z :=
match flowmap_labels and_or 3 (Some and_or_cuts) with
| Ok (labels, _, _) => labels
| Raise _ => ∅
end.

Definition and_or_cut_depth3 : gmap node (list (cut * Z)) :=
match flowmap_labels and_or 3 (Some and_or_cuts) with
| Ok (_, _, cut_depth) => cut_depth
| Raise _ => ∅
end.

Definition wide_cuts : gmap node (list cut) :=
table (enumerate_minimal_kcuts wide 2 None).

Definition tie_cuts : gmap node (list cut) :=
table (enumerate_minimal_kcuts tie 4 None).

Definition tie_labels : gmap node Z :=
match flowmap_labels tie 4 (Some tie_cuts) with
| Ok (labels, _, _) => labels
| Raise _ => ∅
end.

Definition tie_cut_depth : gmap node (list (cut * Z)) :=
match flowmap_labels tie 4 (Some tie_cuts) with
| Ok (_, _, cut_depth) => cut_depth
| Raise _ => ∅
end.

Definition tie_refcnt : gmap node Z := table (compute_refcounts tie).

Definition tie_chosen : gmap node cut :=
match area_recovery tie 4 tie_labels tie_cuts tie_cut_depth with
| Ok (chosen, _) => chosen
| Raise _ => ∅
end.

Definition tie_area_flow : gmap node float :=
match area_recovery tie 4 tie_labels tie_cuts tie_cut_depth with
| Ok (_, area_flow) => area_flow
| Raise _ => ∅
end.

End Scenario.


(** ** Cuts, in the words of the specification

    Section 3 of the specification: a cut of [v] is a non-empty set of
    nodes [C] such that every path from a primary input to [v] passes
    through some node of [C]; it is K-feasible when it has at most K
    nodes.  These definitions follow the specification, not the code;
    they are what the labels of the code are compared with. *)

(** A path from a primary input to [v] that meets no node of [C]. *)
Inductive pi_path_avoiding (graph : Graph) (C : cut) : node → Prop :=
  | path_from_pi v :
      v ∉ C → graph_get graph v = Ok [] → pi_path_avoiding graph C v
  | path_through v fins u :
      v ∉ C → graph_get graph v = Ok fins → u ∈ fins →
      pi_path_avoiding graph C u → pi_path_avoiding graph C v.

Definition spec_cut (graph : Graph) (v : node) (C : cut) : Prop :=
  C ≠ ∅ ∧ (∀ u, u ∈ C → u ∈ keys graph) ∧ ¬ pi_path_avoiding graph C v.

Definition spec_K_feasible_cut (graph : Graph) (K : Z) (v : node) (C : cut) : Prop :=
  spec_cut graph v C ∧ Z.of_nat (size C) ≤ K.

(** ** Basic facts: the result monad, dict lookups *)

Lemma bind_Ok {A B} (m : result A) (k : A → result B) (b : B) :
  (x ← m; k x) = Ok b ↔ ∃ a, m = Ok a ∧ k a = Ok b.
Proof.
  destruct m as [a|e]; simpl; split.
  - intros H. by exists a.
  - by intros (a' & [= <-] & H).
  - intros H; discriminate H.
  - by intros (a' & [=] & _).
Qed.

Lemma get_Ok {V} (d : gmap node V) k x : get d k = Ok x ↔ d !! k = Some x.
Proof. unfold get. destruct (d !! k); split; congruence. Qed.

Lemma graph_get_Ok graph v fins : graph_get graph v = Ok fins → (v, fins) ∈ graph.
Proof.
  induction graph as [|[n f] rest IH]; simpl; [discriminate|].
  destruct (String.eqb_spec n v) as [->|Hne].
  - intros [= ->]. left.
  - intros H. right. by apply IH.
Qed.

Lemma graph_get_elem graph v fins :
  graph_wf graph → (v, fins) ∈ graph → graph_get graph v = Ok fins.
Proof.
  unfold graph_wf, keys. induction graph as [|[n f] rest IH]; simpl.
  - intros _ H. by apply elem_of_nil in H.
  - intros Hnd Hin. apply NoDup_cons in Hnd as [Hn Hnd].
    apply elem_of_cons in Hin as [[= <- <-]|Hin].
    + by rewrite String.eqb_refl.
    + destruct (String.eqb_spec n v) as [->|Hne]; [|by apply IH].
      exfalso. apply Hn. apply list_elem_of_fmap. by exists (v, fins).
Qed.

Lemma graph_get_key graph v : v ∈ keys graph ↔ ∃ fins, graph_get graph v = Ok fins.
Proof.
  unfold keys. induction graph as [|[n f] rest IH]; simpl.
  - split; [intros H; by apply elem_of_nil in H | intros [? [=]]].
  - destruct (String.eqb_spec n v) as [->|Hne].
    + split; [by exists f | intros _; left].
    + rewrite elem_of_cons, IH. naive_solver.
Qed.

(** The fanins of a node, empty for a node that is not a key. *)
Definition fins_of (graph : Graph) (w : node) : list node :=
  match graph_get graph w with
  | Ok fins => fins
  | Raise _ => []
  end.

(** Number of occurrences of [w] in [ws]. *)
Definition occ (w : node) (ws : list node) : nat :=
  length (filter (λ x, x = w) ws).

Lemma occ_nil w : occ w [] = 0%nat.
Proof. reflexivity. Qed.

Lemma occ_cons w x ws :
  occ w (x :: ws) = ((if decide (x = w) then 1 else 0) + occ w ws)%nat.
Proof. unfold occ. rewrite filter_cons. by destruct (decide (x = w)). Qed.

Lemma occ_app w l1 l2 : occ w (l1 ++ l2) = (occ w l1 + occ w l2)%nat.
Proof. unfold occ. by rewrite filter_app, length_app. Qed.

Lemma occ_pos w ws : (0 < occ w ws)%nat ↔ w ∈ ws.
Proof.
  induction ws as [|x ws IH]; [rewrite occ_nil, elem_of_nil; lia|].
  rewrite occ_cons, elem_of_cons. destruct (decide (x = w)); [subst|]; naive_solver lia.
Qed.

Lemma occ_replicate w v n : occ w (replicate n v) = if decide (v = w) then n else 0%nat.
Proof.
  induction n as [|n IH]; simpl; [by destruct (decide _)|].
  rewrite occ_cons, IH. by destruct (decide (v = w)).
Qed.

(** *** What [build_fanouts] and [init_indeg] compute *)

Lemma fanouts_append_fold v fo u fins :
  fanouts_get (foldl (fanouts_append v) fo fins) u
  = fanouts_get fo u ++ replicate (occ u fins) v.
Proof.
  revert fo. induction fins as [|x fins IH]; intros fo; simpl.
  - by rewrite app_nil_r.
  - rewrite IH, occ_cons. unfold fanouts_append, fanouts_get.
    destruct (decide (x = u)) as [->|Hne].
    + rewrite lookup_insert_eq. simpl. by rewrite <- app_assoc.
    + by rewrite lookup_insert_ne.
Qed.

Lemma build_fanouts_fold (fo : gmap node (list node)) (graph : Graph) (u : node) :
  fanouts_get (foldl (λ fo '(v, fins), foldl (fanouts_append v) fo fins) fo graph) u
  = fanouts_get fo u ++ flat_map (λ p, replicate (occ u p.2) p.1) graph.
Proof.
  revert fo. induction graph as [|[v fins] rest IH]; intros fo; simpl.
  - by rewrite app_nil_r.
  - by rewrite IH, fanouts_append_fold, <- app_assoc.
Qed.

Lemma fanouts_spec graph u :
  fanouts_get (build_fanouts graph) u = flat_map (λ p, replicate (occ u p.2) p.1) graph.
Proof. unfold build_fanouts. by rewrite build_fanouts_fold. Qed.

(** A node occurs in [fanouts[u]] as often as [u] occurs among its fanins. *)
Lemma occ_fanouts graph u w :
  graph_wf graph → occ w (fanouts_get (build_fanouts graph) u) = occ u (fins_of graph w).
Proof.
  rewrite fanouts_spec. unfold graph_wf, keys, fins_of.
  induction graph as [|[v fins] rest IH]; simpl; [done|].
  intros Hnd. apply NoDup_cons in Hnd as [Hv Hnd].
  rewrite occ_app, occ_replicate, IH by done.
  destruct (String.eqb_spec v w) as [->|Hne].
  - rewrite decide_True by done.
    destruct (graph_get rest w) as [f|] eqn:Hg; [|by rewrite occ_nil; lia].
    exfalso. apply Hv. apply graph_get_Ok in Hg.
    apply list_elem_of_fmap. by exists (w, f).
  - by rewrite decide_False.
Qed.

Lemma fanouts_are_keys graph u w :
  w ∈ fanouts_get (build_fanouts graph) u → w ∈ keys graph.
Proof.
  rewrite fanouts_spec, list_elem_of_In, in_flat_map.
  intros ([v fins] & Hin & Hw). apply list_elem_of_In in Hin, Hw.
  apply elem_of_replicate in Hw as [-> _].
  apply list_elem_of_fmap. by exists (v, fins).
Qed.

Lemma init_indeg_fold (m : gmap node Z) (graph : Graph) (w : node) :
  NoDup graph.*1 →
  foldl (λ m '(n, fins), <[n := Z.of_nat (length fins)]> m) m graph !! w
  = match graph_get graph w with
    | Ok fins => Some (Z.of_nat (length fins))
    | Raise _ => m !! w
    end.
Proof.
  revert m. induction graph as [|[n f] rest IH]; intros m Hnd; simpl; [done|].
  apply NoDup_cons in Hnd as [Hn Hnd]. rewrite IH by done.
  destruct (String.eqb_spec n w) as [->|Hne].
  - destruct (graph_get rest w) as [f'|] eqn:Hg; [|by rewrite lookup_insert_eq].
    exfalso. apply Hn. apply graph_get_Ok in Hg.
    apply list_elem_of_fmap. by exists (w, f').
  - destruct (graph_get rest w); [done|]. by rewrite lookup_insert_ne.
Qed.

Lemma init_indeg_get graph w :
  graph_wf graph → w ∈ keys graph →
  indeg_get (init_indeg graph) w = Z.of_nat (length (fins_of graph w)).
Proof.
  intros Hwf [fins Hg]%graph_get_key. unfold indeg_get, init_indeg, fins_of.
  rewrite init_indeg_fold by done. by rewrite Hg.
Qed.

(** ** Kahn's algorithm ([topo_sort]) *)

Lemma indeg_get_insert (indeg : gmap node Z) x d w :
  indeg_get (<[x := d]> indeg) w = if decide (x = w) then d else indeg_get indeg w.
Proof.
  unfold indeg_get. destruct (decide (x = w)) as [->|Hne].
  - by rewrite lookup_insert_eq.
  - by rewrite lookup_insert_ne.
Qed.

(** The loop over one fanout list: every node loses as many units of
    in-degree as it occurs in the list, and is appended to the queue, once,
    exactly when its in-degree reaches zero on the way. *)
Lemma relax_loop ws indeg q :
  (∀ w, indeg_get (foldl relax (indeg, q) ws).1 w
        = indeg_get indeg w - Z.of_nat (occ w ws))
  ∧ ∃ added, (foldl relax (indeg, q) ws).2 = q ++ added
             ∧ NoDup added
             ∧ ∀ w, w ∈ added ↔ 0 < indeg_get indeg w ≤ Z.of_nat (occ w ws).
Proof.
  revert indeg q. induction ws as [|x ws IH]; intros indeg q; simpl.
  - split; [intros w; rewrite occ_nil; lia|].
    exists []. rewrite app_nil_r. split; [done|]. split; [constructor|].
    intros w. rewrite occ_nil, elem_of_nil. lia.
  - unfold relax at 2 4. simpl.
    destruct (IH (<[x := indeg_get indeg x - 1]> indeg)
                 (if indeg_get indeg x - 1 =? 0 then q ++ [x] else q))
      as (Hdeg & added & Hq & Hnd & Hadd).
    split.
    + intros w. rewrite Hdeg, indeg_get_insert, occ_cons.
      destruct (decide (x = w)); [subst|]; lia.
    + destruct (Z.eqb_spec (indeg_get indeg x - 1) 0) as [Hz|Hz].
      * exists (x :: added). rewrite Hq, <- app_assoc. split; [done|]. split.
        -- apply NoDup_cons. split; [|done].
           rewrite Hadd, indeg_get_insert, decide_True by done. lia.
        -- intros w. rewrite elem_of_cons, Hadd, indeg_get_insert, occ_cons.
           destruct (decide (x = w)) as [->|Hne]; [|naive_solver lia].
           split; [intros [_|?]; lia | intros ?; by left].
      * exists added. split; [done|]. split; [done|].
        intros w. rewrite Hadd, indeg_get_insert, occ_cons.
        destruct (decide (x = w)) as [->|Hne]; [|lia].
        split; [lia|]. intros [H1 H2]. split; [lia|].
        assert (0 < occ w ws)%nat as Hpos; [|lia].
        destruct (occ w ws); lia.
Qed.

Lemma filter_length_zero {A} (P : A → Prop) `{!∀ x, Decision (P x)} (l : list A) :
  length (filter P l) = 0%nat ↔ ∀ x, x ∈ l → ¬ P x.
Proof.
  induction l as [|a l IH]; simpl.
  - split; [intros _ x Hx; by apply elem_of_nil in Hx | done].
  - rewrite filter_cons. destruct (decide (P a)) as [Ha|Ha]; simpl.
    + split; [lia|]. intros Hall. exfalso. apply (Hall a); [left | done].
    + rewrite IH. split.
      * intros Hall x [->|Hx]%elem_of_cons; [done | by apply Hall].
      * intros Hall x Hx. apply Hall. by right.
Qed.

Lemma unprocessed_snoc (order : list node) u (L : list node) :
  u ∉ order →
  length (filter (λ x, x ∉ order) L)
  = (length (filter (λ x, x ∉ order ++ [u]) L) + occ u L)%nat.
Proof.
  intros Hu. induction L as [|a L IH]; [done|].
  rewrite !filter_cons, occ_cons.
  destruct (decide (a = u)) as [->|Hne].
  - rewrite decide_True by done. rewrite decide_False; [simpl; lia|].
    intros H. apply H. apply elem_of_app. right. left.
  - destruct (decide (a ∉ order)) as [Ha|Ha].
    + rewrite decide_True; [simpl; lia|].
      rewrite elem_of_app, list_elem_of_singleton. tauto.
    + rewrite decide_False; [simpl; lia|].
      rewrite elem_of_app, list_elem_of_singleton. tauto.
Qed.

Section Kahn.
Variable graph : Graph.
Hypothesis Hwf : graph_wf graph.

(** Fanin occurrences of [w] that are not yet in [order]. *)
Definition pending (order : list node) (w : node) : nat :=
  length (filter (λ x, x ∉ order) (fins_of graph w)).

(** Every node of [order] comes after all of its fanins. *)
Definition fanins_first (order : list node) : Prop :=
  ∀ l1 w l2, order = l1 ++ w :: l2 → ∀ x, x ∈ fins_of graph w → x ∈ l1.

Lemma pending_zero order w :
  pending order w = 0%nat ↔ ∀ x, x ∈ fins_of graph w → x ∈ order.
Proof.
  unfold pending. rewrite filter_length_zero. split.
  - intros H x Hx. destruct (decide (x ∈ order)); [done|]. by destruct (H x Hx).
  - intros H x Hx Hn. by apply Hn, H.
Qed.

Lemma pending_snoc order u w :
  u ∉ order → pending order w = (pending (order ++ [u]) w + occ u (fins_of graph w))%nat.
Proof. apply unprocessed_snoc. Qed.

(** Invariant of the [while q] loop. *)
Record kahn_inv (indeg : gmap node Z) (q order : list node) : Prop := {
  inv_nodup : NoDup (order ++ q);
  inv_keys : ∀ w, w ∈ order ++ q → w ∈ keys graph;
  inv_indeg : ∀ w, w ∈ keys graph → indeg_get indeg w = Z.of_nat (pending order w);
  inv_ready : ∀ w, w ∈ keys graph → (w ∈ order ++ q ↔ pending order w = 0%nat);
  inv_first : fanins_first order
}.

Lemma kahn_inv_init :
  kahn_inv (init_indeg graph)
           (filter (λ n, indeg_get (init_indeg graph) n = 0) (keys graph)) [].
Proof.
  assert (∀ w, w ∈ keys graph →
            indeg_get (init_indeg graph) w = Z.of_nat (pending [] w)) as Hdeg.
  { intros w Hw. rewrite init_indeg_get by done. unfold pending.
    do 2 f_equal. induction (fins_of graph w) as [|a l IH]; [done|].
    rewrite filter_cons_True by apply not_elem_of_nil. by f_equal. }
  split; simpl.
  - by apply NoDup_filter.
  - by intros w [_ Hw]%list_elem_of_filter.
  - done.
  - intros w Hw. rewrite list_elem_of_filter, Hdeg by done. split; [lia|].
    intros ->. by split.
  - intros l1 w l2 H. by destruct l1.
Qed.

Lemma kahn_inv_step indeg u q order :
  kahn_inv indeg (u :: q) order →
  kahn_inv (foldl relax (indeg, q) (fanouts_get (build_fanouts graph) u)).1
           (foldl relax (indeg, q) (fanouts_get (build_fanouts graph) u)).2
           (order ++ [u]).
Proof.
  intros [Hnd Hkeys Hdeg Hready Hfirst].
  destruct (relax_loop (fanouts_get (build_fanouts graph) u) indeg q)
    as (Hdeg' & added & -> & Hnd_add & Hadd).
  assert (u ∉ order) as Hu.
  { apply NoDup_app in Hnd as (_ & Hdisj & _). intros Hin.
    apply (Hdisj u Hin). left. }
  assert (∀ w, w ∈ added →
            w ∈ keys graph ∧ (0 < pending order w)%nat
            ∧ pending (order ++ [u]) w = 0%nat) as Hadd1.
  { intros w Hw. apply Hadd in Hw.
    assert (w ∈ keys graph) as Hk.
    { apply (fanouts_are_keys graph u), occ_pos. lia. }
    split; [done|]. rewrite Hdeg, occ_fanouts in Hw by done.
    pose proof (pending_snoc order u w Hu). lia. }
  assert (∀ w, w ∈ keys graph → (0 < pending order w)%nat →
            pending (order ++ [u]) w = 0%nat → w ∈ added) as Hadd2.
  { intros w Hk Hpos Hz. apply Hadd. rewrite Hdeg, occ_fanouts by done.
    pose proof (pending_snoc order u w Hu). lia. }
  assert ((order ++ [u]) ++ q ++ added = (order ++ u :: q) ++ added) as Heq.
  { by rewrite <- !app_assoc. }
  split.
  - rewrite Heq. apply NoDup_app. split; [done|]. split; [|done].
    intros w Hw Hw'. destruct (Hadd1 w Hw') as (Hk & Hpos & _).
    apply Hready in Hw; [lia | done].
  - rewrite Heq. intros w [Hw|Hw]%elem_of_app; [by apply Hkeys|].
    by destruct (Hadd1 w Hw).
  - intros w Hk. rewrite Hdeg', Hdeg, occ_fanouts by done.
    pose proof (pending_snoc order u w Hu). lia.
  - rewrite Heq. intros w Hk. rewrite elem_of_app. split.
    + intros [Hw|Hw]; [|by destruct (Hadd1 w Hw) as (_ & _ & ?)].
      apply Hready in Hw; [|done].
      pose proof (pending_snoc order u w Hu). lia.
    + intros Hz. destruct (decide (pending order w = 0%nat)) as [Hp|Hp].
      * left. by apply Hready.
      * right. apply Hadd2; [done | lia | done].
  - intros l1 w l2 Hsplit x Hx.
    destruct l2 as [|y l2 _] using rev_ind.
    + apply app_inj_tail in Hsplit as [-> ->].
      apply pending_zero with (w := w); [|done].
      apply Hready; [apply Hkeys|]; apply elem_of_app; right; left.
    + rewrite app_comm_cons, app_assoc in Hsplit.
      apply app_inj_tail in Hsplit as [-> _]. by eapply Hfirst.
Qed.

Lemma kahn_inv_length indeg q order :
  kahn_inv indeg q order → (length order + length q ≤ length (keys graph))%nat.
Proof.
  intros [Hnd Hkeys _ _ _]. rewrite <- length_app.
  apply submseteq_length, NoDup_submseteq; [done|].
  intros w Hw. by apply Hkeys.
Qed.

(** The loop ends within its fuel and keeps the invariant. *)
Lemma kahn_run fuel indeg q order :
  kahn_inv indeg q order →
  (length (keys graph) < fuel + length order)%nat →
  ∃ order' indeg',
    kahn fuel (build_fanouts graph) indeg q order = Ok order'
    ∧ kahn_inv indeg' [] order'.
Proof.
  revert indeg q order. induction fuel as [|fuel IH]; intros indeg q order Hinv Hfuel.
  - apply kahn_inv_length in Hinv. lia.
  - destruct q as [|u q]; simpl; [by exists order, indeg|].
    apply IH; [by apply kahn_inv_step|].
    rewrite length_app. simpl. lia.
Qed.

(** What the order satisfies when the loop is over. *)
Definition kahn_final (order : list node) : Prop :=
  NoDup order
  ∧ (∀ w, w ∈ order → w ∈ keys graph)
  ∧ (∀ w, w ∈ keys graph → (w ∈ order ↔ ∀ x, x ∈ fins_of graph w → x ∈ order))
  ∧ fanins_first order.

Lemma kahn_total :
  ∃ order,
    kahn (S (length graph)) (build_fanouts graph) (init_indeg graph)
         (filter (λ n, indeg_get (init_indeg graph) n = 0) (keys graph)) []
    = Ok order
    ∧ kahn_final order.
Proof.
  destruct (kahn_run (S (length graph)) _ _ _ kahn_inv_init)
    as (order & indeg & Hrun & [Hnd Hkeys _ Hready Hfirst]).
  { unfold keys. rewrite length_fmap. simpl. lia. }
  exists order. split; [done|]. rewrite app_nil_r in *.
  repeat split; try done.
  - intros Hw. by apply pending_zero, Hready.
  - intros Hall. by apply Hready, pending_zero.
Qed.

(** [topo_sort] returns an order or reports "not a DAG". *)
Lemma topo_sort_cases :
  (∃ order, topo_sort graph = Ok (order, build_fanouts graph)
            ∧ kahn_final order ∧ length order = length graph)
  ∨ (topo_sort graph = Raise ValueError_not_a_DAG).
Proof.
  destruct kahn_total as (order & Hrun & Hfin).
  unfold topo_sort. rewrite Hrun. simpl.
  destruct (decide (length order = length graph)) as [Hlen|Hlen].
  - left. exists order. rewrite bool_decide_eq_false_2 by (intros H; by apply H).
    done.
  - right. by rewrite bool_decide_eq_true_2.
Qed.

(** The order returned lists every key once, fanins first. *)
Lemma topo_sort_Ok order fanouts :
  topo_sort graph = Ok (order, fanouts) →
  fanouts = build_fanouts graph
  ∧ NoDup order
  ∧ (∀ w, w ∈ order ↔ w ∈ keys graph)
  ∧ fanins_first order.
Proof.
  destruct topo_sort_cases as [(order' & Hts & Hfin & Hlen)|Hts];
    rewrite Hts; [|discriminate].
  intros [= <- <-]. destruct Hfin as (Hnd & Hkeys & _ & Hfirst).
  repeat split; try done; [by apply Hkeys|].
  assert (order' ≡ₚ keys graph) as Hperm.
  { apply submseteq_length_Permutation.
    - by apply NoDup_submseteq.
    - unfold keys. rewrite length_fmap. lia. }
  intros Hw. by rewrite Hperm.
Qed.

(** A fanin that is not a key keeps its node out of the order: the sort
    reports "not a DAG". *)
Lemma topo_sort_dangling v u :
  v ∈ keys graph → u ∈ fins_of graph v → u ∉ keys graph →
  topo_sort graph = Raise ValueError_not_a_DAG.
Proof.
  intros Hv Hu Hnk.
  destruct topo_sort_cases as [(order & Hts & Hfin & Hlen)|Hts]; [|done].
  exfalso. destruct (topo_sort_Ok _ _ Hts) as (_ & _ & Hall & _).
  destruct Hfin as (_ & _ & Hready & _).
  apply Hnk, Hall. apply (Hready v Hv); [|done]. by apply Hall.
Qed.
End Kahn.

(** ** Loops and lists *)

(** A loop invariant indexed by the items already visited. *)
Lemma for_each_inv {S X} (I : list X → S → Prop) (body : S → X → result S) xs s0 s' :
  I [] s0 →
  (∀ pre x post s s1,
      xs = pre ++ x :: post → I pre s → body s x = Ok s1 → I (pre ++ [x]) s1) →
  for_each body xs s0 = Ok s' →
  I xs s'.
Proof.
  intros H0 Hstep.
  assert (∀ post pre s, xs = pre ++ post → I pre s →
            for_each body post s = Ok s' → I xs s') as Hgen.
  { induction post as [|x post IH]; intros pre s Hxs Hpre Hrun; simpl in Hrun.
    - injection Hrun as <-. by rewrite Hxs, app_nil_r.
    - apply bind_Ok in Hrun as (s1 & Hbody & Hrun).
      apply (IH (pre ++ [x]) s1); [by rewrite <- app_assoc | | done].
      by eapply Hstep. }
  intros Hrun. by apply (Hgen xs [] s0).
Qed.

Lemma map_result_acc {X Y} (f : X → result Y) xs acc ys :
  for_each (λ acc x, y ← f x; Ok (acc ++ [y])) xs acc = Ok ys →
  ∃ ys', ys = acc ++ ys' ∧ Forall2 (λ x y, f x = Ok y) xs ys'.
Proof.
  revert acc. induction xs as [|x xs IH]; intros acc; simpl.
  - intros [= <-]. exists []. by rewrite app_nil_r.
  - intros (acc1 & (y & Hy & [= <-])%bind_Ok & Hrun)%bind_Ok.
    destruct (IH _ Hrun) as (ys' & -> & Hall).
    exists (y :: ys'). rewrite <- app_assoc. split; [done|]. by constructor.
Qed.

Lemma map_result_Ok {X Y} (f : X → result Y) xs ys :
  map_result f xs = Ok ys → Forall2 (λ x y, f x = Ok y) xs ys.
Proof. intros (ys' & -> & H)%map_result_acc. done. Qed.

(** *** Sorting permutes *)

Lemma insert_by_perm {A} (le : A → A → bool) x l : insert_by le x l ≡ₚ x :: l.
Proof.
  induction l as [|y l IH]; simpl; [done|].
  destruct (le x y); [done|]. rewrite IH. apply Permutation_swap.
Qed.

Lemma sort_by_perm {A} (le : A → A → bool) l : sort_by le l ≡ₚ l.
Proof.
  induction l as [|x l IH]; simpl; [done|].
  unfold sort_by in *. simpl. by rewrite insert_by_perm, IH.
Qed.

Lemma sorted_elem C u : u ∈ sorted C ↔ u ∈ C.
Proof. unfold sorted. by rewrite sort_by_perm, elem_of_elements. Qed.

Lemma sorted_length C : length (sorted C) = size C.
Proof. unfold sorted. by rewrite sort_by_perm. Qed.

(** *** Cut lists: pruning and capping only remove cuts *)

Lemma dedup_seen_elem keep seen C : C ∈ dedup_seen keep seen → C ∈ keep.
Proof.
  revert seen. induction keep as [|c rest IH]; intros seen; simpl; [done|].
  destruct (bool_decide (c ∈ seen)).
  - intros H. right. by eapply IH.
  - intros [->|H]%elem_of_cons; [left | right; by eapply IH].
Qed.

Lemma enumerate_elem {A} (l : list A) i x : (i, x) ∈ enumerate l → x ∈ l.
Proof.
  unfold enumerate. intros H. apply list_elem_of_lookup_1 in H as [j Hj].
  rewrite list_lookup_imap in Hj.
  destruct (l !! j) as [y|] eqn:Hy; simpl in Hj; [|done].
  injection Hj as <- <-. by eapply list_elem_of_lookup_2.
Qed.

Lemma minimalize_cuts_elem cuts C : C ∈ minimalize_cuts cuts → C ∈ cuts.
Proof.
  unfold minimalize_cuts. intros H%dedup_seen_elem.
  apply list_elem_of_fmap in H as ([i c] & -> & H).
  apply list_elem_of_filter in H as [_ H]. by eapply enumerate_elem.
Qed.

Lemma slice_to_elem {A} n (l : list A) x : x ∈ slice_to n l → x ∈ l.
Proof.
  unfold slice_to.
  destruct (0 <=? n); intros (i & Hi & _)%elem_of_take;
    by eapply list_elem_of_lookup_2.
Qed.

Lemma apply_cut_limit_elem cut_limit cand C :
  C ∈ apply_cut_limit cut_limit cand → C ∈ cand.
Proof.
  unfold apply_cut_limit. destruct cut_limit as [lim|]; [|done].
  destruct (lim <? Z.of_nat (length cand)); [|done].
  intros H%slice_to_elem. by rewrite sort_by_perm in H.
Qed.

Lemma product_elem {A} (pools : list (list A)) combo :
  combo ∈ product pools → Forall2 (λ c p, c ∈ p) combo pools.
Proof.
  revert combo. induction pools as [|p ps IH]; intros combo; simpl.
  - intros ->%list_elem_of_singleton. constructor.
  - rewrite list_elem_of_In, in_flat_map.
    intros (x & Hx%list_elem_of_In & Hc%list_elem_of_In).
    apply list_elem_of_fmap in Hc as (rest & -> & Hrest).
    constructor; [done | by apply IH].
Qed.

Lemma candidates_elem K fins pools C :
  C ∈ candidates K fins pools →
  Z.of_nat (size C) ≤ K
  ∧ (C = list_to_set fins ∨ ∃ combo, combo ∈ product pools ∧ C = union_all combo).
Proof.
  unfold candidates.
  assert (C ∈ filter (λ U : cut, Z.of_nat (size U) ≤ K) (union_all <$> product pools) →
          Z.of_nat (size C) ≤ K
          ∧ (C = list_to_set fins ∨ ∃ combo, combo ∈ product pools ∧ C = union_all combo))
    as Hprod.
  { intros [Hsz Hin]%list_elem_of_filter. split; [done|]. right.
    apply list_elem_of_fmap in Hin as (combo & -> & Hin). by exists combo. }
  case_bool_decide as Htriv; [|done].
  intros [H|H]%elem_of_app; [by apply Hprod|].
  apply list_elem_of_singleton in H as ->. split; [done | by left].
Qed.

(** ** Cut enumeration *)

Lemma primary_inputs_spec graph v :
  graph_wf graph → (v ∈ primary_inputs graph ↔ graph_get graph v = Ok []).
Proof.
  intros Hwf. unfold primary_inputs. rewrite elem_of_list_to_set, list_elem_of_fmap.
  split.
  - intros ([n fins] & -> & [Hlen Hin]%list_elem_of_filter). simpl in *.
    apply length_zero_iff_nil in Hlen as ->. by apply graph_get_elem.
  - intros Hg%graph_get_Ok. exists (v, []). split; [done|].
    by apply list_elem_of_filter.
Qed.

(** What holds of the table [node_cuts] once the nodes [pre] are done:
    it has an entry exactly for the nodes of [pre], and every cut in it is
    a non-empty set of at most [K] nodes of [pre] that leaves out its own
    gate. *)
Definition cuts_ok (K : Z) (PIs : gset node) (pre : list node)
    (node_cuts : gmap node (list cut)) : Prop :=
  ∀ w, (w ∈ pre ↔ is_Some (node_cuts !! w))
       ∧ ∀ cs C, node_cuts !! w = Some cs → C ∈ cs →
           C ≠ ∅ ∧ (∀ u, u ∈ C → u ∈ pre) ∧ (w ∉ PIs → w ∉ C)
           ∧ Z.of_nat (size C) ≤ K.

Lemma combo_from_fanins (node_cuts : gmap node (list cut)) fins pools combo :
  Forall2 (λ fi cs, get node_cuts fi = Ok cs) fins pools →
  Forall2 (λ c p, c ∈ p) combo pools →
  length combo = length fins
  ∧ ∀ c, c ∈ combo → ∃ fi cs, fi ∈ fins ∧ node_cuts !! fi = Some cs ∧ c ∈ cs.
Proof.
  intros Hpools. revert combo.
  induction Hpools as [|fi cs fins pools Hfi _ IH]; intros combo Hcombo.
  - inversion Hcombo; subst. split; [done|]. intros c Hc. by apply elem_of_nil in Hc.
  - inversion Hcombo as [|c p combo' ? Hc Hrest]; subst.
    destruct (IH _ Hrest) as [Hlen Hall]. split; [simpl; by f_equal|].
    intros c' [->|Hc']%elem_of_cons.
    + exists fi, cs. split; [left|]. by apply get_Ok in Hfi.
    + destruct (Hall c' Hc') as (fi' & cs' & ? & ? & ?).
      exists fi', cs'. split; [by right | done].
Qed.

Lemma enumerate_step_ok graph K cut_limit pre node_cuts v node_cuts' :
  graph_wf graph → 1 ≤ K → v ∉ pre →
  cuts_ok K (primary_inputs graph) pre node_cuts →
  enumerate_step graph K cut_limit (primary_inputs graph) node_cuts v = Ok node_cuts' →
  cuts_ok K (primary_inputs graph) (pre ++ [v]) node_cuts'.
Proof.
  intros Hwf HK Hv Hok. unfold enumerate_step.
  assert (∀ cs0 : list cut,
            (∀ C, C ∈ cs0 →
                  C ≠ ∅ ∧ (∀ u, u ∈ C → u ∈ pre ++ [v])
                  ∧ (v ∉ primary_inputs graph → v ∉ C) ∧ Z.of_nat (size C) ≤ K) →
            cuts_ok K (primary_inputs graph) (pre ++ [v]) (<[v := cs0]> node_cuts))
    as Hins.
  { intros cs0 Hcs0 w. destruct (decide (v = w)) as [<-|Hne].
    - rewrite lookup_insert_eq. split.
      + split; [by eauto|]. intros _. apply elem_of_app. right. left.
      + intros cs C [= <-]. apply Hcs0.
    - rewrite lookup_insert_ne by done. destruct (Hok w) as [Hdom Hcuts]. split.
      + rewrite elem_of_app, list_elem_of_singleton, Hdom. naive_solver.
      + intros cs C Hcs HC. destruct (Hcuts cs C Hcs HC) as (? & Hsub & ? & ?).
        repeat split; try done. intros u Hu. apply elem_of_app. left. by apply Hsub. }
  case_bool_decide as HPI.
  - intros [= <-]. apply Hins. intros C ->%list_elem_of_singleton.
    split; [apply non_empty_singleton_L|]. split.
    + intros u ->%elem_of_singleton. apply elem_of_app. right. left.
    + split; [done|]. rewrite size_singleton. lia.
  - intros (fins & Hfins & (pools & Hpools%map_result_Ok & [= <-])%bind_Ok)%bind_Ok.
    apply Hins. intros C HC.
    apply apply_cut_limit_elem, minimalize_cuts_elem, candidates_elem in HC
      as [Hsize HC].
    assert (fins ≠ []) as Hne.
    { intros ->. apply HPI. by apply primary_inputs_spec. }
    assert (∀ u, u ∈ fins → u ∈ pre) as Hfpre.
    { intros u Hu. apply list_elem_of_lookup in Hu as [i Hi].
      destruct (Forall2_lookup_l _ _ _ i u Hpools Hi) as (cs & _ & Hcs).
      apply get_Ok in Hcs. apply (Hok u). by eauto. }
    assert (C ≠ ∅ ∧ ∀ u, u ∈ C → u ∈ pre) as [Hnonempty Hsub].
    { destruct HC as [->|(combo & Hcombo%product_elem & ->)].
      - split.
        + destruct fins as [|f fins]; [done|]. simpl. set_solver.
        + intros u Hu%elem_of_list_to_set. by apply Hfpre.
      - destruct (combo_from_fanins _ _ _ _ Hpools Hcombo) as [Hlen Hall]. split.
        + destruct combo as [|c combo]; [by destruct fins|].
          destruct (Hall c) as (fi & cs & _ & Hcs & Hc); [left|].
          destruct (Hok fi) as [_ Hcuts].
          destruct (Hcuts cs c Hcs Hc) as (Hc0 & _). unfold union_all. simpl.
          intros Hempty. apply Hc0. set_solver.
        + unfold union_all. intros u (c & Hc & Hu)%elem_of_union_list.
          destruct (Hall c Hc) as (fi & cs & _ & Hcs & Hin).
          destruct (Hok fi) as [_ Hcuts].
          destruct (Hcuts cs c Hcs Hin) as (_ & Hpre & _). by apply Hpre. }
    split; [done|]. split; [|split; [|done]].
    + intros u Hu. apply elem_of_app. left. by apply Hsub.
    + intros _ Hin. by apply Hv, Hsub.
Qed.

(** The table returned by [enumerate_minimal_kcuts]. *)
Lemma enumerate_minimal_kcuts_Ok graph K cut_limit node_cuts :
  graph_wf graph →
  enumerate_minimal_kcuts graph K cut_limit = Ok node_cuts →
  1 ≤ K
  ∧ ∃ topo fanouts,
      topo_sort graph = Ok (topo, fanouts)
      ∧ cuts_ok K (primary_inputs graph) topo node_cuts.
Proof.
  intros Hwf. unfold enumerate_minimal_kcuts.
  destruct (Z.ltb_spec K 1) as [|HK]; [done|].
  intros ([topo fanouts] & Hts & Hrun)%bind_Ok. split; [done|].
  exists topo, fanouts. split; [done|].
  destruct (topo_sort_Ok graph Hwf _ _ Hts) as (_ & Hnd & _ & _).
  revert Hrun. apply for_each_inv.
  - intros w. split; [|by intros cs C [=]].
    rewrite lookup_empty, elem_of_nil. split; [done | by intros [? [=]]].
  - intros pre x post s s1 -> Hpre Hstep.
    eapply enumerate_step_ok; try done.
    apply NoDup_app in Hnd as (_ & Hdisj & _). intros Hx.
    apply (Hdisj x Hx). left.
Qed.

(** An entry for every key, and only for keys. *)
Lemma enumerate_minimal_kcuts_dom graph K cut_limit node_cuts v :
  graph_wf graph →
  enumerate_minimal_kcuts graph K cut_limit = Ok node_cuts →
  v ∈ keys graph ↔ is_Some (node_cuts !! v).
Proof.
  intros Hwf Henum.
  destruct (enumerate_minimal_kcuts_Ok _ _ _ _ Hwf Henum)
    as (_ & topo & fanouts & Hts & Hok).
  destruct (topo_sort_Ok graph Hwf _ _ Hts) as (_ & _ & Hall & _).
  rewrite <- Hall. apply Hok.
Qed.

(** ** Depth labels *)

Lemma dict_get_set_eq {V} k (x : V) d : dict_get k (dict_set k x d) = Some x.
Proof.
  induction d as [|[k' x'] d IH]; simpl.
  - by rewrite bool_decide_eq_true_2.
  - case_bool_decide as Hk; simpl.
    + by rewrite bool_decide_eq_true_2.
    + by rewrite bool_decide_eq_false_2.
Qed.

Lemma dict_get_set_ne {V} k k' (x : V) d :
  k ≠ k' → dict_get k' (dict_set k x d) = dict_get k' d.
Proof.
  intros Hne. induction d as [|[k0 x0] d IH]; simpl.
  - by rewrite bool_decide_eq_false_2.
  - case_bool_decide as Hk; simpl.
    + subst k0. by rewrite !bool_decide_eq_false_2.
    + case_bool_decide; [done | apply IH].
Qed.

(** [cut_depth[v][C]], when present. *)
Definition cd_get (cut_depth : gmap node (list (cut * Z))) (v : node) (C : cut)
  : option Z :=
  match cut_depth !! v with
  | Some cdv => dict_get C cdv
  | None => None
  end.

Lemma foldl_max_spec x rest :
  foldl Z.max x rest ∈ x :: rest ∧ ∀ y, y ∈ x :: rest → y ≤ foldl Z.max x rest.
Proof.
  revert x. induction rest as [|z rest IH]; intros x; simpl.
  - split; [left|]. intros y ->%list_elem_of_singleton. lia.
  - destruct (IH (Z.max x z)) as [Hin Hmax]. split.
    + apply elem_of_cons in Hin as [Heq|Hin]; [|right; by right].
      rewrite Heq. destruct (Z.max_spec x z) as [[_ ->]|[_ ->]]; [right; left | left].
    + intros y Hy. assert (Z.max x z ≤ foldl Z.max (Z.max x z) rest) by (apply Hmax; left).
      apply elem_of_cons in Hy as [->|[->|Hy]%elem_of_cons]; [lia | lia |].
      apply Hmax. by right.
Qed.

(** The depth through a non-empty cut is one more than the largest label
    in it. *)
Lemma depth_via_Ok (labels : gmap node Z) C d :
  depth_via labels C = Ok d → C ≠ ∅ →
  (∃ u, u ∈ C ∧ labels !! u = Some (d - 1))
  ∧ ∀ u, u ∈ C → ∃ l, labels !! u = Some l ∧ l < d.
Proof.
  unfold depth_via. intros Hd Hne. rewrite bool_decide_eq_false_2 in Hd by done.
  apply bind_Ok in Hd as (ls & Hls%map_result_Ok & (m & Hm & [= <-])%bind_Ok).
  destruct ls as [|x rest]; [done|]. injection Hm as <-.
  destruct (foldl_max_spec x rest) as [Hin Hmax].
  replace (1 + foldl Z.max x rest - 1) with (foldl Z.max x rest) by lia. split.
  - apply list_elem_of_lookup in Hin as [i Hi].
    destruct (Forall2_lookup_r _ _ _ i _ Hls Hi) as (u & Hu & Hget).
    exists u. split; [|by apply get_Ok].
    apply elem_of_elements. by eapply list_elem_of_lookup_2.
  - intros u Hu%elem_of_elements. apply list_elem_of_lookup in Hu as [i Hi].
    destruct (Forall2_lookup_l _ _ _ i _ Hls Hi) as (l & Hl & Hget%get_Ok).
    exists l. split; [done|].
    assert (l ≤ foldl Z.max x rest); [|lia].
    apply Hmax. by eapply list_elem_of_lookup_2.
Qed.

Lemma map_result_total {X Y} (f : X → result Y) xs :
  (∀ x, x ∈ xs → ∃ y, f x = Ok y) → ∃ ys, map_result f xs = Ok ys.
Proof.
  intros Hall. unfold map_result.
  assert (∀ acc, ∃ ys, for_each (λ acc x, y ← f x; Ok (acc ++ [y])) xs acc = Ok ys)
    as Hgen; [|apply Hgen].
  induction xs as [|x xs IH]; intros acc; simpl; [by eauto|].
  destruct (Hall x) as [y ->]; [left|]. simpl. apply IH.
  intros x' Hx'. apply Hall. by right.
Qed.

(** The depth through a cut is defined once its nodes are labeled. *)
Lemma depth_via_total (labels : gmap node Z) C :
  (∀ u, u ∈ C → is_Some (labels !! u)) → ∃ d, depth_via labels C = Ok d.
Proof.
  intros Hdef. unfold depth_via. case_bool_decide as Hne; [by eauto|].
  destruct (map_result_total (get labels) (elements C)) as [ls Hls].
  { intros u Hu%elem_of_elements. destruct (Hdef u Hu) as [l Hl].
    exists l. by apply get_Ok. }
  rewrite Hls. simpl. destruct ls as [|x rest]; simpl; [|by eauto].
  exfalso. apply map_result_Ok in Hls. apply Forall2_nil_inv_r in Hls.
  apply Hne. by apply elements_empty_inv, leibniz_equiv in Hls.
Qed.

Lemma for_each_ext {S X} (f g : S → X → result S) xs s :
  (∀ s x, x ∈ xs → f s x = g s x) → for_each f xs s = for_each g xs s.
Proof.
  revert s. induction xs as [|x xs IH]; intros s Hext; simpl; [done|].
  rewrite Hext by left. destruct (g s x) as [s'|]; simpl; [|done].
  apply IH. intros s0 y Hy. apply Hext. by right.
Qed.

(** A new label for [v] leaves the depth through cuts without [v] as it was. *)
Lemma depth_via_insert (labels : gmap node Z) C d v x :
  depth_via labels C = Ok d → labels !! v = None →
  depth_via (<[v := x]> labels) C = Ok d.
Proof.
  intros Hd Hv. unfold depth_via in *. case_bool_decide; [done|].
  apply bind_Ok in Hd as (ls & Hls & Hm).
  assert (map_result (get (<[v := x]> labels)) (elements C) = Ok ls) as ->; [|done].
  rewrite <- Hls. unfold map_result. apply for_each_ext. intros acc u Hu.
  apply map_result_Ok in Hls. apply list_elem_of_lookup in Hu as [i Hi].
  destruct (Forall2_lookup_l _ _ _ i _ Hls Hi) as (l & _ & Hget%get_Ok).
  unfold get. rewrite lookup_insert_ne; [done|]. intros <-. congruence.
Qed.

Section Labels.
Variable PIs : gset node.
Variable node_cuts : gmap node (list cut).

(** What holds of [(labels, cut_depth)] once the nodes [pre] are done. *)
Definition labels_ok (pre : list node)
    (st : gmap node Z * gmap node (list (cut * Z))) : Prop :=
  ∀ w, (w ∈ pre ↔ is_Some (st.1 !! w))
       ∧ (w ∈ pre → w ∈ PIs → st.1 !! w = Some 0)
       ∧ (w ∈ pre → w ∉ PIs →
          ∃ cs lw, node_cuts !! w = Some cs ∧ st.1 !! w = Some lw
            ∧ (∀ C, C ∈ cs →
                 ∃ d, cd_get st.2 w C = Some d ∧ lw ≤ d ∧ depth_via st.1 C = Ok d)
            ∧ (∃ C, C ∈ cs ∧ cd_get st.2 w C = Some lw)).

(** The loop over the cuts of one gate. *)
Lemma label_cut_loop labels v cs cut_depth cut_depth' best :
  for_each (label_cut labels v) cs (cut_depth, None) = Ok (cut_depth', best) →
  (∀ w, w ≠ v → cut_depth' !! w = cut_depth !! w)
  ∧ (∀ C, C ∈ cs →
       ∃ d b, cd_get cut_depth' v C = Some d ∧ depth_via labels C = Ok d
              ∧ best = Some b ∧ b ≤ d)
  ∧ (cs = [] → best = None)
  ∧ (∀ b, best = Some b → ∃ C, C ∈ cs ∧ cd_get cut_depth' v C = Some b).
Proof.
  pose (I := λ (cpre : list cut) (st : gmap node (list (cut * Z)) * option Z),
          (∀ w, w ≠ v → st.1 !! w = cut_depth !! w)
          ∧ (∀ C, C ∈ cpre →
               ∃ d b, cd_get st.1 v C = Some d ∧ depth_via labels C = Ok d
                      ∧ st.2 = Some b ∧ b ≤ d)
          ∧ (cpre = [] → st.2 = None)
          ∧ (∀ b, st.2 = Some b → ∃ C, C ∈ cpre ∧ cd_get st.1 v C = Some b)).
  intros Hrun. apply (for_each_inv I) in Hrun; [done| |].
  - repeat split; try done. intros C HC. by apply elem_of_nil in HC.
  - clear Hrun. intros cpre C post [cd0 best0] [cd1 best1] _
      (Hother & Hcuts & Hnone & Hbest) Hstep.
    unfold label_cut in Hstep. simpl in *.
    apply bind_Ok in Hstep as (d & Hd & (cdv & Hcdv%get_Ok & [= <- <-])%bind_Ok).
    assert (cd_get (<[v := dict_set C d cdv]> cd0) v C = Some d) as HgetC.
    { unfold cd_get. rewrite lookup_insert_eq. apply dict_get_set_eq. }
    assert (∀ C', C' ≠ C →
              cd_get (<[v := dict_set C d cdv]> cd0) v C' = cd_get cd0 v C') as Hget.
    { intros C' Hne. unfold cd_get. rewrite lookup_insert_eq, Hcdv.
      by apply dict_get_set_ne. }
    assert (∃ b, match best0 with
                 | Some b => if d <? b then Some d else Some b
                 | None => Some d
                 end = Some b ∧ b ≤ d
                 ∧ (b = d ∨ best0 = Some b)
                 ∧ ∀ b0, best0 = Some b0 → b ≤ b0) as (b & -> & Hbd & Hb & Hmono).
    { destruct best0 as [b0|].
      - destruct (Z.ltb_spec d b0).
        + exists d. repeat split; [lia | by left | intros ? [= <-]; lia].
        + exists b0. repeat split; [lia | by right | intros ? [= <-]; lia].
      - exists d. repeat split; [lia | by left | done]. }
    repeat split; simpl.
    + intros w Hw. rewrite lookup_insert_ne by done. by apply Hother.
    + intros C' [HC'|HC']%elem_of_app;
        [|apply list_elem_of_singleton in HC' as ->].
      * destruct (Hcuts C' HC') as (d' & b' & Hg & Hd' & -> & Hle).
        exists d', b. split.
        { destruct (decide (C' = C)) as [->|Hne]; [|by rewrite Hget].
          rewrite HgetC. congruence. }
        repeat split; try done. specialize (Hmono b' eq_refl). lia.
      * exists d, b. by repeat split.
    + intros Heq. by destruct cpre.
    + intros b1 [= <-]. destruct Hb as [->|Hb0].
      * exists C. split; [|done]. apply elem_of_app. right. left.
      * destruct (Hbest b Hb0) as (C' & HC' & Hg). exists C'.
        split; [apply elem_of_app; by left|].
        destruct (decide (C' = C)) as [->|Hne]; [|by rewrite Hget].
        destruct (Hcuts C HC') as (d' & b' & Hg' & Hd' & _).
        rewrite HgetC. congruence.
Qed.

Lemma label_step_ok K pre st v st' :
  v ∉ pre → labels_ok pre st →
  label_step K PIs node_cuts st v = Ok st' →
  labels_ok (pre ++ [v]) st'.
Proof.
  intros Hv Hok. destruct st as [labels cut_depth]. unfold label_step. simpl.
  assert (labels !! v = None) as Hnone.
  { destruct (Hok v) as [Hdom _]. simpl in Hdom.
    destruct (labels !! v) eqn:E; [|done]. exfalso. apply Hv, Hdom. by eauto. }
  assert (∀ x cd', (∀ w, w ≠ v → cd' !! w = cut_depth !! w) →
            ∀ w, w ≠ v →
              let st1 := (<[v := x]> labels, cd') in
              (w ∈ pre ++ [v] ↔ is_Some (st1.1 !! w))
              ∧ (w ∈ pre ++ [v] → w ∈ PIs → st1.1 !! w = Some 0)
              ∧ (w ∈ pre ++ [v] → w ∉ PIs →
                 ∃ cs lw, node_cuts !! w = Some cs ∧ st1.1 !! w = Some lw
                   ∧ (∀ C, C ∈ cs →
                        ∃ d, cd_get st1.2 w C = Some d ∧ lw ≤ d
                             ∧ depth_via st1.1 C = Ok d)
                   ∧ (∃ C, C ∈ cs ∧ cd_get st1.2 w C = Some lw))) as Hothers.
  { intros x cd' Hcd w Hw. simpl. destruct (Hok w) as (Hdom & HPI & Hgate).
    simpl in *. rewrite lookup_insert_ne by done.
    assert (w ∈ pre ++ [v] ↔ w ∈ pre) as Hin.
    { rewrite elem_of_app, list_elem_of_singleton. naive_solver. }
    rewrite Hin. split; [done|]. split; [done|].
    intros Hpre HnPI. destruct (Hgate Hpre HnPI) as (cs & lw & Hcs & Hlw & Hall & Hex).
    exists cs, lw. repeat split; try done.
    - intros C HC. destruct (Hall C HC) as (d & Hg & Hle & Hd). exists d.
      unfold cd_get in *. rewrite Hcd by done.
      repeat split; try done. by apply depth_via_insert.
    - destruct Hex as (C & HC & Hg). exists C. split; [done|].
      unfold cd_get in *. by rewrite Hcd. }
  assert (v ∈ pre ++ [v]) as Hvin by (apply elem_of_app; right; left).
  case_bool_decide as HPI.
  - intros (cdv & Hcdv & [= <-])%bind_Ok. intros w.
    destruct (decide (w = v)) as [->|Hne].
    + simpl. rewrite lookup_insert_eq. split; [by eauto|]. split; [done|].
      by intros _ ?.
    + apply Hothers; [|done]. intros w' Hw'. by rewrite lookup_insert_ne.
  - intros (cs & Hcs%get_Ok & ([cd' best] & Hloop & Hbest)%bind_Ok)%bind_Ok.
    destruct best as [b|]; [|done]. injection Hbest as <-.
    destruct (label_cut_loop _ _ _ _ _ _ Hloop) as (Hcd & Hcuts & _ & Hmin).
    intros w. destruct (decide (w = v)) as [->|Hne]; [|by apply Hothers].
    simpl. rewrite lookup_insert_eq. split; [by eauto|]. split; [done|].
    intros _ _. exists cs, b. repeat split; try done.
    + intros C HC. destruct (Hcuts C HC) as (d & b' & Hg & Hd & [= <-] & Hle).
      exists d. repeat split; try done. by apply depth_via_insert.
    + by apply Hmin.
Qed.
End Labels.

(** The tables returned by [flowmap_labels] on a given table of cuts. *)
Lemma flowmap_labels_Ok graph K node_cuts labels node_cuts' cut_depth :
  graph_wf graph →
  flowmap_labels graph K (Some node_cuts) = Ok (labels, node_cuts', cut_depth) →
  node_cuts' = node_cuts
  ∧ ∃ topo fanouts,
      topo_sort graph = Ok (topo, fanouts)
      ∧ labels_ok (primary_inputs graph) node_cuts topo (labels, cut_depth).
Proof.
  intros Hwf. unfold flowmap_labels. simpl.
  intros ([topo fanouts] & Hts & ([labels' cd'] & Hrun & [= <- <- <-])%bind_Ok)%bind_Ok.
  split; [done|]. exists topo, fanouts. split; [done|].
  destruct (topo_sort_Ok graph Hwf _ _ Hts) as (_ & Hnd & _ & _).
  revert Hrun. apply for_each_inv.
  - intros w. simpl. rewrite lookup_empty, elem_of_nil.
    split; [split; [done | by intros [? [=]]]|]. by split.
  - intros pre x post s s1 -> Hpre Hstep.
    eapply label_step_ok; try done.
    apply NoDup_app in Hnd as (_ & Hdisj & _). intros Hx.
    apply (Hdisj x Hx). left.
Qed.

(** ** The order on costs

    [cost < best_cost] compares two binary64 values.  The comparison is
    specified by [SFcompare], a lexicographic comparison of sign, exponent
    and mantissa; it is irreflexive and transitive. *)

Lemma SFltb_irrefl x : SFltb x x = false.
Proof.
  unfold SFltb, SFcompare.
  destruct x as [[]|[]| |[] m e]; try reflexivity;
    rewrite Z.compare_refl, Pos.compare_cont_refl; reflexivity.
Qed.

Lemma SFltb_trans x y z : SFltb x y = true → SFltb y z = true → SFltb x z = true.
Proof.
  unfold SFltb, SFcompare.
  destruct x as [[]|[]| |[] m1 e1], y as [[]|[]| |[] m2 e2], z as [[]|[]| |[] m3 e3];
    try reflexivity; try discriminate;
    change (PosDef.Pos.compare_cont Eq m1 m2) with (Pos.compare m1 m2);
    change (PosDef.Pos.compare_cont Eq m2 m3) with (Pos.compare m2 m3);
    change (PosDef.Pos.compare_cont Eq m1 m3) with (Pos.compare m1 m3);
    destruct (Z.compare_spec e1 e2), (Z.compare_spec e2 e3), (Z.compare_spec e1 e3);
    try reflexivity; try discriminate; try lia;
    destruct (Pos.compare_spec m1 m2), (Pos.compare_spec m2 m3),
      (Pos.compare_spec m1 m3);
    simpl; try reflexivity; try discriminate; try lia.
Qed.

Lemma float_ltb_irrefl (x : float) : (x <? x)%float = false.
Proof. rewrite FloatAxioms.ltb_spec. apply SFltb_irrefl. Qed.

Lemma float_ltb_trans (x y z : float) :
  (x <? y)%float = true → (y <? z)%float = true → (x <? z)%float = true.
Proof. rewrite !FloatAxioms.ltb_spec. apply SFltb_trans. Qed.

(** ** Area recovery *)

Section Recovery.
Variable PIs : gset node.
Variable labels : gmap node Z.
Variable node_cuts : gmap node (list cut).
Variable cut_depth : gmap node (list (cut * Z)).

(** [C] passes the depth-preserving filter at [v]. *)
Definition admissible (v : node) (C : cut) : Prop :=
  ∃ d lv, cd_get cut_depth v C = Some d ∧ labels !! v = Some lv ∧ d ≤ lv.

Variable area_flow : gmap node float.
Variable refcnt : gmap node Z.

Local Abbreviation cost_of := (cut_cost PIs area_flow refcnt).

(** The state of the admissible-cut loop after the cuts [cpre]: nothing
    admissible met so far, or the first admissible cut of least cost. *)
Definition best_so_far (v : node) (cpre : list cut) (best : option (float * cut))
  : Prop :=
  match best with
  | None => ∀ C, C ∈ cpre → ¬ admissible v C
  | Some (c, C) =>
      ∃ p q, cpre = p ++ C :: q
        ∧ admissible v C ∧ cost_of C = Ok c
        ∧ (∀ C' c', C' ∈ p → admissible v C' → cost_of C' = Ok c' →
             (c' <? c)%float = false ∧ c' ≠ c)
        ∧ (∀ C' c', C' ∈ q → admissible v C' → cost_of C' = Ok c' →
             (c' <? c)%float = false)
  end.

Lemma consider_Ok v best C best' :
  consider PIs labels cut_depth area_flow refcnt v best C = Ok best' →
  ∃ d lv, cd_get cut_depth v C = Some d ∧ labels !! v = Some lv
    ∧ ((lv < d ∧ best' = best)
       ∨ (d ≤ lv ∧ ∃ cost, cost_of C = Ok cost
            ∧ best' = match best with
                      | None => Some (cost, C)
                      | Some (best_cost, best_cut) =>
                          if (cost <? best_cost)%float then Some (cost, C)
                          else Some (best_cost, best_cut)
                      end)).
Proof.
  unfold consider.
  intros (cdv & Hcdv%get_Ok & (d & Hd & (lv & Hlv%get_Ok & Hrest)%bind_Ok)%bind_Ok)%bind_Ok.
  exists d, lv. split.
  { unfold cd_get. rewrite Hcdv. by destruct (dict_get C cdv); simplify_eq. }
  split; [done|]. destruct (Z.ltb_spec lv d) as [Hlt|Hle].
  - left. by injection Hrest as <-.
  - right. split; [done|].
    apply bind_Ok in Hrest as (cost & Hcost & Hbest). exists cost. split; [done|].
    destruct best as [[bc bC]|]; [|by injection Hbest as <-].
    destruct (cost <? bc)%float; by injection Hbest as <-.
Qed.

Lemma consider_step v cpre best C best' :
  best_so_far v cpre best →
  consider PIs labels cut_depth area_flow refcnt v best C = Ok best' →
  best_so_far v (cpre ++ [C]) best'.
Proof.
  intros Hinv (d & lv & Hd & Hlv & Hcase)%consider_Ok.
  destruct Hcase as [[Hlt ->]|(Hle & cost & Hcost & ->)].
  - (* filtered out *)
    assert (¬ admissible v C) as Hnadm.
    { intros (d' & lv' & Hd' & Hlv' & Hle). simplify_eq. lia. }
    destruct best as [[c B]|]; simpl in *.
    + destruct Hinv as (p & q & -> & Hadm & Hc & Hp & Hq).
      exists p, (q ++ [C]). rewrite <- app_assoc. split_and!; try done.
      intros C' c' [HC'|HC']%elem_of_app; [by apply Hq|].
      apply list_elem_of_singleton in HC' as ->. by intros ?.
    + intros C' [HC'|HC']%elem_of_app; [by apply Hinv|].
      by apply list_elem_of_singleton in HC' as ->.
  - assert (admissible v C) as Hadm by (by exists d, lv).
    destruct best as [[c B]|]; simpl in *.
    + destruct Hinv as (p & q & -> & HadmB & Hc & Hp & Hq).
      destruct (cost <? c)%float eqn:Hlt; simpl.
      * (* strictly cheaper: [C] becomes the best *)
        exists (p ++ B :: q), [].
        split; [done|]. split; [done|]. split; [done|]. split.
        -- intros C' c' HC' Hadm' Hcost'.
           assert ((c' <? c)%float = false) as Hc'.
           { apply elem_of_app in HC' as [Hin|[->|Hin]%elem_of_cons].
             - by apply (Hp C' c').
             - rewrite Hcost' in Hc. injection Hc as ->. apply float_ltb_irrefl.
             - by apply (Hq C' c'). }
           split.
           ++ destruct (c' <? cost)%float eqn:E; [|done].
              by rewrite (float_ltb_trans _ _ _ E Hlt) in Hc'.
           ++ intros ->. congruence.
        -- intros C' c' HC'. by apply elem_of_nil in HC'.
      * exists p, (q ++ [C]). rewrite <- app_assoc. split_and!; try done.
        intros C' c' [HC'|HC']%elem_of_app; [by apply Hq|].
        apply list_elem_of_singleton in HC' as ->. intros _ Hc'. congruence.
    + exists cpre, [].
      split; [done|]. split; [done|]. split; [done|]. split.
      * intros C' c' HC' Hadm'. exfalso. by eapply Hinv.
      * intros C' c' HC'. by apply elem_of_nil in HC'.
Qed.

(** The admissible-cut loop of one node. *)
Lemma best_admissible_Ok v best :
  best_admissible PIs labels node_cuts cut_depth area_flow refcnt v = Ok best →
  ∃ cs, node_cuts !! v = Some cs ∧ best_so_far v cs best.
Proof.
  unfold best_admissible. intros (cs & Hcs%get_Ok & Hloop)%bind_Ok.
  exists cs. split; [done|]. revert Hloop. apply for_each_inv.
  - intros C HC. by apply elem_of_nil in HC.
  - intros cpre C post s s1 _. apply consider_step.
Qed.

(** With an admissible cut in the list, the loop does not end on
    [best_cut is None]. *)
Lemma best_admissible_Some v cs C0 :
  node_cuts !! v = Some cs → C0 ∈ cs → admissible v C0 →
  best_admissible PIs labels node_cuts cut_depth area_flow refcnt v ≠ Ok None.
Proof.
  intros Hcs HC0 Hadm (cs' & Hcs' & Hnone)%best_admissible_Ok.
  simplify_eq. by apply (Hnone C0).
Qed.
End Recovery.

Section RecoveryLoop.
Variable PIs : gset node.
Variable labels : gmap node Z.
Variable node_cuts : gmap node (list cut).
Variable cut_depth : gmap node (list (cut * Z)).
Variable refcnt : gmap node Z.

(** What holds of [best_cut_area] once the nodes [pre] are done, when
    every gate has an admissible cut. *)
Definition chosen_ok (pre : list node) (st : gmap node cut * gmap node float) : Prop :=
  ∀ w, (w ∈ pre ↔ is_Some (st.1 !! w))
       ∧ (w ∉ PIs → ∀ C, st.1 !! w = Some C →
          ∃ cs, node_cuts !! w = Some cs ∧ C ∈ cs
                ∧ admissible labels cut_depth w C).

Lemma recover_step_ok pre st v st' :
  (v ∉ PIs → ∃ cs C0, node_cuts !! v = Some cs ∧ C0 ∈ cs
                      ∧ admissible labels cut_depth v C0) →
  chosen_ok pre st →
  recover_step PIs labels node_cuts cut_depth refcnt st v = Ok st' →
  chosen_ok (pre ++ [v]) st'.
Proof.
  intros Hadm Hok. unfold recover_step.
  assert (∀ C0 af,
            (v ∉ PIs → ∃ cs, node_cuts !! v = Some cs ∧ C0 ∈ cs
                             ∧ admissible labels cut_depth v C0) →
            chosen_ok (pre ++ [v]) (<[v := C0]> st.1, af)) as Hins.
  { intros C0 af HC0 w. simpl. destruct (Hok w) as [Hdom Hcut].
    destruct (decide (v = w)) as [<-|Hne].
    - rewrite lookup_insert_eq. split.
      + split; [by eauto|]. intros _. apply elem_of_app. right. left.
      + intros HnPI C [= <-]. by apply HC0.
    - rewrite lookup_insert_ne by done. split; [|done].
      rewrite elem_of_app, list_elem_of_singleton, Hdom. naive_solver. }
  case_bool_decide as HPI.
  - intros [= <-]. by apply Hins.
  - intros (best & Hbest & ([c C] & Hpick & [= <-])%bind_Ok)%bind_Ok.
    apply Hins. intros _.
    destruct (best_admissible_Ok _ _ _ _ _ _ _ _ Hbest) as (cs & Hcs & Hinv).
    destruct best as [[c' C']|]; simpl in *.
    + injection Hpick as -> ->. destruct Hinv as (p & q & -> & HadmC & _).
      exists (p ++ C :: q). split; [done|]. split; [|done].
      apply elem_of_app. right. left.
    + exfalso. destruct (Hadm HPI) as (cs' & C0 & Hcs' & HC0 & HadmC0).
      simplify_eq. by apply (Hinv C0).
Qed.
End RecoveryLoop.

(** The cuts returned by [area_recovery] when every gate has an admissible
    cut. *)
Lemma area_recovery_Ok graph K labels node_cuts cut_depth chosen area_flow :
  graph_wf graph →
  (∀ v, v ∈ keys graph → v ∉ primary_inputs graph →
        ∃ cs C0, node_cuts !! v = Some cs ∧ C0 ∈ cs
                 ∧ admissible labels cut_depth v C0) →
  area_recovery graph K labels node_cuts cut_depth = Ok (chosen, area_flow) →
  ∀ w, (w ∈ keys graph ↔ is_Some (chosen !! w))
       ∧ (w ∉ primary_inputs graph → ∀ C, chosen !! w = Some C →
          ∃ cs, node_cuts !! w = Some cs ∧ C ∈ cs
                ∧ admissible labels cut_depth w C).
Proof.
  intros Hwf Hadm. unfold area_recovery.
  intros ([topo fanouts] & Hts & (refcnt & _ & Hrun)%bind_Ok)%bind_Ok.
  destruct (topo_sort_Ok graph Hwf _ _ Hts) as (_ & _ & Hall & _).
  assert (chosen_ok (primary_inputs graph) labels node_cuts cut_depth topo
            (chosen, area_flow)) as Hok.
  { revert Hrun. apply for_each_inv.
    - intros w. simpl. rewrite lookup_empty, elem_of_nil.
      split; [split; [done | by intros [? [=]]] | done].
    - intros pre x post s s1 -> Hpre Hstep.
      eapply recover_step_ok; try done. apply Hadm, Hall.
      apply elem_of_app. right. left. }
  intros w. destruct (Hok w) as [Hdom Hcut]. by rewrite <- Hall.
Qed.

(** ** Cover construction *)

Section Cover.
Variable PIs : gset node.
Variable chosen_cut : gmap node cut.
Variable labels : gmap node Z.

(** A LUT as [place] emits it. *)
Definition lut_ok (l : LUT) : Prop :=
  (output l ∉ PIs)
  ∧ (∃ C, chosen_cut !! output l = Some C ∧ inputs l = sorted C
          ∧ labels !! output l = Some (level l)).

Lemma place_ok fuel st v st' :
  Forall lut_ok st.2 →
  place fuel PIs chosen_cut labels st v = Ok st' →
  Forall lut_ok st'.2.
Proof.
  revert st v st'. induction fuel as [|fuel IH]; intros st v st' Hst; simpl; [done|].
  case_bool_decide as Hskip; [by intros [= <-]|].
  intros (C & HC%get_Ok & (lv & Hlv%get_Ok & Hloop)%bind_Ok)%bind_Ok.
  revert Hloop. apply (for_each_inv (λ _ s, Forall lut_ok s.2)).
  - simpl. apply Forall_app. split; [done|]. apply Forall_singleton.
    split; simpl; [tauto | by exists C].
  - intros pre u post s s1 _ Hs. case_bool_decide; [by intros [= <-]|].
    by apply IH.
Qed.
End Cover.

Lemma build_cover_Ok graph chosen_cut labels outputs LUTs :
  build_cover graph chosen_cut labels outputs = Ok LUTs →
  Forall (lut_ok (primary_inputs graph) chosen_cut labels) LUTs.
Proof.
  unfold build_cover. intros (st & Hloop & [= <-])%bind_Ok.
  rewrite sort_by_perm. revert Hloop.
  apply (for_each_inv (λ _ s, Forall (lut_ok (primary_inputs graph) chosen_cut labels) s.2)).
  - constructor.
  - intros pre v post s s1 _ Hs. by apply place_ok.
Qed.

(** ** The pipeline *)

(** After labeling, every gate has an admissible cut: one of least depth. *)
Lemma labels_ok_admissible PIs node_cuts topo labels cut_depth v :
  labels_ok PIs node_cuts topo (labels, cut_depth) →
  v ∈ topo → v ∉ PIs →
  ∃ cs C0, node_cuts !! v = Some cs ∧ C0 ∈ cs ∧ admissible labels cut_depth v C0.
Proof.
  intros Hok Hv HPI. destruct (Hok v) as (_ & _ & Hgate).
  destruct (Hgate Hv HPI) as (cs & lw & Hcs & Hlw & _ & C0 & HC0 & Hd).
  exists cs, C0. split; [done|]. split; [done|]. exists lw, lw. simpl in *.
  split; [done|]. split; [done | lia].
Qed.

(** What a successful run of the pipeline went through. *)
Lemma pipeline_Ok graph K outputs cut_limit labels chosen LUTs :
  graph_wf graph →
  map_with_area_optimized_flow graph K outputs cut_limit = Ok (labels, chosen, LUTs) →
  ∃ node_cuts cut_depth topo fanouts,
    enumerate_minimal_kcuts graph K cut_limit = Ok node_cuts
    ∧ topo_sort graph = Ok (topo, fanouts)
    ∧ cuts_ok K (primary_inputs graph) topo node_cuts
    ∧ labels_ok (primary_inputs graph) node_cuts topo (labels, cut_depth)
    ∧ (∀ w, w ∉ primary_inputs graph → ∀ C, chosen !! w = Some C →
         ∃ cs, node_cuts !! w = Some cs ∧ C ∈ cs ∧ admissible labels cut_depth w C)
    ∧ Forall (lut_ok (primary_inputs graph) chosen labels) LUTs.
Proof.
  intros Hwf. unfold map_with_area_optimized_flow.
  intros (nc & Henum & ([[labels' nc'] cd] & Hlab
          & ([chosen' af] & Hrec & (LUTs' & Hcover & [= <- <- <-])%bind_Ok)%bind_Ok)%bind_Ok)%bind_Ok.
  destruct (enumerate_minimal_kcuts_Ok _ _ _ _ Hwf Henum)
    as (_ & topo & fanouts & Hts & Hcuts).
  destruct (flowmap_labels_Ok _ _ _ _ _ _ Hwf Hlab) as (-> & topo' & fanouts' & Hts' & Hlok).
  rewrite Hts in Hts'. injection Hts' as <- <-.
  destruct (topo_sort_Ok graph Hwf _ _ Hts) as (_ & _ & Hall & _).
  exists nc, cd, topo, fanouts. split_and!; try done.
  - intros w HPI C HC.
    eapply area_recovery_Ok in Hrec as [_ Hcut]; [by apply Hcut | done |].
    intros v Hv HvPI. eapply labels_ok_admissible; [done | by apply Hall | done].
  - by eapply build_cover_Ok.
Qed.

(** ** Which exceptions a stage can raise *)

Lemma for_each_Raise {S X} (body : S → X → result S) xs s e :
  for_each body xs s = Raise e → ∃ s' x, x ∈ xs ∧ body s' x = Raise e.
Proof.
  revert s. induction xs as [|x xs IH]; intros s; simpl; [done|].
  destruct (body s x) as [s1|e1] eqn:Hbody; simpl.
  - intros (s' & x' & Hx' & Hraise)%IH. exists s', x'. split; [by right | done].
  - intros [= <-]. exists s, x. split; [left | done].
Qed.

Lemma graph_get_Raise graph v e : graph_get graph v = Raise e → e = KeyError v.
Proof.
  induction graph as [|[n f] rest IH]; simpl; [by intros [= <-]|].
  by destruct (String.eqb n v).
Qed.

Lemma get_Raise {V} (d : gmap node V) k e : get d k = Raise e → e = KeyError k.
Proof. unfold get. destruct (d !! k); [done | by intros [= <-]]. Qed.

Lemma kahn_Raise fuel fanouts indeg q order e :
  kahn fuel fanouts indeg q order = Raise e → e = OutOfFuel.
Proof.
  revert indeg q order. induction fuel as [|fuel IH]; intros indeg q order; simpl.
  - by intros [= <-].
  - destruct q as [|u q]; [done | apply IH].
Qed.

Lemma topo_sort_Raise graph e :
  topo_sort graph = Raise e → e = OutOfFuel ∨ e = ValueError_not_a_DAG.
Proof.
  unfold topo_sort.
  destruct (kahn _ _ _ _ _) as [order|e'] eqn:Hk; simpl.
  - case_bool_decide; [|done]. intros [= <-]. by right.
  - intros [= <-]. left. by eapply kahn_Raise.
Qed.

(** Cut enumeration raises for a bad [K], a graph that is not a DAG, or a
    missing key; it has no "no feasible cut" failure. *)
Lemma enumerate_minimal_kcuts_Raise graph K cut_limit e :
  enumerate_minimal_kcuts graph K cut_limit = Raise e →
  e = ValueError_K ∨ e = OutOfFuel ∨ e = ValueError_not_a_DAG ∨ ∃ k, e = KeyError k.
Proof.
  unfold enumerate_minimal_kcuts. destruct (K <? 1); [intros [= <-]; by left|].
  destruct (topo_sort graph) as [[topo fanouts]|e'] eqn:Hts; simpl.
  - intros (nc & v & _ & Hstep)%for_each_Raise. right. right. right.
    unfold enumerate_step in Hstep. case_bool_decide; [done|].
    destruct (graph_get graph v) as [fins|e1] eqn:Hg; simpl in Hstep.
    + destruct (map_result (get nc) fins) as [pools|e2] eqn:Hp; simpl in Hstep; [done|].
      injection Hstep as <-. unfold map_result in Hp.
      apply for_each_Raise in Hp as (acc & fi & _ & Hfi).
      destruct (get nc fi) as [cs|e3] eqn:Hget; simpl in Hfi; [done|].
      injection Hfi as <-. exists fi. by eapply get_Raise.
    + injection Hstep as <-. exists v. by eapply graph_get_Raise.
  - intros [= <-]. destruct (topo_sort_Raise _ _ Hts) as [->| ->]; tauto.
Qed.

(** ** The fuel of [place] is enough

    [place] marks its node as covered before it recurses, so the depth of
    the recursion is bounded by the number of nodes not yet covered. *)

Lemma filter_length_le {A} (P Q : A → Prop)
    `{!∀ x, Decision (P x)} `{!∀ x, Decision (Q x)} (l : list A) :
  (∀ x, P x → Q x) → (length (filter P l) ≤ length (filter Q l))%nat.
Proof.
  intros HPQ. induction l as [|a l IH]; [done|].
  rewrite !filter_cons. destruct (decide (P a)) as [Ha|Ha].
  - rewrite decide_True by auto. simpl. lia.
  - destruct (decide (Q a)); simpl; lia.
Qed.

Lemma filter_length_lt {A} (P Q : A → Prop)
    `{!∀ x, Decision (P x)} `{!∀ x, Decision (Q x)} (l : list A) a :
  (∀ x, P x → Q x) → a ∈ l → Q a → ¬ P a →
  (length (filter P l) < length (filter Q l))%nat.
Proof.
  intros HPQ Ha HQa HPa. induction l as [|b l IH]; [by apply elem_of_nil in Ha|].
  rewrite !filter_cons. apply elem_of_cons in Ha as [<-|Ha].
  - rewrite decide_False, decide_True by done. simpl.
    pose proof (filter_length_le P Q l HPQ). lia.
  - specialize (IH Ha). destruct (decide (P b)) as [Hb|Hb].
    + rewrite decide_True by auto. simpl. lia.
    + destruct (decide (Q b)); simpl; lia.
Qed.

Lemma for_each_Raise_inv {S X} (I : S → Prop) (body : S → X → result S) xs s e :
  I s →
  (∀ s x s1, x ∈ xs → I s → body s x = Ok s1 → I s1) →
  for_each body xs s = Raise e →
  ∃ s' x, I s' ∧ x ∈ xs ∧ body s' x = Raise e.
Proof.
  revert s. induction xs as [|x xs IH]; intros s Hs Hstep; simpl; [done|].
  destruct (body s x) as [s1|e1] eqn:Hbody; simpl.
  - intros Hraise. destruct (IH s1) as (s' & x' & Hs' & Hx' & Hr); try done.
    + by apply (Hstep s x); [left|..].
    + intros s0 y s2 Hy. apply Hstep. by right.
    + exists s', x'. split; [done|]. split; [by right | done].
  - intros [= <-]. exists s, x. split; [done|]. split; [left | done].
Qed.

Lemma place_covered_mono PIs chosen_cut labels fuel st v st' :
  place fuel PIs chosen_cut labels st v = Ok st' → st.1 ⊆ st'.1.
Proof.
  revert st v st'. induction fuel as [|fuel IH]; intros st v st'; simpl; [done|].
  case_bool_decide as Hskip; [by intros [= <-]|].
  intros (C & _ & (lv & _ & Hloop)%bind_Ok)%bind_Ok.
  assert ({[v]} ∪ st.1 ⊆ st'.1) as Hsub; [|set_solver].
  revert Hloop. apply (for_each_inv (λ _ s, {[v]} ∪ st.1 ⊆ s.1)); [done|].
  intros pre u post s s1 _ Hs. case_bool_decide; [by intros [= <-]|].
  intros Hplace%IH. set_solver.
Qed.

Section PlaceFuel.
Variable graph : Graph.
Variable PIs : gset node.
Variable chosen_cut : gmap node cut.
Variable labels : gmap node Z.
Hypothesis chosen_keys : ∀ v, is_Some (chosen_cut !! v) → v ∈ keys graph.

(** Nodes of the graph that are not yet covered. *)
Definition uncovered (covered : gset node) : nat :=
  length (filter (λ w, w ∉ covered) (keys graph)).

Lemma place_fuel fuel st v :
  (uncovered st.1 < fuel)%nat →
  place fuel PIs chosen_cut labels st v ≠ Raise OutOfFuel.
Proof.
  revert st v. induction fuel as [|fuel IH]; intros st v Hfuel; simpl; [lia|].
  case_bool_decide as Hskip; [done|].
  destruct (get chosen_cut v) as [C|e] eqn:HC; simpl;
    [|intros [= ->]; by apply get_Raise in HC].
  destruct (get labels v) as [lv|e] eqn:Hlv; simpl;
    [|intros [= ->]; by apply get_Raise in Hlv].
  apply get_Ok in HC. intros Hraise.
  apply (for_each_Raise_inv (λ s, {[v]} ∪ st.1 ⊆ s.1)) in Hraise
    as (s' & u & Hs' & _ & Hbody); [|done|].
  - case_bool_decide; [done|]. revert Hbody. apply IH.
    assert (uncovered s'.1 < uncovered st.1)%nat; [|lia].
    unfold uncovered. apply filter_length_lt with (a := v).
    + set_solver.
    + apply chosen_keys. by eauto.
    + tauto.
    + set_solver.
  - intros s u s1 _ Hs. case_bool_decide; [by intros [= <-]|].
    intros Hplace%place_covered_mono. set_solver.
Qed.
End PlaceFuel.

Lemma build_cover_fuel graph chosen_cut labels outputs :
  (∀ v, is_Some (chosen_cut !! v) → v ∈ keys graph) →
  build_cover graph chosen_cut labels outputs ≠ Raise OutOfFuel.
Proof.
  intros Hkeys. unfold build_cover.
  destruct (for_each _ _ _) as [st|e] eqn:Hloop; simpl; [done|].
  intros [= ->]. apply for_each_Raise in Hloop as (s' & v & _ & Hplace).
  revert Hplace. apply (place_fuel graph); [done|].
  unfold uncovered, keys.
  pose proof (length_filter (λ w, w ∉ s'.1) graph.*1) as Hle.
  rewrite length_fmap in Hle. lia.
Qed.

(** ** The stages return

    On a well-formed acyclic graph whose fanins are keys, no stage raises
    except the labeling step at a gate without cuts. *)

(** Every fanin is a key. *)
Definition fanins_closed (graph : Graph) : Prop :=
  Forall (λ p, Forall (λ u, u ∈ keys graph) p.2) graph.

(** [rank] decreases from every node to its fanins. *)
Definition ranked (rank : node → nat) (graph : Graph) : Prop :=
  Forall (λ p, Forall (λ u, (rank u < rank p.1)%nat) p.2) graph.

Definition acyclic (graph : Graph) : Prop := ∃ rank, ranked rank graph.

(** [u] comes before [w] in [order]. *)
Definition precedes (order : list node) (u w : node) : Prop :=
  ∃ l1 l2, order = l1 ++ w :: l2 ∧ u ∈ l1.

Lemma precedes_snoc order x u w : precedes order u w → precedes (order ++ [x]) u w.
Proof.
  intros (l1 & l2 & -> & Hu). exists l1, (l2 ++ [x]).
  by rewrite <- app_assoc.
Qed.

Lemma precedes_last order u w : u ∈ order → precedes (order ++ [w]) u w.
Proof. intros Hu. by exists order, []. Qed.

Lemma precedes_elem order u w : precedes order u w → u ∈ order.
Proof. intros (l1 & l2 & -> & Hu). apply elem_of_app. by left. Qed.

(** In a list without duplicates, what comes before a node is determined. *)
Lemma NoDup_split_unique (pre post l1 l2 : list node) v :
  NoDup (pre ++ v :: post) → pre ++ v :: post = l1 ++ v :: l2 → pre = l1.
Proof.
  revert l1. induction pre as [|a pre IH]; intros l1 Hnd Heq; simpl in *.
  - destruct l1 as [|b l1]; [done|]. injection Heq as <- Heq.
    apply NoDup_cons in Hnd as [Hn _]. exfalso. apply Hn. rewrite Heq.
    apply elem_of_app. right. left.
  - apply NoDup_cons in Hnd as [Hn Hnd]. destruct l1 as [|b l1].
    + injection Heq as -> _. exfalso. apply Hn. apply elem_of_app. right. left.
    + injection Heq as <- Heq. f_equal. by apply IH.
Qed.

Lemma precedes_prefix pre v post u :
  NoDup (pre ++ v :: post) → precedes (pre ++ v :: post) u v → u ∈ pre.
Proof.
  intros Hnd (l1 & l2 & Heq & Hu). by rewrite (NoDup_split_unique _ _ _ _ _ Hnd Heq).
Qed.

Lemma fins_of_elem graph v u :
  u ∈ fins_of graph v → ∃ fins, (v, fins) ∈ graph ∧ u ∈ fins.
Proof.
  unfold fins_of. destruct (graph_get graph v) as [fins|] eqn:Hg.
  - intros Hu. exists fins. split; [by apply graph_get_Ok | done].
  - intros Hu. by apply elem_of_nil in Hu.
Qed.

Lemma fanins_closed_fins graph v u :
  fanins_closed graph → u ∈ fins_of graph v → u ∈ keys graph.
Proof.
  intros Hcl (fins & Hv & Hu)%fins_of_elem.
  unfold fanins_closed in Hcl. rewrite Forall_forall in Hcl.
  specialize (Hcl _ Hv). rewrite Forall_forall in Hcl. by apply Hcl.
Qed.

Lemma ranked_fins rank graph v u :
  ranked rank graph → u ∈ fins_of graph v → (rank u < rank v)%nat.
Proof.
  intros Hr (fins & Hv & Hu)%fins_of_elem.
  unfold ranked in Hr. rewrite Forall_forall in Hr.
  specialize (Hr _ Hv). rewrite Forall_forall in Hr. by apply Hr.
Qed.

(** Kahn's loop consumes every node of an acyclic graph. *)
Lemma kahn_final_complete graph order :
  graph_wf graph → fanins_closed graph → acyclic graph →
  kahn_final graph order → length order = length graph.
Proof.
  intros Hwf Hcl [rank Hr] (Hnd & Hkeys & Hready & _).
  assert (∀ n w, (rank w < n)%nat → w ∈ keys graph → w ∈ order) as Hall.
  { induction n as [|n IH]; intros w Hn Hw; [lia|].
    apply (Hready w Hw). intros x Hx. apply IH.
    - pose proof (ranked_fins _ _ _ _ Hr Hx). lia.
    - by eapply fanins_closed_fins. }
  assert (order ≡ₚ keys graph) as Hperm.
  { apply NoDup_Permutation; [done | done |]. intros w. split; [apply Hkeys|].
    apply (Hall (S (rank w))). lia. }
  rewrite Hperm. unfold keys. by rewrite length_fmap.
Qed.

Lemma topo_sort_acyclic graph :
  graph_wf graph → fanins_closed graph → acyclic graph →
  ∃ order, topo_sort graph = Ok (order, build_fanouts graph).
Proof.
  intros Hwf Hcl Hac. destruct (kahn_total graph Hwf) as (order & Hrun & Hfin).
  exists order. unfold topo_sort. rewrite Hrun. simpl.
  rewrite bool_decide_eq_false_2; [done|].
  intros Hne. apply Hne. by apply kahn_final_complete.
Qed.

(** A loop whose body returns, or raises an error of the kind [E]. *)
Lemma for_each_run {S X} (I : list X → S → Prop) (E : exn → Prop)
    (body : S → X → result S) xs s0 :
  I [] s0 →
  (∀ pre x post s, xs = pre ++ x :: post → I pre s →
     (∃ s1, body s x = Ok s1 ∧ I (pre ++ [x]) s1)
     ∨ (∃ e, body s x = Raise e ∧ E e)) →
  (∃ s', for_each body xs s0 = Ok s' ∧ I xs s')
  ∨ (∃ e, for_each body xs s0 = Raise e ∧ E e).
Proof.
  intros H0 Hstep.
  assert (∀ post pre s, xs = pre ++ post → I pre s →
            (∃ s', for_each body post s = Ok s' ∧ I xs s')
            ∨ (∃ e, for_each body post s = Raise e ∧ E e)) as Hgen.
  { induction post as [|x post IH]; intros pre s Hxs Hpre; simpl.
    - left. exists s. split; [done|]. by rewrite Hxs, app_nil_r.
    - destruct (Hstep pre x post s Hxs Hpre) as [(s1 & -> & Hs1)|(e & -> & He)]; simpl.
      + apply (IH (pre ++ [x])); [by rewrite <- app_assoc | done].
      + right. by exists e. }
  by apply (Hgen xs [] s0).
Qed.

(** *** Enumeration returns *)

(** The nodes of a cut come before its gate in the order of the visit. *)
Definition cuts_before (pre : list node) (node_cuts : gmap node (list cut)) : Prop :=
  ∀ w cs C u, node_cuts !! w = Some cs → C ∈ cs → u ∈ C →
    u = w ∨ precedes pre u w.

Lemma enumerate_step_other graph K cut_limit PIs (node_cuts : gmap node (list cut))
    v node_cuts' w :
  enumerate_step graph K cut_limit PIs node_cuts v = Ok node_cuts' → w ≠ v →
  node_cuts' !! w = node_cuts !! w.
Proof.
  unfold enumerate_step. intros Hstep Hne. case_bool_decide.
  - injection Hstep as <-. by rewrite lookup_insert_ne.
  - apply bind_Ok in Hstep as (fins & _ & (pools & _ & [= <-])%bind_Ok).
    by rewrite lookup_insert_ne.
Qed.

Lemma enumerate_step_before graph K cut_limit pre node_cuts v node_cuts' :
  cuts_ok K (primary_inputs graph) (pre ++ [v]) node_cuts' →
  cuts_before pre node_cuts →
  enumerate_step graph K cut_limit (primary_inputs graph) node_cuts v = Ok node_cuts' →
  cuts_before (pre ++ [v]) node_cuts'.
Proof.
  intros Hok Hbefore Hstep w cs C u Hcs HC Hu.
  destruct (decide (w = v)) as [->|Hne].
  - destruct (Hok v) as [_ Hcuts].
    destruct (Hcuts cs C Hcs HC) as (_ & Hsub & _).
    destruct (decide (u = v)) as [|Hnv]; [by left | right].
    apply precedes_last. specialize (Hsub u Hu).
    apply elem_of_app in Hsub as [|Hsub]; [done|].
    by apply list_elem_of_singleton in Hsub.
  - rewrite (enumerate_step_other _ _ _ _ _ _ _ _ Hstep Hne) in Hcs.
    destruct (Hbefore w cs C u Hcs HC Hu) as [|Hp]; [by left | right].
    by apply precedes_snoc.
Qed.

Lemma enumerate_step_total graph K cut_limit pre v node_cuts :
  graph_wf graph → v ∈ keys graph →
  (∀ x, x ∈ fins_of graph v → x ∈ pre) →
  cuts_ok K (primary_inputs graph) pre node_cuts →
  ∃ node_cuts',
    enumerate_step graph K cut_limit (primary_inputs graph) node_cuts v = Ok node_cuts'.
Proof.
  intros Hwf Hv Hfins Hok. unfold enumerate_step. case_bool_decide; [by eauto|].
  apply graph_get_key in Hv as [fins Hg]. rewrite Hg. simpl.
  destruct (map_result_total (get node_cuts) fins) as [pools ->]; [|simpl; by eauto].
  intros fi Hfi. destruct (Hok fi) as [Hdom _].
  destruct (proj1 Hdom) as [cs Hcs].
  - apply Hfins. unfold fins_of. by rewrite Hg.
  - exists cs. by apply get_Ok.
Qed.

Lemma enumerate_minimal_kcuts_total graph K cut_limit :
  graph_wf graph → fanins_closed graph → acyclic graph → 1 ≤ K →
  ∃ topo node_cuts,
    topo_sort graph = Ok (topo, build_fanouts graph)
    ∧ enumerate_minimal_kcuts graph K cut_limit = Ok node_cuts
    ∧ cuts_ok K (primary_inputs graph) topo node_cuts
    ∧ cuts_before topo node_cuts.
Proof.
  intros Hwf Hcl Hac HK.
  destruct (topo_sort_acyclic graph Hwf Hcl Hac) as [topo Hts].
  destruct (topo_sort_Ok graph Hwf _ _ Hts) as (_ & Hnd & Hall & Hfirst).
  exists topo. unfold enumerate_minimal_kcuts.
  destruct (Z.ltb_spec K 1); [lia|]. rewrite Hts. simpl.
  destruct (for_each_run
              (λ pre nc, cuts_ok K (primary_inputs graph) pre nc ∧ cuts_before pre nc)
              (λ _, False)
              (enumerate_step graph K cut_limit (primary_inputs graph)) topo ∅)
    as [(nc & Hrun & Hok & Hbefore)|(e & _ & [])].
  - split.
    + intros w. split; [|by intros cs C [=]].
      rewrite lookup_empty, elem_of_nil. split; [done | by intros [? [=]]].
    + by intros w cs C u [=].
  - intros pre x post nc Htopo [Hok Hbefore]. left.
    assert (x ∉ pre) as Hx.
    { rewrite Htopo in Hnd. apply NoDup_app in Hnd as (_ & Hdisj & _).
      intros Hin. apply (Hdisj x Hin). left. }
    destruct (enumerate_step_total graph K cut_limit pre x nc) as [nc' Hstep];
      try done.
    { apply Hall. rewrite Htopo. apply elem_of_app. right. left. }
    { by apply (Hfirst pre x post). }
    exists nc'. split; [done|].
    assert (cuts_ok K (primary_inputs graph) (pre ++ [x]) nc') as Hok'
      by by eapply enumerate_step_ok.
    split; [done | by eapply enumerate_step_before].
  - by exists nc.
Qed.

(** *** Labeling returns, or raises at a gate without cuts *)

Lemma foldl_insert_dom {V} (f : node → V) (l : list node) (m : gmap node V) w :
  w ∈ l ∨ is_Some (m !! w) →
  is_Some (foldl (λ m n, <[n := f n]> m) m l !! w).
Proof.
  revert m. induction l as [|a l IH]; intros m; simpl.
  - intros [H|H]; [by apply elem_of_nil in H | done].
  - intros [[->|H]%elem_of_cons|H]; apply IH.
    + right. rewrite lookup_insert_eq. by eauto.
    + by left.
    + right. destruct (decide (a = w)) as [->|Hne].
      * rewrite lookup_insert_eq. by eauto.
      * by rewrite lookup_insert_ne.
Qed.

Lemma init_cut_depth_dom graph w :
  w ∈ keys graph → is_Some (init_cut_depth graph !! w).
Proof. intros Hw. unfold init_cut_depth. apply foldl_insert_dom. by left. Qed.

(** In the tables of a finished labeling the nodes of the cuts of a gate
    come before the gate. *)
Definition gates_before (PIs : gset node) (node_cuts : gmap node (list cut))
    (pre : list node) : Prop :=
  ∀ w cs C u, w ∈ pre → w ∉ PIs → node_cuts !! w = Some cs → C ∈ cs → u ∈ C →
    precedes pre u w.

Lemma label_step_before K PIs node_cuts pre st v st' :
  v ∉ pre → labels_ok PIs node_cuts pre st → gates_before PIs node_cuts pre →
  label_step K PIs node_cuts st v = Ok st' →
  gates_before PIs node_cuts (pre ++ [v]).
Proof.
  intros Hv Hok Hbefore Hstep w cs C u Hw HPI Hcs HC Hu.
  destruct (decide (w = v)) as [->|Hne].
  - apply precedes_last. unfold label_step in Hstep.
    rewrite bool_decide_eq_false_2 in Hstep by done.
    apply bind_Ok in Hstep as (cs' & Hcs'%get_Ok & ([cd' best] & Hloop & _)%bind_Ok).
    simplify_eq.
    destruct (label_cut_loop _ _ _ _ _ _ Hloop) as (_ & Hcuts & _).
    destruct (Hcuts C HC) as (d & b & _ & Hd & _).
    destruct (depth_via_Ok _ _ _ Hd) as [_ Hlab]; [set_solver|].
    destruct (Hlab u Hu) as (l & Hl & _).
    destruct (Hok u) as [Hdom _]. apply Hdom. by eauto.
  - apply precedes_snoc. apply (Hbefore w cs C u); try done.
    apply elem_of_app in Hw as [|Hw]; [done|].
    by apply list_elem_of_singleton in Hw.
Qed.

Lemma flowmap_labels_before graph K node_cuts labels node_cuts' cut_depth topo fanouts :
  graph_wf graph →
  topo_sort graph = Ok (topo, fanouts) →
  flowmap_labels graph K (Some node_cuts) = Ok (labels, node_cuts', cut_depth) →
  gates_before (primary_inputs graph) node_cuts topo.
Proof.
  intros Hwf Hts. unfold flowmap_labels. simpl. rewrite Hts. simpl.
  intros ([labels' cd'] & Hrun & _)%bind_Ok.
  destruct (topo_sort_Ok graph Hwf _ _ Hts) as (_ & Hnd & _ & _).
  apply (for_each_inv
           (λ pre st, labels_ok (primary_inputs graph) node_cuts pre st
                      ∧ gates_before (primary_inputs graph) node_cuts pre))
    in Hrun; [tauto| |].
  - split.
    + intros w. simpl. rewrite lookup_empty, elem_of_nil.
      split; [split; [done | by intros [? [=]]]|]. by split.
    + intros w cs C u Hw. by apply elem_of_nil in Hw.
  - intros pre x post s s1 -> [Hok Hbefore] Hstep.
    assert (x ∉ pre) as Hx.
    { apply NoDup_app in Hnd as (_ & Hdisj & _). intros Hin.
      apply (Hdisj x Hin). left. }
    split; [by eapply label_step_ok | by eapply label_step_before].
Qed.

(** The loop over the cuts of one gate returns when every cut has a depth. *)
Lemma label_cut_loop_total labels v cs (cut_depth : gmap node (list (cut * Z))) :
  (∀ C, C ∈ cs → ∃ d, depth_via labels C = Ok d) →
  is_Some (cut_depth !! v) →
  ∃ cut_depth' best,
    for_each (label_cut labels v) cs (cut_depth, None) = Ok (cut_depth', best)
    ∧ is_Some (cut_depth' !! v).
Proof.
  intros Hdepth Hv.
  destruct (for_each_run
              (λ _ (st : gmap node (list (cut * Z)) * option Z), is_Some (st.1 !! v))
              (λ _, False) (label_cut labels v) cs (cut_depth, None))
    as [([cd' best] & Hrun & Hdom)|(e & _ & [])]; [done | | by exists cd', best].
  intros cpre C post [cd0 best0] Hcs [cdv Hcdv]. left. simpl in *.
  destruct (Hdepth C) as [d Hd]; [rewrite Hcs; apply elem_of_app; right; left|].
  unfold label_cut. rewrite Hd. simpl. unfold get. rewrite Hcdv. simpl.
  eexists. split; [done|]. simpl. rewrite lookup_insert_eq. by eauto.
Qed.

Section LabelsRun.
Variable graph : Graph.
Variable K : Z.
Variable node_cuts : gmap node (list cut).
Variable topo : list node.
Hypothesis Hwf : graph_wf graph.
Hypothesis Hnd : NoDup topo.
Hypothesis Hkeys : ∀ w, w ∈ topo → w ∈ keys graph.
Hypothesis Hcuts : cuts_ok K (primary_inputs graph) topo node_cuts.
Hypothesis Hbefore : cuts_before topo node_cuts.

(** The error of the labeling step: a gate whose list of cuts is empty. *)
Definition no_cuts_at (e : exn) : Prop :=
  ∃ v, e = RuntimeError_no_cuts v K ∧ v ∈ keys graph
       ∧ (v ∉ primary_inputs graph) ∧ node_cuts !! v = Some [].

Lemma label_step_run pre v post st :
  topo = pre ++ v :: post →
  labels_ok (primary_inputs graph) node_cuts pre st →
  (∀ w, w ∈ keys graph → is_Some (st.2 !! w)) →
  (∃ st', label_step K (primary_inputs graph) node_cuts st v = Ok st'
          ∧ ∀ w, w ∈ keys graph → is_Some (st'.2 !! w))
  ∨ (∃ e, label_step K (primary_inputs graph) node_cuts st v = Raise e ∧ no_cuts_at e).
Proof.
  intros Htopo Hok Hcd. destruct st as [labels cd]. simpl in *.
  assert (v ∈ keys graph) as Hv.
  { apply Hkeys. rewrite Htopo. apply elem_of_app. right. left. }
  unfold label_step. simpl. case_bool_decide as HPI.
  - left. destruct (Hcd v Hv) as [cdv Hcdv]. unfold get. rewrite Hcdv. simpl.
    eexists. split; [done|]. simpl. intros w Hw.
    destruct (decide (v = w)) as [->|Hne].
    + rewrite lookup_insert_eq. by eauto.
    + rewrite lookup_insert_ne by done. by apply Hcd.
  - destruct (Hcuts v) as [Hdom Hall].
    destruct (proj1 Hdom) as [cs Hcs].
    { rewrite Htopo. apply elem_of_app. right. left. }
    assert (get node_cuts v = Ok cs) as Hget by by apply get_Ok.
    rewrite Hget. simpl.
    destruct (label_cut_loop_total labels v cs cd) as (cd' & best & Hloop & Hv').
    { intros C HC. apply depth_via_total. intros u Hu.
      destruct (Hall cs C Hcs HC) as (_ & _ & Hself & _).
      destruct (Hbefore v cs C u Hcs HC Hu) as [->|Hp]; [by destruct (Hself HPI)|].
      rewrite Htopo in Hp, Hnd. apply precedes_prefix in Hp; [|done].
      by apply (Hok u). }
    { by apply Hcd. }
    rewrite Hloop. simpl.
    destruct (label_cut_loop _ _ _ _ _ _ Hloop) as (Hother & Hdepth & Hnone & _).
    destruct cs as [|C cs].
    + right. rewrite Hnone by done. eexists. split; [done|]. by exists v.
    + left. destruct (Hdepth C) as (d & b & _ & _ & -> & _); [left|].
      eexists. split; [done|]. simpl. intros w Hw.
      destruct (decide (w = v)) as [->|Hne]; [done|].
      rewrite Hother by done. by apply Hcd.
Qed.

Lemma flowmap_labels_run fanouts :
  topo_sort graph = Ok (topo, fanouts) →
  (∃ labels cut_depth,
      flowmap_labels graph K (Some node_cuts) = Ok (labels, node_cuts, cut_depth))
  ∨ (∃ e, flowmap_labels graph K (Some node_cuts) = Raise e ∧ no_cuts_at e).
Proof.
  intros Hts. unfold flowmap_labels. simpl. rewrite Hts. simpl.
  destruct (for_each_run
              (λ pre st, labels_ok (primary_inputs graph) node_cuts pre st
                         ∧ ∀ w, w ∈ keys graph → is_Some (st.2 !! w))
              no_cuts_at
              (label_step K (primary_inputs graph) node_cuts) topo
              (∅, init_cut_depth graph))
    as [([labels cd] & -> & _)|(e & -> & He)].
  - split; [|intros w Hw; by apply init_cut_depth_dom].
    intros w. simpl. rewrite lookup_empty, elem_of_nil.
    split; [split; [done | by intros [? [=]]]|]. by split.
  - intros pre x post st Htopo [Hok Hcd].
    destruct (label_step_run pre x post st Htopo Hok Hcd)
      as [(st' & Hstep & Hcd')|(e & Hstep & He)]; [left | right; by exists e].
    exists st'. split; [done|]. split; [|done].
    eapply label_step_ok; [|done..].
    rewrite Htopo in Hnd. apply NoDup_app in Hnd as (_ & Hdisj & _).
    intros Hin. apply (Hdisj x Hin). left.
  - left. by exists labels, cd.
  - right. by exists e.
Qed.
End LabelsRun.

(** *** Area recovery returns *)

Lemma compute_refcounts_Ok graph topo fanouts :
  topo_sort graph = Ok (topo, fanouts) →
  ∃ refcnt, compute_refcounts graph = Ok refcnt
            ∧ ∀ w, w ∈ keys graph → is_Some (refcnt !! w).
Proof.
  intros Hts. unfold compute_refcounts. rewrite Hts. simpl.
  eexists. split; [done|]. intros w Hw.
  apply (foldl_insert_dom
           (λ n, Z.max 1 (Z.of_nat (length (fanouts_get fanouts n))))).
  by left.
Qed.

Section RecoveryRun.
Variable graph : Graph.
Variable labels : gmap node Z.
Variable node_cuts : gmap node (list cut).
Variable cut_depth : gmap node (list (cut * Z)).
Variable refcnt : gmap node Z.
Variable topo : list node.
Hypothesis Hnd : NoDup topo.
Hypothesis Hkeys : ∀ w, w ∈ topo → w ∈ keys graph.
Hypothesis Hrefcnt : ∀ w, w ∈ keys graph → is_Some (refcnt !! w).
Hypothesis Hlabels : labels_ok (primary_inputs graph) node_cuts topo (labels, cut_depth).
Hypothesis Hbefore : gates_before (primary_inputs graph) node_cuts topo.

Lemma cut_cost_total (area_flow : gmap node float) C :
  (∀ u, u ∈ C → u ∉ primary_inputs graph →
        is_Some (area_flow !! u) ∧ u ∈ keys graph) →
  ∃ cost, cut_cost (primary_inputs graph) area_flow refcnt C = Ok cost.
Proof.
  intros Hall. unfold cut_cost.
  destruct (for_each_run (λ _ (_ : float), True) (λ _, False)
              (λ cost u,
                 if bool_decide (u ∈ primary_inputs graph) then Ok cost
                 else af ← get area_flow u; rc ← get refcnt u;
                      Ok (cost + af / to_float rc)%float)
              (elements C) 1%float)
    as [(cost & Hrun & _)|(e & _ & [])]; [done | | by exists cost].
  intros pre u post cost Hel _. left. case_bool_decide as HPI; [by eauto|].
  destruct (Hall u) as [[af Haf] Hu]; [|done|].
  { apply elem_of_elements. rewrite Hel. apply elem_of_app. right. left. }
  destruct (Hrefcnt u Hu) as [rc Hrc].
  unfold get. rewrite Haf, Hrc. simpl. by eauto.
Qed.

Lemma recover_step_total pre v post st :
  topo = pre ++ v :: post →
  (∀ w, w ∈ pre → is_Some (st.2 !! w)) →
  ∃ st', recover_step (primary_inputs graph) labels node_cuts cut_depth refcnt st v
         = Ok st'
         ∧ ∀ w, w ∈ pre ++ [v] → is_Some (st'.2 !! w).
Proof.
  intros Htopo Haf. destruct st as [chosen af]. simpl in *.
  assert (∀ c (af' := <[v := c]> af) w, w ∈ pre ++ [v] → is_Some (af' !! w)) as Hins.
  { intros c af' w [Hw|Hw]%elem_of_app; unfold af'.
    - destruct (decide (v = w)) as [->|Hne].
      + rewrite lookup_insert_eq. by eauto.
      + rewrite lookup_insert_ne by done. by apply Haf.
    - apply list_elem_of_singleton in Hw as ->. rewrite lookup_insert_eq. by eauto. }
  unfold recover_step. simpl. case_bool_decide as HPI.
  { eexists. split; [done|]. apply Hins. }
  assert (v ∈ topo) as Hv by (rewrite Htopo; apply elem_of_app; right; left).
  destruct (Hlabels v) as (_ & _ & Hgate). simpl in Hgate.
  destruct (Hgate Hv HPI) as (cs & lv & Hcs & Hlv & Hall & C0 & HC0 & Hd0).
  assert (∃ best, best_admissible (primary_inputs graph) labels node_cuts cut_depth
                    af refcnt v = Ok best) as [best Hbest].
  { unfold best_admissible.
    assert (get node_cuts v = Ok cs) as -> by by apply get_Ok. simpl.
    destruct (for_each_run (λ _ (_ : option (float * cut)), True) (λ _, False)
                (consider (primary_inputs graph) labels cut_depth af refcnt v)
                cs None)
      as [(best & Hrun & _)|(e & _ & [])]; [done | | by exists best].
    intros cpre C cpost best Hsplit _. left.
    assert (C ∈ cs) as HC by (rewrite Hsplit; apply elem_of_app; right; left).
    destruct (Hall C HC) as (d & Hd & _ & _). unfold cd_get in Hd.
    destruct (cut_depth !! v) as [cdv|] eqn:Hcdv; [|done].
    unfold consider.
    assert (get cut_depth v = Ok cdv) as -> by by apply get_Ok. simpl.
    rewrite Hd. simpl.
    assert (get labels v = Ok lv) as -> by by apply get_Ok. simpl.
    destruct (lv <? d); [by eauto|].
    destruct (cut_cost_total af C) as [cost ->].
    { intros u Hu HuPI.
      assert (u ∈ pre) as Hpre.
      { pose proof (Hbefore v cs C u Hv HPI Hcs HC Hu) as Hp.
        rewrite Htopo in Hp, Hnd. by apply precedes_prefix in Hp. }
      split; [by apply Haf|]. apply Hkeys. rewrite Htopo.
      apply elem_of_app. by left. }
    simpl. destruct best as [[bc bC]|]; [|by eauto].
    destruct (cost <? bc)%float; by eauto. }
  rewrite Hbest. simpl. destruct best as [[c C]|].
  - simpl. eexists. split; [done|]. apply Hins.
  - exfalso. eapply best_admissible_Some; [done | done | | done].
    exists lv, lv. split; [done|]. split; [done | lia].
Qed.

Lemma area_recovery_run fanouts K :
  topo_sort graph = Ok (topo, fanouts) →
  compute_refcounts graph = Ok refcnt →
  ∃ chosen area_flow,
    area_recovery graph K labels node_cuts cut_depth = Ok (chosen, area_flow).
Proof.
  intros Hts Hrc. unfold area_recovery. rewrite Hts. simpl. rewrite Hrc. simpl.
  destruct (for_each_run
              (λ pre (st : gmap node cut * gmap node float),
                 ∀ w, w ∈ pre → is_Some (st.2 !! w))
              (λ _, False)
              (recover_step (primary_inputs graph) labels node_cuts cut_depth refcnt)
              topo (∅, ∅))
    as [([chosen af] & Hrun & _)|(e & _ & [])].
  - intros w Hw. by apply elem_of_nil in Hw.
  - intros pre v post st Htopo Hst. left. by apply (recover_step_total pre v post).
  - by exists chosen, af.
Qed.
End RecoveryRun.

(** [area_recovery] returns on the tables of [flowmap_labels]. *)
Lemma area_recovery_total graph K node_cuts labels node_cuts' cut_depth :
  graph_wf graph →
  flowmap_labels graph K (Some node_cuts) = Ok (labels, node_cuts', cut_depth) →
  ∃ chosen area_flow,
    area_recovery graph K labels node_cuts cut_depth = Ok (chosen, area_flow).
Proof.
  intros Hwf Hlab.
  destruct (flowmap_labels_Ok _ _ _ _ _ _ Hwf Hlab) as (_ & topo & fanouts & Hts & Hok).
  destruct (topo_sort_Ok graph Hwf _ _ Hts) as (_ & Hnd & Hall & _).
  destruct (compute_refcounts_Ok _ _ _ Hts) as (refcnt & Hrc & Hdom).
  eapply (area_recovery_run graph labels node_cuts cut_depth refcnt topo); try done.
  - intros w. apply Hall.
  - by eapply flowmap_labels_before.
Qed.

(** *** Cover construction returns *)

Section PlaceRun.
Variable graph : Graph.
Variable PIs : gset node.
Variable chosen_cut : gmap node cut.
Variable labels : gmap node Z.
Hypothesis chosen_keys : ∀ v, is_Some (chosen_cut !! v) → v ∈ keys graph.
Hypothesis chosen_gates :
  ∀ v, v ∈ keys graph → v ∉ PIs →
       ∃ C, chosen_cut !! v = Some C ∧ ∀ u, u ∈ C → u ∈ keys graph.
Hypothesis labels_keys : ∀ v, v ∈ keys graph → is_Some (labels !! v).

Lemma place_total fuel st v :
  (uncovered graph st.1 < fuel)%nat → v ∈ keys graph →
  ∃ st', place fuel PIs chosen_cut labels st v = Ok st'.
Proof.
  revert st v. induction fuel as [|fuel IH]; intros st v Hfuel Hv; simpl; [lia|].
  case_bool_decide as Hskip; [by eauto|].
  destruct (chosen_gates v Hv) as (C & HC & Hsub); [tauto|].
  destruct (labels_keys v Hv) as [lv Hlv].
  assert (get chosen_cut v = Ok C) as -> by by apply get_Ok.
  assert (get labels v = Ok lv) as -> by by apply get_Ok. simpl.
  destruct (for_each_run
              (λ _ (s : gset node * list LUT), {[v]} ∪ st.1 ⊆ s.1) (λ _, False)
              (λ st' u,
                 if bool_decide (u ∈ PIs) then Ok st'
                 else place fuel PIs chosen_cut labels st' u)
              (elements C)
              ({[v]} ∪ st.1,
               st.2 ++ [{| output := v; inputs := sorted C; level := lv |}]))
    as [(st' & Hrun & _)|(e & _ & [])]; [done | | by exists st'].
  intros pre u post s Hel Hs. left. case_bool_decide as HPI; [by eauto|].
  destruct (IH s u) as [s1 Hs1].
  - assert (uncovered graph s.1 < uncovered graph st.1)%nat; [|lia].
    unfold uncovered. apply filter_length_lt with (a := v);
      [set_solver | done | tauto | set_solver].
  - apply Hsub, elem_of_elements. rewrite Hel. apply elem_of_app. right. left.
  - exists s1. split; [done|]. apply place_covered_mono in Hs1. set_solver.
Qed.

End PlaceRun.

Lemma build_cover_run graph chosen_cut labels outputs :
  (∀ v, is_Some (chosen_cut !! v) → v ∈ keys graph) →
  (∀ v, v ∈ keys graph → v ∉ primary_inputs graph →
        ∃ C, chosen_cut !! v = Some C ∧ ∀ u, u ∈ C → u ∈ keys graph) →
  (∀ v, v ∈ keys graph → is_Some (labels !! v)) →
  (∀ os o, outputs = Some os → o ∈ os → o ∈ keys graph) →
  ∃ LUTs, build_cover graph chosen_cut labels outputs = Ok LUTs.
Proof.
  intros Hck Hcg Hlk Houts. unfold build_cover.
  set (outs := match outputs with None => detect_outputs graph | Some os => os end).
  assert (∀ o, o ∈ outs → o ∈ keys graph) as Hkeys.
  { unfold outs. destruct outputs as [os|]; [by eauto|].
    intros o Ho. unfold detect_outputs in Ho. by apply list_elem_of_filter in Ho as [_ ?]. }
  destruct (for_each_run (λ _ (_ : gset node * list LUT), True) (λ _, False)
              (place (S (length graph)) (primary_inputs graph) chosen_cut labels)
              outs (∅, []))
    as [(st & -> & _)|(e & _ & [])]; [done | | simpl; by eauto].
  intros pre o post s Hsplit _. left.
  destruct (place_total graph (primary_inputs graph) chosen_cut labels Hck Hcg Hlk
              (S (length graph)) s o) as [s1 ->]; [| |by eauto].
  - unfold uncovered, keys.
    pose proof (length_filter (λ w, w ∉ s.1) graph.*1) as Hle.
    rewrite length_fmap in Hle. lia.
  - apply Hkeys. rewrite Hsplit. apply elem_of_app. right. left.
Qed.

(** *** The pipeline returns, or raises at a gate without cuts *)

Lemma pipeline_run graph K outputs cut_limit :
  graph_wf graph → fanins_closed graph → acyclic graph → 1 ≤ K →
  (∀ os o, outputs = Some os → o ∈ os → o ∈ keys graph) →
  ∃ node_cuts,
    enumerate_minimal_kcuts graph K cut_limit = Ok node_cuts
    ∧ ((∃ labels chosen LUTs,
          map_with_area_optimized_flow graph K outputs cut_limit
          = Ok (labels, chosen, LUTs))
       ∨ (∃ v, v ∈ keys graph ∧ (v ∉ primary_inputs graph)
               ∧ node_cuts !! v = Some []
               ∧ flowmap_labels graph K (Some node_cuts)
                 = Raise (RuntimeError_no_cuts v K)
               ∧ map_with_area_optimized_flow graph K outputs cut_limit
                 = Raise (RuntimeError_no_cuts v K))).
Proof.
  intros Hwf Hcl Hac HK Houts.
  destruct (enumerate_minimal_kcuts_total graph K cut_limit Hwf Hcl Hac HK)
    as (topo & nc & Hts & Henum & Hcuts & Hbefore).
  destruct (topo_sort_Ok graph Hwf _ _ Hts) as (_ & Hnd & Hall & _).
  exists nc. split; [done|].
  unfold map_with_area_optimized_flow. rewrite Henum. simpl.
  destruct (flowmap_labels_run graph K nc topo Hnd (λ w, proj1 (Hall w)) Hcuts Hbefore
              _ Hts)
    as [(labels & cd & Hlab)|(e & Hlab & v & -> & Hv & HPI & Hcs)].
  - left. rewrite Hlab. simpl.
    destruct (area_recovery_total _ _ _ _ _ _ Hwf Hlab) as (chosen & af & Hrec).
    rewrite Hrec. simpl.
    destruct (flowmap_labels_Ok _ _ _ _ _ _ Hwf Hlab)
      as (_ & topo' & fanouts' & Hts' & Hlok).
    rewrite Hts in Hts'. injection Hts' as <- <-.
    assert (∀ v, v ∈ keys graph → v ∉ primary_inputs graph →
              ∃ cs C0, nc !! v = Some cs ∧ C0 ∈ cs ∧ admissible labels cd v C0)
      as Hadm.
    { intros v Hv HPI. eapply labels_ok_admissible; [done | by apply Hall | done]. }
    pose proof (area_recovery_Ok _ _ _ _ _ _ _ Hwf Hadm Hrec) as Hchosen.
    destruct (build_cover_run graph chosen labels outputs) as [LUTs ->]; try done.
    + intros v Hv. by apply (Hchosen v).
    + intros v Hv HPI. destruct (Hchosen v) as [Hdom Hcut].
      destruct (proj1 Hdom Hv) as [C HC]. exists C. split; [done|].
      destruct (Hcut HPI C HC) as (cs & Hcs & Hin & _).
      destruct (Hcuts v) as [_ Hcs'].
      destruct (Hcs' cs C Hcs Hin) as (_ & Hsub & _).
      intros u Hu. by apply Hall, Hsub.
    + intros v Hv. apply (Hlok v). by apply Hall.
    + simpl. by eauto.
  - right. exists v. rewrite Hlab. by simpl.
Qed.

(** ** Properties of the specification *)

(** Closes a decidable goal over concrete data by evaluation. *)
Ltac by_compute :=
  lazymatch goal with
  | |- ?P => refine (@bool_decide_unpack P _ _); vm_compute; exact I
  end.

(** C10.  Every cut that [enumerate_minimal_kcuts] returns for a gate
    (a node that is not a primary input) is a non-empty set of nodes that
    does not contain the gate; hence the depth through it is defined by
    any labeling of its nodes and is one more than the largest label in
    the cut.  A returned table implies an acyclic graph, so the statement
    covers every acyclic input; it holds for any cut limit. *)
Theorem enumerated_cuts_nonempty_proper
    graph K cut_limit node_cuts v cs C :
  graph_wf graph →
  enumerate_minimal_kcuts graph K cut_limit = Ok node_cuts →
  v ∉ primary_inputs graph →
  node_cuts !! v = Some cs → C ∈ cs →
  C ≠ ∅ ∧ (v ∉ C)
  ∧ ∀ labels : gmap node Z, (∀ u, u ∈ C → is_Some (labels !! u)) →
      ∃ m, depth_via labels C = Ok (1 + m)
           ∧ (∃ u, u ∈ C ∧ labels !! u = Some m)
           ∧ ∀ u l, u ∈ C → labels !! u = Some l → l ≤ m.
Proof.
  intros Hwf Henum HPI Hcs HC.
  destruct (enumerate_minimal_kcuts_Ok _ _ _ _ Hwf Henum)
    as (_ & topo & fanouts & _ & Hok).
  destruct (Hok v) as [_ Hcuts].
  destruct (Hcuts cs C Hcs HC) as (Hne & _ & Hself & _).
  split; [done|]. split; [by apply Hself|].
  intros labels Hdef.
  destruct (depth_via_total labels C Hdef) as [d Hd].
  destruct (depth_via_Ok _ _ _ Hd Hne) as [(u & Hu & Hlu) Hall].
  exists (d - 1). replace (1 + (d - 1)) with d by lia.
  split; [done|]. split; [by exists u|].
  intros u' l Hu' Hl. destruct (Hall u' Hu') as (l' & Hl' & Hlt).
  simplify_eq. lia.
Qed.

Lemma enumerated_cuts_nonempty_proper_witness :
  let C : cut := {["a"; "b"; "c"]} in
  C ≠ ∅ ∧ ("or1" ∉ C)
  ∧ ∀ labels : gmap node Z, (∀ u, u ∈ C → is_Some (labels !! u)) →
      ∃ m, depth_via labels C = Ok (1 + m)
           ∧ (∃ u, u ∈ C ∧ labels !! u = Some m)
           ∧ ∀ u l, u ∈ C → labels !! u = Some l → l ≤ m.
Proof.
  apply (enumerated_cuts_nonempty_proper Scenario.and_or 3 None Scenario.and_or_cuts
           "or1" [{["a"; "b"; "c"]}; {["and1"; "c"]}]).
  - by_compute.
  - vm_compute. reflexivity.
  - by_compute.
  - vm_compute. reflexivity.
  - by_compute.
Defined.

(** C4.  Whenever the pipeline succeeds, whatever the cut limit, every LUT
    of the cover has at most [K] inputs. *)
Theorem lut_inputs_at_most_K graph K outputs cut_limit labels chosen LUTs l :
  graph_wf graph →
  map_with_area_optimized_flow graph K outputs cut_limit = Ok (labels, chosen, LUTs) →
  l ∈ LUTs →
  Z.of_nat (length (inputs l)) ≤ K.
Proof.
  intros Hwf Hrun Hl.
  destruct (pipeline_Ok _ _ _ _ _ _ _ Hwf Hrun)
    as (nc & cd & topo & fanouts & _ & _ & Hcuts & _ & Hchosen & Hluts).
  rewrite Forall_forall in Hluts.
  destruct (Hluts l Hl) as (HPI & C & HC & -> & _).
  destruct (Hchosen _ HPI C HC) as (cs & Hcs & Hin & _).
  destruct (Hcuts (output l)) as [_ Hall].
  destruct (Hall cs C Hcs Hin) as (_ & _ & _ & Hsize).
  by rewrite sorted_length.
Qed.

Lemma lut_inputs_at_most_K_witness :
  Z.of_nat (length (inputs {| output := "or1"; inputs := ["and1"; "c"]; level := 2 |})) ≤ 2.
Proof.
  apply (lut_inputs_at_most_K Scenario.and_or 2 None None
           Scenario.and_or_labels Scenario.and_or_chosen Scenario.and_or_LUTs).
  - by_compute.
  - vm_compute. reflexivity.
  - by_compute.
Defined.

(** C3.  In the cover the pipeline returns, every input [u] of a LUT with
    output [v] is a primary input or has a label strictly below that of
    [v]. *)
Theorem lut_input_label_below_output
    graph K outputs cut_limit labels chosen LUTs l u :
  graph_wf graph →
  map_with_area_optimized_flow graph K outputs cut_limit = Ok (labels, chosen, LUTs) →
  l ∈ LUTs → u ∈ inputs l →
  u ∈ primary_inputs graph
  ∨ ∃ lu lv, labels !! u = Some lu ∧ labels !! output l = Some lv ∧ lu < lv.
Proof.
  intros Hwf Hrun Hl Hu. right.
  destruct (pipeline_Ok _ _ _ _ _ _ _ Hwf Hrun)
    as (nc & cd & topo & fanouts & _ & _ & Hcuts & Hlabels & Hchosen & Hluts).
  rewrite Forall_forall in Hluts.
  destruct (Hluts l Hl) as (HPI & C & HC & Hinputs & _).
  rewrite Hinputs, sorted_elem in Hu.
  destruct (Hchosen _ HPI C HC) as (cs & Hcs & Hin & d & lv & Hd & Hlv & Hle).
  destruct (Hcuts (output l)) as [Hdom _].
  destruct (Hlabels (output l)) as (_ & _ & Hgate). simpl in Hgate.
  destruct Hgate as (cs' & lw & Hcs' & Hlw & Hall & _); [apply Hdom; by eauto | done |].
  simplify_eq. destruct (Hall C Hin) as (d' & Hd' & _ & Hdepth). simplify_eq.
  destruct (depth_via_Ok _ _ _ Hdepth) as [_ Hbelow]; [set_solver|].
  destruct (Hbelow u Hu) as (lu & Hlu & Hlt).
  exists lu, lv. split; [done|]. split; [done | lia].
Qed.

Lemma lut_input_label_below_output_witness :
  "and1" ∈ primary_inputs Scenario.and_or
  ∨ ∃ lu lv, Scenario.and_or_labels !! "and1" = Some lu
             ∧ Scenario.and_or_labels !! "or1" = Some lv ∧ lu < lv.
Proof.
  apply (lut_input_label_below_output Scenario.and_or 2 None None
           Scenario.and_or_labels Scenario.and_or_chosen Scenario.and_or_LUTs
           {| output := "or1"; inputs := ["and1"; "c"]; level := 2 |} "and1").
  - by_compute.
  - vm_compute. reflexivity.
  - by_compute.
  - by_compute.
Defined.

(** C2.  With [labels] and [cut_depth] as [flowmap_labels] computed them
    from the same [node_cuts], the admissible-cut loop of [area_recovery]
    never ends on [best_cut is None] at a gate, so the fallback branch is
    not entered, and the cut chosen for a gate [v] has
    [cut_depth[v][chosen_cut[v]] <= labels[v]]. *)
Theorem recovery_keeps_depth graph K node_cuts labels node_cuts' cut_depth :
  graph_wf graph →
  flowmap_labels graph K (Some node_cuts) = Ok (labels, node_cuts', cut_depth) →
  (∀ v area_flow refcnt,
      v ∈ keys graph → v ∉ primary_inputs graph →
      best_admissible (primary_inputs graph) labels node_cuts cut_depth
        area_flow refcnt v ≠ Ok None)
  ∧ ∀ chosen area_flow,
      area_recovery graph K labels node_cuts cut_depth = Ok (chosen, area_flow) →
      ∀ v, v ∈ keys graph → v ∉ primary_inputs graph →
        ∃ C d lv, chosen !! v = Some C ∧ cd_get cut_depth v C = Some d
                  ∧ labels !! v = Some lv ∧ d ≤ lv.
Proof.
  intros Hwf Hlab.
  destruct (flowmap_labels_Ok _ _ _ _ _ _ Hwf Hlab) as (_ & topo & fanouts & Hts & Hok).
  destruct (topo_sort_Ok graph Hwf _ _ Hts) as (_ & _ & Hall & _).
  assert (∀ v, v ∈ keys graph → v ∉ primary_inputs graph →
            ∃ cs C0, node_cuts !! v = Some cs ∧ C0 ∈ cs
                     ∧ admissible labels cut_depth v C0) as Hadm.
  { intros v Hv HPI. eapply labels_ok_admissible; [done | by apply Hall | done]. }
  split.
  - intros v area_flow refcnt Hv HPI.
    destruct (Hadm v Hv HPI) as (cs & C0 & Hcs & HC0 & HadmC0).
    by eapply best_admissible_Some.
  - intros chosen area_flow Hrec v Hv HPI.
    destruct (area_recovery_Ok _ _ _ _ _ _ _ Hwf Hadm Hrec v) as [Hdom Hcut].
    destruct Hdom as [[C HC] _]; [done|].
    destruct (Hcut HPI C HC) as (cs & _ & _ & d & lv & Hd & Hlv & Hle).
    by exists C, d, lv.
Qed.

Lemma recovery_keeps_depth_witness :
  (∀ v area_flow refcnt,
      v ∈ keys Scenario.and_or → v ∉ primary_inputs Scenario.and_or →
      best_admissible (primary_inputs Scenario.and_or) Scenario.and_or_labels3
        Scenario.and_or_cuts Scenario.and_or_cut_depth3 area_flow refcnt v ≠ Ok None)
  ∧ ∀ chosen area_flow,
      area_recovery Scenario.and_or 3 Scenario.and_or_labels3 Scenario.and_or_cuts
        Scenario.and_or_cut_depth3 = Ok (chosen, area_flow) →
      ∀ v, v ∈ keys Scenario.and_or → v ∉ primary_inputs Scenario.and_or →
        ∃ C d lv, chosen !! v = Some C
                  ∧ cd_get Scenario.and_or_cut_depth3 v C = Some d
                  ∧ Scenario.and_or_labels3 !! v = Some lv ∧ d ≤ lv.
Proof.
  apply (recovery_keeps_depth Scenario.and_or 3 Scenario.and_or_cuts
           Scenario.and_or_labels3 Scenario.and_or_cuts Scenario.and_or_cut_depth3).
  - by_compute.
  - vm_compute. reflexivity.
Defined.

(** C5, as the code has it.  The admissible-cut loop keeps the first cut
    of least cost in the order of [node_cuts[v]]: the cut [C] it ends on
    is admissible, no admissible cut of the list costs strictly less, and
    no admissible cut before [C] in the list costs the same; [C] is what
    [area_recovery] stores as the chosen cut of a gate [v].  Neither the
    size of a cut nor the order of its sorted elements plays a part. *)
Theorem first_cheapest_admissible_cut
    PIs labels node_cuts cut_depth area_flow refcnt v c C :
  best_admissible PIs labels node_cuts cut_depth area_flow refcnt v = Ok (Some (c, C)) →
  (∃ p q, node_cuts !! v = Some (p ++ C :: q)
     ∧ admissible labels cut_depth v C
     ∧ cut_cost PIs area_flow refcnt C = Ok c
     ∧ (∀ C' c', C' ∈ p ++ C :: q → admissible labels cut_depth v C' →
          cut_cost PIs area_flow refcnt C' = Ok c' → (c' <? c)%float = false)
     ∧ (∀ C' c', C' ∈ p → admissible labels cut_depth v C' →
          cut_cost PIs area_flow refcnt C' = Ok c' → c' ≠ c))
  ∧ (v ∉ PIs → ∀ chosen,
       recover_step PIs labels node_cuts cut_depth refcnt (chosen, area_flow) v
       = Ok (<[v := C]> chosen, <[v := c]> area_flow)).
Proof.
  intros Hbest. split.
  - destruct (best_admissible_Ok _ _ _ _ _ _ _ _ Hbest)
      as (cs & Hcs & p & q & -> & Hadm & Hcost & Hp & Hq).
    exists p, q. split_and!; try done.
    + intros C' c' [Hin|[->|Hin]%elem_of_cons]%elem_of_app Hadm' Hcost'.
      * by apply (Hp C' c').
      * rewrite Hcost in Hcost'. injection Hcost' as <-. apply float_ltb_irrefl.
      * by apply (Hq C' c').
    + intros C' c' Hin Hadm' Hcost'. by apply (Hp C' c').
  - intros HPI chosen. unfold recover_step. simpl.
    rewrite bool_decide_eq_false_2 by done. by rewrite Hbest.
Qed.

Lemma first_cheapest_admissible_cut_witness :
  let PIs := primary_inputs Scenario.tie in
  let C : cut := {["a"; "d"; "e"; "p"]} in
  (∃ p q, Scenario.tie_cuts !! "v" = Some (p ++ C :: q)
     ∧ admissible Scenario.tie_labels Scenario.tie_cut_depth "v" C
     ∧ cut_cost PIs Scenario.tie_area_flow Scenario.tie_refcnt C = Ok 2%float
     ∧ (∀ C' c', C' ∈ p ++ C :: q →
          admissible Scenario.tie_labels Scenario.tie_cut_depth "v" C' →
          cut_cost PIs Scenario.tie_area_flow Scenario.tie_refcnt C' = Ok c' →
          (c' <? 2)%float = false)
     ∧ (∀ C' c', C' ∈ p →
          admissible Scenario.tie_labels Scenario.tie_cut_depth "v" C' →
          cut_cost PIs Scenario.tie_area_flow Scenario.tie_refcnt C' = Ok c' →
          c' ≠ 2%float))
  ∧ ("v" ∉ PIs → ∀ chosen,
       recover_step PIs Scenario.tie_labels Scenario.tie_cuts Scenario.tie_cut_depth
         Scenario.tie_refcnt (chosen, Scenario.tie_area_flow) "v"
       = Ok (<["v" := C]> chosen, <["v" := 2%float]> Scenario.tie_area_flow)).
Proof.
  apply (first_cheapest_admissible_cut (primary_inputs Scenario.tie)
           Scenario.tie_labels Scenario.tie_cuts Scenario.tie_cut_depth
           Scenario.tie_area_flow Scenario.tie_refcnt "v" 2%float
           {["a"; "d"; "e"; "p"]}).
  vm_compute. reflexivity.
Defined.

(** C6, as the code has it.  Cut enumeration never fails with a
    "no feasible cut" error: a gate whose pruned cut set is empty gets the
    empty list.  The error is raised by the labeling step: at a gate [v]
    whose cut list is empty, [flowmap_labels] raises
    "No K-feasible cuts for v".  So on {a, b, c, g:[a,b,c]} with K = 2
    enumeration returns a table in which g has no cut, and the pipeline
    fails with that error for g and returns nothing. *)
Theorem no_feasible_cut_raised_by_labeling :
  (∀ graph K cut_limit v K',
      enumerate_minimal_kcuts graph K cut_limit ≠ Raise (RuntimeError_no_cuts v K'))
  ∧ (∀ K PIs (node_cuts : gmap node (list cut)) st v,
       v ∉ PIs → node_cuts !! v = Some [] →
       label_step K PIs node_cuts st v = Raise (RuntimeError_no_cuts v K))
  ∧ (∃ node_cuts, enumerate_minimal_kcuts Scenario.wide 2 None = Ok node_cuts
                  ∧ node_cuts !! "g" = Some [])
  ∧ map_with_area_optimized_flow Scenario.wide 2 None None
    = Raise (RuntimeError_no_cuts "g" 2).
Proof.
  split_and!.
  - intros graph K cut_limit v K' Hraise.
    apply enumerate_minimal_kcuts_Raise in Hraise as [?|[?|[?|[k ?]]]]; discriminate.
  - intros K PIs node_cuts st v HPI Hcs. unfold label_step.
    rewrite bool_decide_eq_false_2 by done. unfold get. by rewrite Hcs.
  - exists Scenario.wide_cuts. split; vm_compute; reflexivity.
  - vm_compute. reflexivity.
Qed.

Lemma no_feasible_cut_raised_by_labeling_witness :
  label_step 2 (primary_inputs Scenario.wide) Scenario.wide_cuts
    (∅, init_cut_depth Scenario.wide) "g"
  = Raise (RuntimeError_no_cuts "g" 2).
Proof.
  apply (proj1 (proj2 no_feasible_cut_raised_by_labeling)).
  - by_compute.
  - vm_compute. reflexivity.
Defined.

(** C7, as the code has it.  A fanin that is not a key of the graph is
    reported by the topological sort, as "Graph is not a DAG": the error a
    cycle gets.  No error names the node or the fanin. *)
Theorem dangling_fanin_reported_as_not_a_DAG
    graph K outputs cut_limit v fins u :
  graph_wf graph →
  (v, fins) ∈ graph → u ∈ fins → u ∉ keys graph →
  topo_sort graph = Raise ValueError_not_a_DAG
  ∧ (1 ≤ K →
     map_with_area_optimized_flow graph K outputs cut_limit
     = Raise ValueError_not_a_DAG).
Proof.
  intros Hwf Hv Hu Hnk.
  assert (topo_sort graph = Raise ValueError_not_a_DAG) as Hts.
  { apply (topo_sort_dangling graph Hwf v u); [| |done].
    - apply list_elem_of_fmap. by exists (v, fins).
    - unfold fins_of. by rewrite (graph_get_elem _ _ _ Hwf Hv). }
  split; [done|]. intros HK.
  unfold map_with_area_optimized_flow, enumerate_minimal_kcuts.
  destruct (Z.ltb_spec K 1); [lia|]. by rewrite Hts.
Qed.

Lemma dangling_fanin_reported_as_not_a_DAG_witness :
  topo_sort Scenario.dangling = Raise ValueError_not_a_DAG
  ∧ (1 ≤ 2 →
     map_with_area_optimized_flow Scenario.dangling 2 None None
     = Raise ValueError_not_a_DAG).
Proof.
  apply (dangling_fanin_reported_as_not_a_DAG Scenario.dangling 2 None None
           "v" ["u"] "u").
  - by_compute.
  - by_compute.
  - by_compute.
  - by_compute.
Defined.


(** ** Scenarios, run on the embedding *)

(** C9.  On the AND/OR graph with K = 3 and no cut limit the pipeline
    returns labels a = b = c = 0, and1 = 1, or1 = 1 and a cover of exactly
    one LUT, or1 <= [a, b, c] at level 1; and1 is the output of no LUT. *)
Theorem and_or_K3_single_lut :
  ∃ labels chosen LUTs,
    map_with_area_optimized_flow Scenario.and_or 3 None None = Ok (labels, chosen, LUTs)
    ∧ labels = list_to_map [("a", 0); ("b", 0); ("c", 0); ("and1", 1); ("or1", 1)]
    ∧ LUTs = [{| output := "or1"; inputs := ["a"; "b"; "c"]; level := 1 |}]
    ∧ ∀ l, l ∈ LUTs → output l ≠ "and1".
Proof.
  eexists _, _, _. split; [vm_compute; reflexivity|].
  split; [vm_compute; reflexivity|].
  split; [reflexivity|].
  intros l Hl. apply list_elem_of_singleton in Hl. subst l. discriminate.
Qed.

(** C5 fails as stated.  On the graph [Scenario.tie] with K = 4 the gate
    [v] has the two cuts {a, d, e, p} and {m, n}, in this order; both are
    admissible (depth 2 = label of v) and both cost 2.0.  The cut chosen
    is the first, of four nodes, not the smaller one. *)
Lemma cost_tie_keeps_first_cut_not_smallest :
  let PIs := primary_inputs Scenario.tie in
  let big : cut := {["a"; "d"; "e"; "p"]} in
  let small : cut := {["m"; "n"]} in
  enumerate_minimal_kcuts Scenario.tie 4 None = Ok Scenario.tie_cuts
  ∧ flowmap_labels Scenario.tie 4 (Some Scenario.tie_cuts)
    = Ok (Scenario.tie_labels, Scenario.tie_cuts, Scenario.tie_cut_depth)
  ∧ area_recovery Scenario.tie 4 Scenario.tie_labels Scenario.tie_cuts
      Scenario.tie_cut_depth
    = Ok (Scenario.tie_chosen, Scenario.tie_area_flow)
  ∧ Scenario.tie_cuts !! "v" = Some [big; small]
  ∧ Scenario.tie_labels !! "v" = Some 2
  ∧ cd_get Scenario.tie_cut_depth "v" big = Some 2
  ∧ cd_get Scenario.tie_cut_depth "v" small = Some 2
  ∧ cut_cost PIs Scenario.tie_area_flow Scenario.tie_refcnt big = Ok 2%float
  ∧ cut_cost PIs Scenario.tie_area_flow Scenario.tie_refcnt small = Ok 2%float
  ∧ (size small < size big)%nat
  ∧ Scenario.tie_chosen !! "v" = Some big
  ∧ Scenario.tie_chosen !! "v" ≠ Some small.
Proof.
  split_and!; try (vm_compute; reflexivity).
  - vm_compute. lia.
  - by_compute.
Qed.

(** C6 fails as stated.  On the infeasible graph with K = 2 the cut
    enumeration itself does not fail: it returns a table, in which g has
    the empty list of cuts. *)
Lemma enumeration_returns_on_infeasible_gate :
  enumerate_minimal_kcuts Scenario.wide 2 None = Ok Scenario.wide_cuts
  ∧ Scenario.wide_cuts !! "g" = Some []
  ∧ enumerate_minimal_kcuts Scenario.wide 2 None ≠ Raise (RuntimeError_no_cuts "g" 2).
Proof.
  split_and!; [vm_compute; reflexivity | vm_compute; reflexivity |].
  intros H. vm_compute in H. discriminate H.
Qed.

(** C7 fails as stated.  A graph with a dangling fanin and a cyclic graph
    make the pipeline fail with one and the same error. *)
Lemma dangling_fanin_same_error_as_cycle :
  map_with_area_optimized_flow Scenario.dangling 2 None None
  = Raise ValueError_not_a_DAG
  ∧ map_with_area_optimized_flow Scenario.cyclic 2 None None
    = Raise ValueError_not_a_DAG
  ∧ map_with_area_optimized_flow Scenario.dangling 2 None None
    = map_with_area_optimized_flow Scenario.cyclic 2 None None.
Proof. split_and!; vm_compute; reflexivity. Qed.

(** Refutes a path that avoids a cut, on a concrete graph, by walking the
    fanins. *)
Ltac no_path :=
  repeat match goal with
  | H : _ ∈ _ :: _ |- _ => apply elem_of_cons in H as [->|H]
  | H : _ ∈ [] |- _ => by apply elem_of_nil in H
  | H : _ ∉ _ |- _ => by (exfalso; apply H; by_compute)
  | H : graph_get _ _ = Ok _ |- _ => vm_compute in H; simplify_eq
  | H : pi_path_avoiding _ _ _ |- _ => inversion H; clear H; subst
  end.

(** C1 at a failing input.  On the graph [Scenario.mixed] with K = 3 the
    gate v gets label 3, although {f1, x, e} is a 3-feasible cut of v whose
    nodes have labels 1, 1 and 0: the least depth over the K-feasible cuts
    of v is at most 2.  The enumeration combines cuts of the fanins, which
    never contain the fanin itself, and so misses the cuts that keep one
    fanin and expand another. *)
Theorem label_above_depth_of_feasible_cut :
  ∃ labels node_cuts cut_depth,
    flowmap_labels Scenario.mixed 3 None = Ok (labels, node_cuts, cut_depth)
    ∧ labels !! "v" = Some 3
    ∧ node_cuts !! "v" = Some [{["f1"; "f2"]}]
    ∧ spec_K_feasible_cut Scenario.mixed 3 "v" {["f1"; "x"; "e"]}
    ∧ depth_via labels {["f1"; "x"; "e"]} = Ok 2.
Proof.
  eexists _, _, _. split; [vm_compute; reflexivity|].
  split; [vm_compute; reflexivity|].
  split; [vm_compute; reflexivity|].
  split; [|vm_compute; reflexivity].
  split; [|by_compute].
  split; [by_compute|]. split.
  - intros u Hu. assert (u ∈ ["f1"; "x"; "e"]) as Hin by set_solver.
    apply elem_of_cons in Hin as [->|Hin]; [by_compute|].
    apply elem_of_cons in Hin as [->|Hin]; [by_compute|].
    apply list_elem_of_singleton in Hin as ->. by_compute.
  - intros Hpath. no_path.
Qed.

(** * Further properties of the code *)

(** * Further properties of the code *)

(** ** [minimalize_cuts] *)

Lemma enumerate_lookup {A} (l : list A) i x : (i, x) ∈ enumerate l ↔ l !! i = Some x.
Proof.
  unfold enumerate. rewrite list_elem_of_lookup. split.
  - intros [j Hj]. rewrite list_lookup_imap in Hj.
    destruct (l !! j) as [y|] eqn:Hy; simpl in Hj; [|done]. by simplify_eq.
  - intros Hi. exists i. rewrite list_lookup_imap, Hi. done.
Qed.

Lemma dominated_true fs i c :
  dominated fs i c = true ↔
  ∃ j d, fs !! j = Some d ∧ j ≠ i ∧ d ⊆ c ∧ (d ≠ c ∨ (j < i)%nat).
Proof.
  unfold dominated. rewrite existsb_exists. split.
  - intros ([j d] & Hin%list_elem_of_In%enumerate_lookup & Hcond). simpl in Hcond.
    apply andb_prop in Hcond as [Hcond Hlast].
    apply andb_prop in Hcond as [Hne Hsub].
    apply negb_true_iff, Nat.eqb_neq in Hne. apply bool_decide_eq_true in Hsub.
    exists j, d. split_and!; [done | by intros -> | done |].
    apply orb_prop in Hlast as [Hd|Hlt].
    + left. apply negb_true_iff in Hd. by apply bool_decide_eq_false in Hd.
    + right. by apply Nat.ltb_lt.
  - intros (j & d & Hj & Hne & Hsub & Hcase). exists (j, d). split.
    + by apply list_elem_of_In, enumerate_lookup.
    + simpl. apply andb_true_intro. split; [apply andb_true_intro; split|].
      * apply negb_true_iff, Nat.eqb_neq. by intros ->.
      * by apply bool_decide_eq_true.
      * apply orb_true_intro. destruct Hcase as [Hd|Hlt].
        -- left. apply negb_true_iff. by apply bool_decide_eq_false.
        -- right. by apply Nat.ltb_lt.
Qed.

Lemma dedup_seen_spec keep seen c :
  c ∈ dedup_seen keep seen ↔ c ∈ keep ∧ c ∉ seen.
Proof.
  revert seen. induction keep as [|a keep IH]; intros seen; simpl.
  - rewrite elem_of_nil. tauto.
  - case_bool_decide as Ha.
    + rewrite IH, elem_of_cons. split; [tauto|].
      intros [[->|?] ?]; [done | tauto].
    + rewrite !elem_of_cons, IH. split.
      * intros [->|[? ?]]; [tauto|]. split; [tauto | set_solver].
      * intros [[->|?] ?]; [by left|].
        destruct (decide (c = a)) as [->|?]; [by left | right]. set_solver.
Qed.

Lemma dedup_seen_NoDup keep seen : NoDup (dedup_seen keep seen).
Proof.
  revert seen. induction keep as [|a keep IH]; intros seen; simpl; [constructor|].
  case_bool_decide; [apply IH|]. apply NoDup_cons. split; [|apply IH].
  rewrite dedup_seen_spec. set_solver.
Qed.

Lemma dedup_seen_id keep seen :
  NoDup keep → (∀ c, c ∈ keep → c ∉ seen) → dedup_seen keep seen = keep.
Proof.
  revert seen. induction keep as [|a keep IH]; intros seen Hnd Hseen; simpl; [done|].
  apply NoDup_cons in Hnd as [Ha Hnd].
  rewrite bool_decide_eq_false_2 by (apply Hseen; left). f_equal.
  apply IH; [done|]. intros c Hc. specialize (Hseen c).
  assert (c ≠ a) by (by intros ->). set_solver.
Qed.

(** What [minimalize_cuts] keeps: the cuts that no other position of the
    list dominates. *)
Lemma minimalize_cuts_spec cuts c :
  c ∈ minimalize_cuts cuts ↔ ∃ i, cuts !! i = Some c ∧ dominated cuts i c = false.
Proof.
  unfold minimalize_cuts. rewrite dedup_seen_spec, list_elem_of_fmap. split.
  - intros [([i c'] & -> & [Hdom Hin%enumerate_lookup]%list_elem_of_filter) _].
    by exists i.
  - intros (i & Hi & Hdom). split; [|set_solver]. exists (i, c). split; [done|].
    apply list_elem_of_filter. split; [done | by apply enumerate_lookup].
Qed.

Lemma minimalize_cuts_pruned cuts :
  NoDup (minimalize_cuts cuts)
  ∧ ∀ c d, c ∈ minimalize_cuts cuts → d ∈ minimalize_cuts cuts → d ⊆ c → d = c.
Proof.
  split.
  - apply dedup_seen_NoDup.
  - intros c d (i & Hi & Hdom)%minimalize_cuts_spec (j & Hj & _)%minimalize_cuts_spec Hsub.
    destruct (decide (j = i)) as [->|Hne]; [congruence|].
    destruct (decide (d = c)) as [|Hdc]; [done|].
    assert (dominated cuts i c = true) as Htrue; [|congruence].
    apply dominated_true. exists j, d. split_and!; try done. by left.
Qed.

Lemma minimalize_cuts_covers cuts c :
  c ∈ cuts → ∃ d, d ∈ minimalize_cuts cuts ∧ d ⊆ c.
Proof.
  intros [i Hi]%list_elem_of_lookup. revert c i Hi.
  assert (∀ n c i, size c = n → cuts !! i = Some c →
            ∃ d, d ∈ minimalize_cuts cuts ∧ d ⊆ c) as Hgen; [|by eauto].
  induction n as [n IHn] using lt_wf_ind. intros c i.
  induction i as [i IHi] using lt_wf_ind. intros Hn Hi.
  destruct (dominated cuts i c) eqn:Hdom.
  - apply dominated_true in Hdom as (j & d & Hj & Hne & Hsub & [Hd|Hlt]).
    + destruct (IHn (size d)) with (c := d) (i := j) as (d' & Hd' & Hsub');
        [|done|done|].
      * rewrite <- Hn. apply subset_size. set_solver.
      * exists d'. split; [done | set_solver].
    + destruct (decide (d = c)) as [->|Hd]; [by apply (IHi j)|].
      destruct (IHn (size d)) with (c := d) (i := j) as (d' & Hd' & Hsub');
        [|done|done|].
      * rewrite <- Hn. apply subset_size. set_solver.
      * exists d'. split; [done | set_solver].
  - exists c. split; [|done]. apply minimalize_cuts_spec. by exists i.
Qed.

(** X1.  The list [minimalize_cuts] returns is drawn from its argument,
    has no duplicates, no cut in it is a subset of another, and every cut
    of the argument has a subset in it. *)
Theorem minimalize_cuts_antichain cuts :
  (∀ c, c ∈ minimalize_cuts cuts → c ∈ cuts)
  ∧ NoDup (minimalize_cuts cuts)
  ∧ (∀ c d, c ∈ minimalize_cuts cuts → d ∈ minimalize_cuts cuts → d ⊆ c → d = c)
  ∧ (∀ c, c ∈ cuts → ∃ d, d ∈ minimalize_cuts cuts ∧ d ⊆ c).
Proof.
  destruct (minimalize_cuts_pruned cuts) as [Hnd Hanti]. split_and!; try done.
  - apply minimalize_cuts_elem.
  - apply minimalize_cuts_covers.
Qed.

Lemma enumerate_fmap_snd {A} (l : list A) : (enumerate l).*2 = l.
Proof.
  unfold enumerate. apply list_eq. intros i.
  rewrite list_lookup_fmap, list_lookup_imap. by destruct (l !! i).
Qed.

Lemma filter_all {A} (P : A → Prop) `{!∀ x, Decision (P x)} (l : list A) :
  (∀ x, x ∈ l → P x) → filter P l = l.
Proof.
  induction l as [|a l IH]; intros Hall; [done|].
  rewrite filter_cons_True by (apply Hall; left). f_equal.
  apply IH. intros x Hx. apply Hall. by right.
Qed.

(** X2.  A list without duplicates in which no cut is a subset of another
    is left as it is; in particular pruning twice is pruning once. *)
Theorem minimalize_cuts_idempotent :
  (∀ cuts, NoDup cuts → (∀ c d, c ∈ cuts → d ∈ cuts → d ⊆ c → d = c) →
           minimalize_cuts cuts = cuts)
  ∧ ∀ cuts, minimalize_cuts (minimalize_cuts cuts) = minimalize_cuts cuts.
Proof.
  assert (∀ cuts, NoDup cuts → (∀ c d, c ∈ cuts → d ∈ cuts → d ⊆ c → d = c) →
            minimalize_cuts cuts = cuts) as Hfix.
  { intros cuts Hnd Hanti. unfold minimalize_cuts.
    rewrite filter_all, enumerate_fmap_snd.
    - apply dedup_seen_id; [done | set_solver].
    - intros [i c] Hi%enumerate_lookup. simpl.
      destruct (dominated cuts i c) eqn:Hdom; [|done]. exfalso.
      apply dominated_true in Hdom as (j & d & Hj & Hne & Hsub & _).
      assert (d = c) as ->.
      { apply Hanti; [by eapply list_elem_of_lookup_2..|done]. }
      apply Hne. by eapply NoDup_lookup. }
  split; [done|]. intros cuts.
  destruct (minimalize_cuts_pruned cuts) as [Hnd Hanti]. by apply Hfix.
Qed.

(** ** [enumerate_minimal_kcuts] *)

(** How the entry of a node in the returned table was made. *)
Definition entry_of (graph : Graph) (K : Z) (cut_limit : option Z)
    (node_cuts : gmap node (list cut)) (v : node) (cs : list cut) : Prop :=
  (v ∈ primary_inputs graph ∧ cs = [{[v]}])
  ∨ ((v ∉ primary_inputs graph)
     ∧ ∃ fins pools,
         graph_get graph v = Ok fins ∧ fins ≠ []
         ∧ Forall2 (λ fi p, node_cuts !! fi = Some p) fins pools
         ∧ cs = apply_cut_limit cut_limit (minimalize_cuts (candidates K fins pools))).

Lemma enumerate_step_entry graph K cut_limit pre node_cuts v node_cuts' :
  graph_wf graph → v ∉ pre →
  cuts_ok K (primary_inputs graph) pre node_cuts →
  (∀ w cs, node_cuts !! w = Some cs → entry_of graph K cut_limit node_cuts w cs) →
  enumerate_step graph K cut_limit (primary_inputs graph) node_cuts v = Ok node_cuts' →
  ∀ w cs, node_cuts' !! w = Some cs → entry_of graph K cut_limit node_cuts' w cs.
Proof.
  intros Hwf Hv Hok Hentries Hstep.
  assert (∀ fi p, node_cuts !! fi = Some p → node_cuts' !! fi = Some p) as Hkeep.
  { intros fi p Hfi.
    rewrite (enumerate_step_other _ _ _ _ _ _ _ fi Hstep); [done|].
    intros ->. apply Hv. apply (Hok v). by eauto. }
  intros w cs Hw. destruct (decide (w = v)) as [->|Hne].
  - unfold enumerate_step in Hstep. case_bool_decide as HPI.
    + injection Hstep as <-. rewrite lookup_insert_eq in Hw. injection Hw as <-.
      by left.
    + apply bind_Ok in Hstep as (fins & Hfins & (pools & Hpools%map_result_Ok & [= <-])%bind_Ok).
      rewrite lookup_insert_eq in Hw. injection Hw as <-. right. split; [done|].
      exists fins, pools. split_and!; try done.
      * intros ->. apply HPI. by apply primary_inputs_spec.
      * eapply Forall2_impl; [done|]. intros fi p Hget%get_Ok.
        rewrite lookup_insert_ne; [done|]. intros <-. apply Hv. apply (Hok v). by eauto.
  - rewrite (enumerate_step_other _ _ _ _ _ _ _ w Hstep Hne) in Hw.
    destruct (Hentries w cs Hw) as [?|[HPI (fins & pools & Hg & Hne' & Hpools & ->)]];
      [by left | right]. split; [done|].
    exists fins, pools. split_and!; try done.
    eapply Forall2_impl; [done|]. intros fi p. apply Hkeep.
Qed.

(** The table that [enumerate_minimal_kcuts] returns satisfies the
    equations of its loop: a primary input has the one cut that is itself,
    a gate has the pruned, capped candidates made from the final lists of
    its fanins. *)
Lemma enumerate_minimal_kcuts_entries graph K cut_limit node_cuts :
  graph_wf graph →
  enumerate_minimal_kcuts graph K cut_limit = Ok node_cuts →
  ∀ v cs, node_cuts !! v = Some cs → entry_of graph K cut_limit node_cuts v cs.
Proof.
  intros Hwf Henum.
  destruct (enumerate_minimal_kcuts_Ok _ _ _ _ Hwf Henum) as (HK & _).
  unfold enumerate_minimal_kcuts in Henum. destruct (Z.ltb_spec K 1); [lia|].
  apply bind_Ok in Henum as ([topo fanouts] & Hts & Hrun).
  destruct (topo_sort_Ok graph Hwf _ _ Hts) as (_ & Hnd & _ & _).
  apply (for_each_inv
           (λ pre nc, cuts_ok K (primary_inputs graph) pre nc
                      ∧ ∀ w cs, nc !! w = Some cs → entry_of graph K cut_limit nc w cs))
    in Hrun; [tauto| |].
  - split; [|by intros w cs [=]]. intros w. split; [|by intros cs C [=]].
    rewrite lookup_empty, elem_of_nil. split; [done | by intros [? [=]]].
  - intros pre x post s s1 -> [Hok Hentries] Hstep.
    assert (x ∉ pre) as Hx.
    { apply NoDup_app in Hnd as (_ & Hdisj & _). intros Hin.
      apply (Hdisj x Hin). left. }
    split; [by eapply enumerate_step_ok | by eapply enumerate_step_entry].
Qed.

Lemma apply_cut_limit_NoDup cut_limit (cand : list cut) :
  NoDup cand → NoDup (apply_cut_limit cut_limit cand).
Proof.
  intros Hnd. unfold apply_cut_limit. destruct cut_limit as [lim|]; [|done].
  destruct (lim <? Z.of_nat (length cand)); [|done].
  unfold slice_to. destruct (0 <=? lim);
    (eapply sublist_NoDup; [|apply sublist_take]); by rewrite sort_by_perm.
Qed.

Lemma apply_cut_limit_length lim (cand : list cut) :
  0 ≤ lim → Z.of_nat (length (apply_cut_limit (Some lim) cand)) ≤ lim.
Proof.
  intros Hlim. unfold apply_cut_limit.
  destruct (Z.ltb_spec lim (Z.of_nat (length cand))); [|lia].
  unfold slice_to. destruct (Z.leb_spec 0 lim); [|lia].
  rewrite length_take. lia.
Qed.

(** X3.  In the table of cuts every list is free of duplicates, no cut of
    a list is a subset of another cut of it, every cut is a non-empty set
    of at most K nodes, and a cut limit [lim >= 0] bounds the length of
    the list of every gate. *)
Theorem enumerated_cut_lists graph K cut_limit node_cuts v cs :
  graph_wf graph →
  enumerate_minimal_kcuts graph K cut_limit = Ok node_cuts →
  node_cuts !! v = Some cs →
  NoDup cs
  ∧ (∀ C D, C ∈ cs → D ∈ cs → D ⊆ C → D = C)
  ∧ (∀ C, C ∈ cs → C ≠ ∅ ∧ Z.of_nat (size C) ≤ K)
  ∧ (∀ lim, cut_limit = Some lim → 0 ≤ lim → v ∉ primary_inputs graph →
       Z.of_nat (length cs) ≤ lim).
Proof.
  intros Hwf Henum Hcs.
  destruct (enumerate_minimal_kcuts_Ok _ _ _ _ Hwf Henum)
    as (_ & topo & fanouts & _ & Hok).
  pose proof (enumerate_minimal_kcuts_entries _ _ _ _ Hwf Henum v cs Hcs) as Hentry.
  assert (∀ C, C ∈ cs → C ≠ ∅ ∧ Z.of_nat (size C) ≤ K) as Hsize.
  { intros C HC. destruct (Hok v) as [_ Hcuts].
    by destruct (Hcuts cs C Hcs HC) as (? & _ & _ & ?). }
  destruct Hentry as [[HPI ->]|[HPI (fins & pools & _ & _ & _ & ->)]].
  - split_and!; try done.
    + apply NoDup_singleton.
    + intros C D ->%list_elem_of_singleton ->%list_elem_of_singleton. done.
  - destruct (minimalize_cuts_pruned (candidates K fins pools)) as [Hnd Hanti].
    split_and!; try done.
    + by apply apply_cut_limit_NoDup.
    + intros C D HC%apply_cut_limit_elem HD%apply_cut_limit_elem. by apply Hanti.
    + intros lim -> Hlim _. by apply apply_cut_limit_length.
Qed.

Lemma enumerated_cut_lists_witness :
  let cs : list cut := [{["and1"; "c"]}] in
  NoDup cs
  ∧ (∀ C D, C ∈ cs → D ∈ cs → D ⊆ C → D = C)
  ∧ (∀ C, C ∈ cs → C ≠ ∅ ∧ Z.of_nat (size C) ≤ 3)
  ∧ (∀ lim, Some 1 = Some lim → 0 ≤ lim → "or1" ∉ primary_inputs Scenario.and_or →
       Z.of_nat (length cs) ≤ lim).
Proof.
  apply (enumerated_cut_lists Scenario.and_or 3 (Some 1)
           (Scenario.table (enumerate_minimal_kcuts Scenario.and_or 3 (Some 1))) "or1").
  - by_compute.
  - vm_compute. reflexivity.
  - vm_compute. reflexivity.
Defined.

Lemma empty_cut_list_wide graph K cut_limit node_cuts v fins :
  graph_wf graph →
  enumerate_minimal_kcuts graph K cut_limit = Ok node_cuts →
  (∀ lim, cut_limit = Some lim → 1 ≤ lim) →
  graph_get graph v = Ok fins →
  node_cuts !! v = Some [] →
  K < Z.of_nat (size (list_to_set fins : gset node)).
Proof.
  intros Hwf Henum Hlim Hfins Hcs.
  destruct (enumerate_minimal_kcuts_entries _ _ _ _ Hwf Henum v [] Hcs)
    as [[_ [=]]|[HPI (fins' & pools & Hg & _ & _ & Hnil)]].
  rewrite Hfins in Hg. injection Hg as <-.
  destruct (Z.lt_ge_cases K (Z.of_nat (size (list_to_set fins : gset node))))
    as [|Hfeasible]; [done|]. exfalso.
  destruct (minimalize_cuts_covers (candidates K fins pools) (list_to_set fins))
    as (d & Hd & _).
  { unfold candidates. rewrite bool_decide_eq_true_2 by lia.
    apply elem_of_app. right. left. }
  unfold apply_cut_limit in Hnil. destruct cut_limit as [lim|].
  - specialize (Hlim lim eq_refl).
    destruct (Z.ltb_spec lim (Z.of_nat (length (minimalize_cuts (candidates K fins pools)))))
      as [Hlt|Hge].
    + unfold slice_to in Hnil. destruct (Z.leb_spec 0 lim); [|lia].
      assert (length (take (Z.to_nat lim)
                (sort_by cut_key_leb (minimalize_cuts (candidates K fins pools))))
              = 0%nat) as Hlen by by rewrite <- Hnil.
      rewrite length_take, sort_by_perm in Hlen. lia.
    + rewrite <- Hnil in Hd. by apply elem_of_nil in Hd.
  - rewrite <- Hnil in Hd. by apply elem_of_nil in Hd.
Qed.

(** X4.  Only a gate whose fanins alone are more than K can end up without
    a cut, as long as the cut limit is unset or at least 1. *)
Theorem no_cut_only_for_wide_gate graph K cut_limit node_cuts v fins :
  graph_wf graph →
  enumerate_minimal_kcuts graph K cut_limit = Ok node_cuts →
  (∀ lim, cut_limit = Some lim → 1 ≤ lim) →
  graph_get graph v = Ok fins →
  node_cuts !! v = Some [] →
  K < Z.of_nat (size (list_to_set fins : gset node)).
Proof. apply empty_cut_list_wide. Qed.

Lemma no_cut_only_for_wide_gate_witness :
  2 < Z.of_nat (size (list_to_set ["a"; "b"; "c"] : gset node)).
Proof.
  apply (no_cut_only_for_wide_gate Scenario.wide 2 None Scenario.wide_cuts "g").
  - by_compute.
  - vm_compute. reflexivity.
  - intros lim Hlim. discriminate Hlim.
  - vm_compute. reflexivity.
  - vm_compute. reflexivity.
Defined.

(** ** Enumerated cuts are cuts *)

Lemma pi_path_avoiding_start graph C u : pi_path_avoiding graph C u → u ∉ C.
Proof. by intros [v Hv _|v fins x Hv _ _ _]. Qed.

Lemma Forall2_combo_for_fanin (node_cuts : gmap node (list cut)) fins pools combo x :
  Forall2 (λ fi p, node_cuts !! fi = Some p) fins pools →
  Forall2 (λ c p, c ∈ p) combo pools →
  x ∈ fins →
  ∃ p c, node_cuts !! x = Some p ∧ c ∈ p ∧ c ∈ combo.
Proof.
  intros Hpools. revert combo.
  induction Hpools as [|fi p fins pools Hfi _ IH]; intros combo Hcombo Hx.
  - by apply elem_of_nil in Hx.
  - inversion Hcombo as [|c p' combo' ? Hc Hrest]; subst.
    apply elem_of_cons in Hx as [->|Hx].
    + exists p, c. split_and!; [done | done | left].
    + destruct (IH _ Hrest Hx) as (p0 & c0 & ? & ? & ?).
      exists p0, c0. split_and!; [done | done | by right].
Qed.

(** A path from a primary input that avoids [C] cannot end in a node one
    of whose enumerated cuts lies within [C]. *)
Lemma enumerated_cut_blocks graph K cut_limit node_cuts C u :
  graph_wf graph →
  enumerate_minimal_kcuts graph K cut_limit = Ok node_cuts →
  pi_path_avoiding graph C u →
  ∀ cs c, node_cuts !! u = Some cs → c ∈ cs → c ⊆ C → False.
Proof.
  intros Hwf Henum Hpath.
  pose proof (enumerate_minimal_kcuts_entries _ _ _ _ Hwf Henum) as Hentries.
  induction Hpath as [u Hu Hg|u fins x Hu Hg Hx Hpath IH]; intros cs c Hcs Hc Hsub.
  - destruct (Hentries u cs Hcs) as [[_ ->]|[HPI _]].
    + apply list_elem_of_singleton in Hc as ->. set_solver.
    + apply HPI. by apply primary_inputs_spec.
  - destruct (Hentries u cs Hcs) as [[HPI _]|[_ (fins' & pools & Hg' & _ & Hpools & ->)]].
    + apply primary_inputs_spec in HPI; [|done]. rewrite Hg in HPI.
      injection HPI as ->. by apply elem_of_nil in Hx.
    + rewrite Hg in Hg'. injection Hg' as <-.
      apply apply_cut_limit_elem, minimalize_cuts_elem, candidates_elem in Hc
        as [_ [->|(combo & Hcombo%product_elem & ->)]].
      * apply (pi_path_avoiding_start _ _ _ Hpath). apply Hsub.
        by apply elem_of_list_to_set.
      * destruct (Forall2_combo_for_fanin _ _ _ _ x Hpools Hcombo Hx)
          as (p & c & Hp & Hcp & Hcc).
        apply (IH p c Hp Hcp). unfold union_all in Hsub.
        intros y Hy. apply Hsub. apply elem_of_union_list. by exists c.
Qed.

Lemma enumerated_cut_feasible graph K cut_limit node_cuts v cs C :
  graph_wf graph →
  enumerate_minimal_kcuts graph K cut_limit = Ok node_cuts →
  node_cuts !! v = Some cs → C ∈ cs →
  spec_K_feasible_cut graph K v C.
Proof.
  intros Hwf Henum Hcs HC.
  destruct (enumerate_minimal_kcuts_Ok _ _ _ _ Hwf Henum)
    as (_ & topo & fanouts & Hts & Hok).
  destruct (topo_sort_Ok graph Hwf _ _ Hts) as (_ & _ & Hall & _).
  destruct (Hok v) as [_ Hcuts].
  destruct (Hcuts cs C Hcs HC) as (Hne & Hsub & _ & Hsize).
  split; [|done]. split_and!; [done | |].
  - intros u Hu. by apply Hall, Hsub.
  - intros Hpath. by eapply enumerated_cut_blocks.
Qed.

(** X5.  Every cut in the table is a K-feasible cut of its node in the
    sense of the specification: a non-empty set of at most K nodes of the
    graph that every path from a primary input to the node passes
    through. *)
Theorem enumerated_cut_is_feasible_cut graph K cut_limit node_cuts v cs C :
  graph_wf graph →
  enumerate_minimal_kcuts graph K cut_limit = Ok node_cuts →
  node_cuts !! v = Some cs → C ∈ cs →
  spec_K_feasible_cut graph K v C.
Proof. apply enumerated_cut_feasible. Qed.

Lemma enumerated_cut_is_feasible_cut_witness :
  spec_K_feasible_cut Scenario.and_or 3 "or1" {["a"; "b"; "c"]}.
Proof.
  apply (enumerated_cut_is_feasible_cut Scenario.and_or 3 None Scenario.and_or_cuts
           "or1" [{["a"; "b"; "c"]}; {["and1"; "c"]}]).
  - by_compute.
  - vm_compute. reflexivity.
  - vm_compute. reflexivity.
  - by_compute.
Defined.

(** ** [flowmap_labels] *)

(** The table that [flowmap_labels] returns is the one it labeled. *)
Lemma flowmap_labels_table graph K opt labels node_cuts cut_depth :
  graph_wf graph →
  flowmap_labels graph K opt = Ok (labels, node_cuts, cut_depth) →
  flowmap_labels graph K (Some node_cuts) = Ok (labels, node_cuts, cut_depth)
  ∧ match opt with
    | Some nc => nc = node_cuts
    | None => enumerate_minimal_kcuts graph K None = Ok node_cuts
    end.
Proof.
  intros Hwf Hlab. destruct opt as [nc|].
  - destruct (flowmap_labels_Ok _ _ _ _ _ _ Hwf Hlab) as [-> _]. done.
  - unfold flowmap_labels in Hlab.
    apply bind_Ok in Hlab as (nc & Henum & Hrest).
    assert (flowmap_labels graph K (Some nc) = Ok (labels, node_cuts, cut_depth))
      as Hsome by done.
    destruct (flowmap_labels_Ok _ _ _ _ _ _ Hwf Hsome) as [-> _]. done.
Qed.

Lemma depth_via_pos (labels : gmap node Z) C d :
  (∀ u l, labels !! u = Some l → 0 ≤ l) → depth_via labels C = Ok d → 1 ≤ d.
Proof.
  intros Hnn Hd. destruct (decide (C = ∅)) as [->|Hne].
  - unfold depth_via in Hd. rewrite bool_decide_eq_true_2 in Hd by done.
    injection Hd as <-. lia.
  - destruct (depth_via_Ok _ _ _ Hd Hne) as [(u & _ & Hu) _].
    specialize (Hnn u _ Hu). lia.
Qed.

(** Labels are not negative, and those of gates are positive. *)
Definition labels_pos (PIs : gset node) (labels : gmap node Z) : Prop :=
  ∀ w l, labels !! w = Some l → 0 ≤ l ∧ (w ∉ PIs → 1 ≤ l).

Lemma label_step_pos K PIs node_cuts st v st' :
  labels_pos PIs st.1 →
  label_step K PIs node_cuts st v = Ok st' →
  labels_pos PIs st'.1.
Proof.
  intros Hpos. destruct st as [labels cd]. unfold label_step. simpl in *.
  case_bool_decide as HPI.
  - intros (cdv & _ & [= <-])%bind_Ok. simpl. intros w l.
    destruct (decide (v = w)) as [->|Hne].
    + rewrite lookup_insert_eq. intros [= <-]. split; [lia | done].
    + rewrite lookup_insert_ne by done. apply Hpos.
  - intros (cs & _ & ([cd' best] & Hloop & Hbest)%bind_Ok)%bind_Ok.
    destruct best as [b|]; [|done]. injection Hbest as <-. simpl.
    destruct (label_cut_loop _ _ _ _ _ _ Hloop) as (_ & Hcuts & _ & Hmin).
    destruct (Hmin b eq_refl) as (C & HC & Hb).
    destruct (Hcuts C HC) as (d & b' & Hd & Hdepth & _).
    assert (d = b) as -> by congruence.
    assert (1 ≤ b) as Hb1.
    { eapply depth_via_pos; [|done]. intros u l Hl. by apply (Hpos u l). }
    intros w l. destruct (decide (v = w)) as [->|Hne].
    + rewrite lookup_insert_eq. intros [= <-]. split; [lia | done].
    + rewrite lookup_insert_ne by done. apply Hpos.
Qed.

Lemma flowmap_labels_pos graph K node_cuts labels node_cuts' cut_depth :
  flowmap_labels graph K (Some node_cuts) = Ok (labels, node_cuts', cut_depth) →
  labels_pos (primary_inputs graph) labels.
Proof.
  unfold flowmap_labels. simpl.
  intros ([topo fanouts] & _ & ([labels' cd'] & Hrun & [= <- <- <-])%bind_Ok)%bind_Ok.
  apply (for_each_inv (λ _ st, labels_pos (primary_inputs graph) st.1)) in Hrun;
    [done | by intros w l [=] |].
  intros pre x post s s1 _. apply label_step_pos.
Qed.

Lemma flowmap_labels_zero graph K opt labels node_cuts cut_depth v :
  graph_wf graph →
  flowmap_labels graph K opt = Ok (labels, node_cuts, cut_depth) →
  (v ∈ keys graph ↔ is_Some (labels !! v))
  ∧ ∀ l, labels !! v = Some l → 0 ≤ l ∧ (l = 0 ↔ v ∈ primary_inputs graph).
Proof.
  intros Hwf Hlab. apply flowmap_labels_table in Hlab as [Hlab _]; [|done].
  destruct (flowmap_labels_Ok _ _ _ _ _ _ Hwf Hlab) as (_ & topo & fanouts & Hts & Hok).
  destruct (topo_sort_Ok graph Hwf _ _ Hts) as (_ & _ & Hall & _).
  pose proof (flowmap_labels_pos _ _ _ _ _ _ Hlab) as Hpos.
  destruct (Hok v) as (Hdom & HPI & _). simpl in *. split.
  - by rewrite <- Hall.
  - intros l Hl. destruct (Hpos v l Hl) as [Hnn Hgate]. split; [done|]. split.
    + intros ->. destruct (decide (v ∈ primary_inputs graph)) as [|Hn]; [done|].
      specialize (Hgate Hn). lia.
    + intros Hin. rewrite HPI in Hl; [by injection Hl | by apply Hdom | done].
Qed.

(** X6.  [flowmap_labels] labels exactly the keys of the graph; no label
    is negative, and a node has label 0 exactly when it is a primary
    input. *)
Theorem label_zero_iff_primary_input graph K opt labels node_cuts cut_depth v :
  graph_wf graph →
  flowmap_labels graph K opt = Ok (labels, node_cuts, cut_depth) →
  (v ∈ keys graph ↔ is_Some (labels !! v))
  ∧ ∀ l, labels !! v = Some l → 0 ≤ l ∧ (l = 0 ↔ v ∈ primary_inputs graph).
Proof. apply flowmap_labels_zero. Qed.

Lemma label_zero_iff_primary_input_witness :
  ("and1" ∈ keys Scenario.and_or ↔ is_Some (Scenario.and_or_labels3 !! "and1"))
  ∧ ∀ l, Scenario.and_or_labels3 !! "and1" = Some l →
      0 ≤ l ∧ (l = 0 ↔ "and1" ∈ primary_inputs Scenario.and_or).
Proof.
  apply (label_zero_iff_primary_input Scenario.and_or 3 (Some Scenario.and_or_cuts)
           Scenario.and_or_labels3 Scenario.and_or_cuts Scenario.and_or_cut_depth3).
  - by_compute.
  - vm_compute. reflexivity.
Defined.

Lemma flowmap_labels_least graph K opt labels node_cuts cut_depth v :
  graph_wf graph →
  flowmap_labels graph K opt = Ok (labels, node_cuts, cut_depth) →
  v ∈ keys graph → v ∉ primary_inputs graph →
  ∃ cs lv,
    node_cuts !! v = Some cs ∧ labels !! v = Some lv
    ∧ (∀ C, C ∈ cs →
         ∃ d, cd_get cut_depth v C = Some d ∧ depth_via labels C = Ok d ∧ lv ≤ d)
    ∧ (∃ C, C ∈ cs ∧ cd_get cut_depth v C = Some lv ∧ depth_via labels C = Ok lv).
Proof.
  intros Hwf Hlab Hv HPI. apply flowmap_labels_table in Hlab as [Hlab _]; [|done].
  destruct (flowmap_labels_Ok _ _ _ _ _ _ Hwf Hlab) as (_ & topo & fanouts & Hts & Hok).
  destruct (topo_sort_Ok graph Hwf _ _ Hts) as (_ & _ & Hall & _).
  destruct (Hok v) as (_ & _ & Hgate). simpl in Hgate.
  destruct Hgate as (cs & lv & Hcs & Hlv & Hcuts & C & HC & HdC); [by apply Hall | done |].
  exists cs, lv. split_and!; try done.
  - intros C' HC'. destruct (Hcuts C' HC') as (d & ? & ? & ?). by exists d.
  - exists C. split_and!; try done.
    destruct (Hcuts C HC) as (d & Hd & _ & Hdepth). congruence.
Qed.

(** X7.  The label of a gate is the least depth through the cuts of its
    list: [cut_depth] records, for every cut of the list, one plus the
    largest label in the cut; the label is at most each of these and
    equals one of them. *)
Theorem label_is_least_cut_depth graph K opt labels node_cuts cut_depth v :
  graph_wf graph →
  flowmap_labels graph K opt = Ok (labels, node_cuts, cut_depth) →
  v ∈ keys graph → v ∉ primary_inputs graph →
  ∃ cs lv,
    node_cuts !! v = Some cs ∧ labels !! v = Some lv
    ∧ (∀ C, C ∈ cs →
         ∃ d, cd_get cut_depth v C = Some d ∧ depth_via labels C = Ok d ∧ lv ≤ d)
    ∧ (∃ C, C ∈ cs ∧ cd_get cut_depth v C = Some lv ∧ depth_via labels C = Ok lv).
Proof. apply flowmap_labels_least. Qed.

Lemma label_is_least_cut_depth_witness :
  ∃ cs lv,
    Scenario.and_or_cuts !! "or1" = Some cs
    ∧ Scenario.and_or_labels3 !! "or1" = Some lv
    ∧ (∀ C, C ∈ cs →
         ∃ d, cd_get Scenario.and_or_cut_depth3 "or1" C = Some d
              ∧ depth_via Scenario.and_or_labels3 C = Ok d ∧ lv ≤ d)
    ∧ (∃ C, C ∈ cs ∧ cd_get Scenario.and_or_cut_depth3 "or1" C = Some lv
            ∧ depth_via Scenario.and_or_labels3 C = Ok lv).
Proof.
  apply (label_is_least_cut_depth Scenario.and_or 3 (Some Scenario.and_or_cuts)
           Scenario.and_or_labels3 Scenario.and_or_cuts Scenario.and_or_cut_depth3).
  - by_compute.
  - vm_compute. reflexivity.
  - by_compute.
  - by_compute.
Defined.

(** X8.  With the cuts of [enumerate_minimal_kcuts], labels never decrease
    from a fanin to its gate; and when the fanins of the gate are at most
    K and no cut limit is set, the label of the gate is at most one more
    than the label of one of its fanins. *)
Theorem labels_along_fanins graph K cut_limit node_cuts labels cut_depth v fins :
  graph_wf graph →
  enumerate_minimal_kcuts graph K cut_limit = Ok node_cuts →
  flowmap_labels graph K (Some node_cuts) = Ok (labels, node_cuts, cut_depth) →
  graph_get graph v = Ok fins → fins ≠ [] →
  ∃ lv, labels !! v = Some lv
    ∧ (∀ u, u ∈ fins → ∃ lu, labels !! u = Some lu ∧ lu ≤ lv)
    ∧ (cut_limit = None → Z.of_nat (size (list_to_set fins : gset node)) ≤ K →
       ∃ u lu, u ∈ fins ∧ labels !! u = Some lu ∧ lv ≤ 1 + lu).
Proof.
  intros Hwf Henum Hlab Hfins Hne.
  assert (v ∉ primary_inputs graph) as HPI.
  { intros HPI%primary_inputs_spec; [|done]. congruence. }
  assert (v ∈ keys graph) as Hv by (apply graph_get_key; by eauto).
  destruct (flowmap_labels_least _ _ _ _ _ _ v Hwf Hlab Hv HPI)
    as (cs & lv & Hcs & Hlv & Hall & C0 & HC0 & _ & Hd0).
  destruct (enumerate_minimal_kcuts_Ok _ _ _ _ Hwf Henum)
    as (_ & topo & fanouts & Hts & Hok).
  destruct (topo_sort_Ok graph Hwf _ _ Hts) as (_ & _ & Hkeys & _).
  pose proof (flowmap_labels_pos _ _ _ _ _ _ Hlab) as Hpos.
  destruct (enumerate_minimal_kcuts_entries _ _ _ _ Hwf Henum v cs Hcs)
    as [[? _]|[_ (fins' & pools & Hg & _ & Hpools & Hentry)]]; [done|].
  rewrite Hfins in Hg. injection Hg as <-.
  assert (∀ C, C ∈ cs → C ≠ ∅) as Hnonempty.
  { intros C HC. destruct (Hok v) as [_ Hcuts]. by destruct (Hcuts cs C Hcs HC). }
  exists lv. split; [done|]. split.
  - intros u Hu.
    destruct (depth_via_Ok _ _ _ Hd0 (Hnonempty C0 HC0)) as [_ Hbelow].
    pose proof HC0 as HC0'. rewrite Hentry in HC0'.
    apply apply_cut_limit_elem, minimalize_cuts_elem, candidates_elem in HC0'
      as [_ [->|(combo & Hcombo%product_elem & HC0eq)]].
    + destruct (Hbelow u) as (lu & Hlu & Hlt); [by apply elem_of_list_to_set|].
      exists lu. split; [done | lia].
    + destruct (Forall2_combo_for_fanin _ _ _ _ u Hpools Hcombo Hu)
        as (p & c & Hp & Hcp & Hcc).
      assert (c ⊆ C0) as Hsub.
      { rewrite HC0eq. unfold union_all. intros y Hy.
        apply elem_of_union_list. by exists c. }
      assert (u ∈ keys graph) as Hukey.
      { apply Hkeys. apply (Hok u). by eauto. }
      destruct (decide (u ∈ primary_inputs graph)) as [HuPI|HuPI].
      * destruct (flowmap_labels_zero _ _ _ _ _ _ u Hwf Hlab) as [Hdom Hzero].
        destruct (proj1 Hdom Hukey) as [lu Hlu]. exists lu. split; [done|].
        destruct (Hzero lu Hlu) as [_ Hiff]. rewrite (proj2 Hiff HuPI).
        by destruct (Hpos v lv Hlv).
      * destruct (flowmap_labels_least _ _ _ _ _ _ u Hwf Hlab Hukey HuPI)
          as (p' & lu & Hp' & Hlu & Hall' & _).
        rewrite Hp in Hp'. injection Hp' as <-.
        destruct (Hall' c Hcp) as (d & _ & Hd & Hle).
        exists lu. split; [done|].
        assert (c ≠ ∅) as Hcne.
        { destruct (Hok u) as [_ Hcuts]. by destruct (Hcuts p c Hp Hcp). }
        destruct (depth_via_Ok _ _ _ Hd Hcne) as [(y & Hy & Hly) _].
        destruct (Hbelow y (Hsub y Hy)) as (ly & Hly' & Hlt).
        rewrite Hly in Hly'. injection Hly' as <-. lia.
  - intros -> Hfeasible.
    destruct (minimalize_cuts_covers (candidates K fins pools) (list_to_set fins))
      as (d & Hd & Hsub).
    { unfold candidates. rewrite bool_decide_eq_true_2 by lia.
      apply elem_of_app. right. left. }
    simpl in Hentry. rewrite <- Hentry in Hd.
    destruct (Hall d Hd) as (dd & _ & Hdepth & Hle).
    destruct (depth_via_Ok _ _ _ Hdepth (Hnonempty d Hd)) as [(y & Hy & Hly) _].
    exists y, (dd - 1). split_and!; [|done|lia].
    specialize (Hsub y Hy). by apply elem_of_list_to_set in Hsub.
Qed.

Lemma labels_along_fanins_witness :
  ∃ lv, Scenario.and_or_labels3 !! "or1" = Some lv
    ∧ (∀ u, u ∈ ["and1"; "c"] →
            ∃ lu, Scenario.and_or_labels3 !! u = Some lu ∧ lu ≤ lv)
    ∧ (@None Z = None →
       Z.of_nat (size (list_to_set ["and1"; "c"] : gset node)) ≤ 3 →
       ∃ u lu, u ∈ ["and1"; "c"] ∧ Scenario.and_or_labels3 !! u = Some lu
               ∧ lv ≤ 1 + lu).
Proof.
  apply (labels_along_fanins Scenario.and_or 3 None Scenario.and_or_cuts
           Scenario.and_or_labels3 Scenario.and_or_cut_depth3 "or1").
  - by_compute.
  - vm_compute. reflexivity.
  - vm_compute. reflexivity.
  - vm_compute. reflexivity.
  - discriminate.
Defined.

(** ** [topo_sort], [detect_outputs] and [compute_refcounts] *)

(** Position of [w] in [order], 0 when it is not there. *)
Definition rank_in (order : list node) (w : node) : nat :=
  match list_find (λ x, x = w) order with
  | Some (i, _) => i
  | None => 0%nat
  end.

Lemma rank_in_mid l1 w l2 :
  NoDup (l1 ++ w :: l2) → rank_in (l1 ++ w :: l2) w = length l1.
Proof.
  intros Hnd. unfold rank_in.
  destruct (list_find _ _) as [[i x]|] eqn:Hfind.
  - apply list_find_Some in Hfind as (Hi & -> & _).
    eapply NoDup_lookup; [done | done |].
    by rewrite lookup_app_r, Nat.sub_diag by lia.
  - apply list_find_None in Hfind. rewrite Forall_forall in Hfind.
    exfalso. apply (Hfind w); [|done]. apply elem_of_app. right. left.
Qed.

Lemma rank_in_before l1 x l2 :
  x ∈ l1 → (rank_in (l1 ++ l2) x < length l1)%nat.
Proof.
  intros [j Hj]%list_elem_of_lookup. unfold rank_in.
  pose proof (lookup_lt_Some _ _ _ Hj) as Hlt.
  destruct (list_find _ _) as [[i y]|] eqn:Hfind; [|lia].
  apply list_find_Some in Hfind as (_ & _ & Hmin).
  destruct (decide (i ≤ j)%nat) as [|Hgt]; [lia|]. exfalso.
  apply (Hmin j x); [|lia|done]. by rewrite lookup_app_l.
Qed.

(** A topological order makes the graph closed and acyclic. *)
Lemma topo_sort_Ok_dag graph order fanouts :
  graph_wf graph → topo_sort graph = Ok (order, fanouts) →
  fanins_closed graph ∧ ranked (rank_in order) graph.
Proof.
  intros Hwf Hts.
  destruct (topo_sort_Ok graph Hwf _ _ Hts) as (_ & Hnd & Hall & Hfirst).
  assert (∀ v fins u, (v, fins) ∈ graph → u ∈ fins →
            ∃ l1 l2, order = l1 ++ v :: l2 ∧ u ∈ l1) as Hsplit.
  { intros v fins u Hv Hu.
    assert (v ∈ order) as [l1 [l2 ->]]%list_elem_of_split.
    { apply Hall. apply list_elem_of_fmap. by exists (v, fins). }
    exists l1, l2. split; [done|]. apply (Hfirst l1 v l2 eq_refl).
    unfold fins_of. by rewrite (graph_get_elem _ _ _ Hwf Hv). }
  split.
  - unfold fanins_closed. rewrite Forall_forall. intros [v fins] Hv.
    rewrite Forall_forall. intros u Hu. simpl in *.
    destruct (Hsplit v fins u Hv Hu) as (l1 & l2 & -> & Hl1).
    apply Hall. apply elem_of_app. by left.
  - unfold ranked. rewrite Forall_forall. intros [v fins] Hv.
    rewrite Forall_forall. intros u Hu. simpl in *.
    destruct (Hsplit v fins u Hv Hu) as (l1 & l2 & -> & Hl1).
    rewrite rank_in_mid by done. by apply rank_in_before.
Qed.

(** X9.  [topo_sort] returns exactly on the graphs in which every fanin
    is a key and no node reaches itself through fanins; on every other
    graph it raises the error "Graph is not a DAG". *)
Theorem topo_sort_returns_iff_dag graph :
  graph_wf graph →
  ((∃ order fanouts, topo_sort graph = Ok (order, fanouts))
   ↔ fanins_closed graph ∧ acyclic graph)
  ∧ (¬ (fanins_closed graph ∧ acyclic graph) →
     topo_sort graph = Raise ValueError_not_a_DAG).
Proof.
  intros Hwf.
  assert ((∃ order fanouts, topo_sort graph = Ok (order, fanouts))
          → fanins_closed graph ∧ acyclic graph) as Hdag.
  { intros (order & fanouts & Hts).
    destruct (topo_sort_Ok_dag _ _ _ Hwf Hts) as [Hcl Hr].
    split; [done|]. by exists (rank_in order). }
  split; [split; [done|]|].
  - intros [Hcl Hac]. destruct (topo_sort_acyclic graph Hwf Hcl Hac) as [order Hts].
    by exists order, (build_fanouts graph).
  - intros Hnot. destruct (topo_sort_cases graph Hwf) as [(order & Hts & _)|Hts]; [|done].
    exfalso. apply Hnot, Hdag. by exists order, (build_fanouts graph).
Qed.

Lemma topo_sort_returns_iff_dag_witness :
  ((∃ order fanouts, topo_sort Scenario.cyclic = Ok (order, fanouts))
   ↔ fanins_closed Scenario.cyclic ∧ acyclic Scenario.cyclic)
  ∧ (¬ (fanins_closed Scenario.cyclic ∧ acyclic Scenario.cyclic) →
     topo_sort Scenario.cyclic = Raise ValueError_not_a_DAG).
Proof. apply (topo_sort_returns_iff_dag Scenario.cyclic). by_compute. Defined.

(** X10.  The order [topo_sort] returns is a permutation of the keys in
    which every fanin of a node comes before the node; [fanouts[u]] lists
    the nodes in the order of the graph, each as often as [u] occurs
    among its fanins. *)
Theorem topo_sort_order_and_fanouts graph order fanouts :
  graph_wf graph →
  topo_sort graph = Ok (order, fanouts) →
  order ≡ₚ keys graph
  ∧ (∀ v fins u, graph_get graph v = Ok fins → u ∈ fins → precedes order u v)
  ∧ (∀ u, fanouts_get fanouts u = flat_map (λ p, replicate (occ u p.2) p.1) graph).
Proof.
  intros Hwf Hts.
  destruct (topo_sort_Ok graph Hwf _ _ Hts) as (-> & Hnd & Hall & Hfirst).
  split_and!.
  - by apply NoDup_Permutation.
  - intros v fins u Hv Hu.
    assert (v ∈ order) as [l1 [l2 ->]]%list_elem_of_split.
    { apply Hall. apply graph_get_key. by exists fins. }
    exists l1, l2. split; [done|]. apply (Hfirst l1 v l2 eq_refl).
    unfold fins_of. by rewrite Hv.
  - apply fanouts_spec.
Qed.

Lemma topo_sort_order_and_fanouts_witness :
  ["a"; "b"; "c"; "and1"; "or1"] ≡ₚ keys Scenario.and_or
  ∧ (∀ v fins u, graph_get Scenario.and_or v = Ok fins → u ∈ fins →
       precedes ["a"; "b"; "c"; "and1"; "or1"] u v)
  ∧ (∀ u, fanouts_get (build_fanouts Scenario.and_or) u
          = flat_map (λ p, replicate (occ u p.2) p.1) Scenario.and_or).
Proof.
  apply (topo_sort_order_and_fanouts Scenario.and_or).
  - by_compute.
  - vm_compute. reflexivity.
Defined.

Lemma flat_map_replicate_nil (graph : Graph) u :
  flat_map (λ p, replicate (occ u p.2) p.1) graph = [] ↔ u ∉ concat graph.*2.
Proof.
  induction graph as [|[v fins] rest IH]; simpl.
  - split; [intros _ H; by apply elem_of_nil in H | done].
  - rewrite elem_of_app. split.
    + intros [Hrep Hrest]%app_nil. intros [Hu|Hu]; [|by apply IH].
      apply occ_pos in Hu. destruct (occ u fins); [lia | done].
    + intros Hn. apply app_nil. split; [|apply IH; tauto].
      destruct (occ u fins) eqn:Hocc; [done|]. exfalso. apply Hn. left.
      apply occ_pos. lia.
Qed.

Lemma flat_map_replicate_length (graph : Graph) u :
  length (flat_map (λ p, replicate (occ u p.2) p.1) graph) = occ u (concat graph.*2).
Proof.
  induction graph as [|[v fins] rest IH]; simpl; [done|].
  by rewrite length_app, length_replicate, occ_app, IH.
Qed.

Lemma elem_of_concat {A} (x : A) (ls : list (list A)) :
  x ∈ concat ls ↔ ∃ l, l ∈ ls ∧ x ∈ l.
Proof.
  induction ls as [|l ls IH]; simpl.
  - split; [intros H; by apply elem_of_nil in H|].
    intros (l & H & _). by apply elem_of_nil in H.
  - rewrite elem_of_app, IH. split.
    + intros [H|(l' & Hl' & Hx)]; [exists l; split; [left | done]|].
      exists l'. split; [by right | done].
    + intros (l' & [->|Hl']%elem_of_cons & Hx); [by left|]. right. by exists l'.
Qed.

(** A key of greatest rank. *)
Lemma max_rank_key (rank : node → nat) (l : list node) :
  l ≠ [] → ∃ v, v ∈ l ∧ ∀ w, w ∈ l → (rank w ≤ rank v)%nat.
Proof.
  induction l as [|a l IH]; [done|]. intros _.
  destruct l as [|b l].
  - exists a. split; [left|]. by intros w ->%list_elem_of_singleton.
  - destruct IH as (v & Hv & Hmax); [done|].
    destruct (decide (rank v ≤ rank a)%nat) as [Hle|Hgt].
    + exists a. split; [left|]. intros w [->|Hw]%elem_of_cons; [done|].
      specialize (Hmax w Hw). lia.
    + exists v. split; [by right|]. intros w [->|Hw]%elem_of_cons; [lia|].
      by apply Hmax.
Qed.

(** X11.  [detect_outputs] returns the keys that have no fanout in the
    table of [topo_sort], in the order of the graph; on an acyclic graph
    that is not empty it returns at least one node. *)
Theorem detect_outputs_have_no_fanout graph :
  detect_outputs graph
  = filter (λ n, fanouts_get (build_fanouts graph) n = []) (keys graph)
  ∧ (acyclic graph → graph ≠ [] → detect_outputs graph ≠ []).
Proof.
  assert (∀ n, n ∉ (list_to_set (concat graph.*2) : gset node)
               ↔ fanouts_get (build_fanouts graph) n = []) as Hiff.
  { intros n. rewrite fanouts_spec, flat_map_replicate_nil.
    by rewrite elem_of_list_to_set. }
  split.
  - unfold detect_outputs. apply list_filter_iff. intros n. apply Hiff.
  - intros [rank Hr] Hne.
    destruct (max_rank_key rank (keys graph)) as (v & Hv & Hmax).
    { unfold keys. by destruct graph. }
    assert (v ∈ detect_outputs graph) as Hin; [|by intros Heq; rewrite Heq in Hin;
                                                 apply elem_of_nil in Hin].
    unfold detect_outputs. apply list_elem_of_filter. split; [|done].
    rewrite elem_of_list_to_set.
    intros (fins & (p & -> & Hp)%list_elem_of_fmap & Hu)%elem_of_concat.
    unfold ranked in Hr. rewrite Forall_forall in Hr. specialize (Hr p Hp).
    rewrite Forall_forall in Hr. specialize (Hr v Hu).
    assert (p.1 ∈ keys graph) as Hkey by (apply list_elem_of_fmap; by exists p).
    specialize (Hmax _ Hkey). lia.
Qed.

Lemma foldl_insert_lookup {V} (f : node → V) (l : list node) (m : gmap node V) w :
  foldl (λ m n, <[n := f n]> m) m l !! w
  = if decide (w ∈ l) then Some (f w) else m !! w.
Proof.
  revert m. induction l as [|a l IH]; intros m; simpl.
  - destruct (decide (w ∈ [])) as [H|]; [by apply elem_of_nil in H | done].
  - rewrite IH.
    destruct (decide (w ∈ l)) as [Hl|Hl], (decide (w ∈ a :: l)) as [Hal|Hal];
      try done.
    + exfalso. apply Hal. by right.
    + apply elem_of_cons in Hal as [->|?]; [|done]. by rewrite lookup_insert_eq.
    + rewrite lookup_insert_ne; [done|]. intros ->. apply Hal. left.
Qed.

(** X12.  [compute_refcounts] raises what [topo_sort] raises; otherwise it
    has an entry for exactly the keys, and the entry of a node is the
    number of times the node occurs in the fanin lists, or 1 when it
    occurs in none. *)
Theorem refcount_is_fanout_count graph :
  match topo_sort graph with
  | Raise e => compute_refcounts graph = Raise e
  | Ok _ =>
      ∃ refcnt, compute_refcounts graph = Ok refcnt
        ∧ ∀ n, refcnt !! n
               = if decide (n ∈ keys graph)
                 then Some (Z.max 1 (Z.of_nat (occ n (concat graph.*2))))
                 else None
  end.
Proof.
  unfold compute_refcounts.
  destruct (topo_sort graph) as [[order fanouts]|e] eqn:Hts; [|done].
  simpl. eexists. split; [done|]. intros n.
  rewrite (foldl_insert_lookup
             (λ n, Z.max 1 (Z.of_nat (length (fanouts_get fanouts n))))).
  rewrite lookup_empty. destruct (decide (n ∈ keys graph)); [|done].
  assert (fanouts = build_fanouts graph) as ->.
  { unfold topo_sort in Hts. apply bind_Ok in Hts as (o & _ & Hts).
    case_bool_decide; [done|]. by injection Hts as _ <-. }
  by rewrite fanouts_spec, flat_map_replicate_length.
Qed.

(** ** [sorted], [list.sort] and [build_cover] *)

(** *** The order on strings *)

Lemma string_compare_refl s : String.compare s s = Eq.
Proof.
  pose proof (String.compare_antisym s s) as H.
  destruct (String.compare s s); simpl in H; congruence.
Qed.

Lemma string_compare_lt_trans a b c :
  String.compare a b = Lt → String.compare b c = Lt → String.compare a c = Lt.
Proof.
  revert b c. induction a as [|x a IH]; intros [|y b] [|z c]; simpl; try done.
  unfold Ascii.compare.
  destruct (N.compare_spec (Ascii.N_of_ascii x) (Ascii.N_of_ascii y)) as [Hxy|Hxy|Hxy],
           (N.compare_spec (Ascii.N_of_ascii y) (Ascii.N_of_ascii z)) as [Hyz|Hyz|Hyz],
           (N.compare_spec (Ascii.N_of_ascii x) (Ascii.N_of_ascii z)) as [Hxz|Hxz|Hxz];
    try done; try lia.
  apply IH.
Qed.

Lemma string_leb_trans a b c :
  String.leb a b = true → String.leb b c = true → String.leb a c = true.
Proof.
  unfold String.leb.
  destruct (String.compare a b) eqn:Hab; [| |done];
    destruct (String.compare b c) eqn:Hbc; try done; intros _ _.
  - apply String.compare_eq_iff in Hab as ->. by rewrite Hbc.
  - apply String.compare_eq_iff in Hab as ->. by rewrite Hbc.
  - apply String.compare_eq_iff in Hbc as <-. by rewrite Hab.
  - by rewrite (string_compare_lt_trans a b c).
Qed.

Lemma string_leb_false a b : String.leb a b = false → String.leb b a = true.
Proof. intros H. destruct (String.leb_total a b) as [H'|H']; congruence. Qed.

(** *** Insertion sort sorts *)

Section SortBy.
Context {A : Type} (le : A → A → bool).
Hypothesis le_trans : ∀ a b c, le a b = true → le b c = true → le a c = true.
Hypothesis le_total : ∀ a b, le a b = false → le b a = true.

Lemma insert_by_sorted x l :
  StronglySorted (λ a b, le a b = true) l →
  StronglySorted (λ a b, le a b = true) (insert_by le x l).
Proof.
  induction l as [|y l IH]; simpl; intros Hs.
  - by repeat constructor.
  - apply StronglySorted_inv in Hs as [Hs Hy].
    destruct (le x y) eqn:Hxy.
    + constructor; [by constructor|]. constructor; [done|].
      eapply Forall_impl; [done|]. intros z Hz. by eapply le_trans.
    + constructor; [by apply IH|].
      rewrite Forall_forall. intros z Hz.
      rewrite insert_by_perm in Hz. apply elem_of_cons in Hz as [->|Hz].
      * by apply le_total.
      * rewrite Forall_forall in Hy. by apply Hy.
Qed.

Lemma sort_by_sorted l : StronglySorted (λ a b, le a b = true) (sort_by le l).
Proof.
  unfold sort_by. induction l as [|x l IH]; simpl; [constructor|].
  by apply insert_by_sorted.
Qed.
End SortBy.

Lemma StronglySorted_impl {A} (R R' : A → A → Prop) l :
  StronglySorted R l → (∀ a b, R a b → R' a b) → StronglySorted R' l.
Proof.
  intros Hs Himpl. induction Hs as [|a l Hs IH Ha]; constructor; [done|].
  eapply Forall_impl; [done|]. intros b. apply Himpl.
Qed.

Lemma lut_leb_spec a b :
  lut_leb a b = true
  ↔ level a < level b ∨ (level a = level b ∧ String.leb (output a) (output b) = true).
Proof.
  unfold lut_leb.
  destruct (Z.ltb_spec (level a) (level b)); [split; [by left | done]|].
  destruct (Z.ltb_spec (level b) (level a)).
  - split; [done | lia].
  - split; [intros; right; split; [lia | done] | by intros [?|[_ ?]]; [lia|]].
Qed.

Lemma lut_leb_trans a b c :
  lut_leb a b = true → lut_leb b c = true → lut_leb a c = true.
Proof.
  rewrite !lut_leb_spec.
  intros [?|[? ?]] [?|[? ?]]; [left; lia | left; lia | left; lia |].
  right. split; [lia|]. by eapply string_leb_trans.
Qed.

Lemma lut_leb_total a b : lut_leb a b = false → lut_leb b a = true.
Proof.
  intros Hab. apply lut_leb_spec.
  destruct (decide (level b < level a)) as [|Hge]; [by left|]. right.
  destruct (decide (level a < level b)) as [Hlt|Hge'].
  - assert (lut_leb a b = true) by (apply lut_leb_spec; by left). congruence.
  - split; [lia|]. apply string_leb_false.
    destruct (String.leb (output a) (output b)) eqn:Hle; [|done].
    assert (lut_leb a b = true); [|congruence].
    apply lut_leb_spec. right. split; [lia | done].
Qed.

(** [sorted(C)] lists the nodes of [C], each once, in ascending order. *)
Lemma sorted_ascending (C : cut) :
  (∀ u, u ∈ sorted C ↔ u ∈ C)
  ∧ NoDup (sorted C)
  ∧ StronglySorted (λ a b, String.leb a b = true) (sorted C).
Proof.
  split_and!.
  - apply sorted_elem.
  - unfold sorted. rewrite sort_by_perm. apply NoDup_elements.
  - apply sort_by_sorted; [apply string_leb_trans | apply string_leb_false].
Qed.

(** *** What [place] covers *)

(** The nodes a cover needs: the requested outputs and, from a needed
    node, the nodes of its chosen cut; primary inputs left out. *)
Inductive needed (PIs : gset node) (chosen_cut : gmap node cut) (outs : list node)
  : node → Prop :=
| needed_output o : o ∈ outs → o ∉ PIs → needed PIs chosen_cut outs o
| needed_input v C u :
    needed PIs chosen_cut outs v → chosen_cut !! v = Some C → u ∈ C → u ∉ PIs →
    needed PIs chosen_cut outs u.

Section Place.
Variable PIs : gset node.
Variable chosen_cut : gmap node cut.
Variable labels : gmap node Z.
Variable outs : list node.

(** [covered] is the set of the outputs of the LUTs, no output occurs
    twice, and all of them are needed. *)
Definition cover_inv (st : gset node * list LUT) : Prop :=
  NoDup (output <$> st.2)
  ∧ (∀ w, w ∈ st.1 ↔ w ∈ output <$> st.2)
  ∧ (∀ w, w ∈ st.1 → needed PIs chosen_cut outs w).

Lemma place_inv fuel st v st' :
  (v ∉ PIs → needed PIs chosen_cut outs v) →
  cover_inv st →
  place fuel PIs chosen_cut labels st v = Ok st' →
  cover_inv st'.
Proof.
  revert st v st'. induction fuel as [|fuel IH]; intros st v st' Hv Hst; simpl; [done|].
  case_bool_decide as Hskip; [by intros [= <-]|].
  intros (C & HC%get_Ok & (lv & Hlv & Hloop)%bind_Ok)%bind_Ok.
  revert Hloop. apply (for_each_inv (λ _ s, cover_inv s)).
  - destruct Hst as (Hnd & Hcov & Hneed). unfold cover_inv. simpl.
    rewrite fmap_app. simpl. split_and!.
    + apply NoDup_app. split_and!; [done | | apply NoDup_singleton].
      intros w Hw ->%list_elem_of_singleton. apply Hskip. left. by apply Hcov.
    + intros w. rewrite elem_of_union, elem_of_singleton, elem_of_app,
        list_elem_of_singleton, Hcov. tauto.
    + intros w [->%elem_of_singleton|Hw]%elem_of_union; [|by apply Hneed].
      apply Hv. tauto.
  - intros pre u post s s1 Hel Hs. case_bool_decide as HPI; [by intros [= <-]|].
    apply IH; [|done]. intros _. apply (needed_input _ _ _ v C); try done.
    + apply Hv. tauto.
    + apply elem_of_elements. rewrite Hel. apply elem_of_app. right. left.
Qed.

(** Every input of a LUT is a primary input, covered, or among [P]. *)
Definition closed_upto (P : node → Prop) (st : gset node * list LUT) : Prop :=
  ∀ l u, l ∈ st.2 → u ∈ inputs l → u ∈ PIs ∨ u ∈ st.1 ∨ P u.

Lemma place_closed fuel P st v st' :
  closed_upto P st →
  place fuel PIs chosen_cut labels st v = Ok st' →
  closed_upto P st' ∧ (v ∈ PIs ∨ v ∈ st'.1).
Proof.
  revert P st v st'.
  induction fuel as [|fuel IH]; intros P st v st' Hst; simpl; [done|].
  case_bool_decide as Hskip; [intros [= <-]; split; [done | tauto]|].
  intros (C & HC%get_Ok & (lv & Hlv & Hloop)%bind_Ok)%bind_Ok.
  apply (for_each_inv
           (λ pre s, v ∈ s.1 ∧ closed_upto (λ u, P u ∨ (u ∈ C ∧ u ∉ pre)) s))
    in Hloop.
  - destruct Hloop as [Hv Hcl]. split; [|by right].
    intros l u Hl Hu. destruct (Hcl l u Hl Hu) as [?|[?|[?|[HuC Hn]]]]; try tauto.
    exfalso. apply Hn. by apply elem_of_elements.
  - simpl. split; [set_solver|].
    intros l u [Hl| ->%list_elem_of_singleton]%elem_of_app Hu; simpl in *.
    + destruct (Hst l u Hl Hu) as [?|[?|?]]; [by left | right; left; set_solver |].
      right. right. by left.
    + right. right. right. split; [by apply sorted_elem | apply not_elem_of_nil].
  - intros pre x post s s1 Hel [Hv Hcl] Hbody.
    assert (v ∈ s1.1 ∧ (x ∈ PIs ∨ x ∈ s1.1)
            ∧ closed_upto (λ u, P u ∨ (u ∈ C ∧ u ∉ pre)) s1) as (Hv1 & Hx & Hcl1).
    { case_bool_decide as HPI.
      - injection Hbody as <-. split_and!; [done | by left | done].
      - destruct (IH _ _ _ _ Hcl Hbody) as [Hcl1 Hx]. split_and!; try done.
        apply place_covered_mono in Hbody. set_solver. }
    split; [done|]. intros l u Hl Hu.
    destruct (Hcl1 l u Hl Hu) as [?|[?|[?|[HuC Hn]]]]; try tauto.
    destruct (decide (u = x)) as [->|Hne]; [tauto|].
    right. right. right. split; [done|].
    intros [?|?%list_elem_of_singleton]%elem_of_app; done.
Qed.
End Place.

Lemma build_cover_state graph chosen_cut labels outputs LUTs :
  build_cover graph chosen_cut labels outputs = Ok LUTs →
  ∃ st, LUTs = sort_by lut_leb st.2
    ∧ cover_inv (primary_inputs graph) chosen_cut
        (match outputs with None => detect_outputs graph | Some os => os end) st
    ∧ closed_upto (primary_inputs graph) (λ _, False) st
    ∧ ∀ o, o ∈ match outputs with None => detect_outputs graph | Some os => os end →
           o ∈ primary_inputs graph ∨ o ∈ st.1.
Proof.
  unfold build_cover. intros (st & Hloop & [= <-])%bind_Ok.
  exists st. split; [done|].
  set (outs := match outputs with None => detect_outputs graph | Some os => os end) in *.
  apply (for_each_inv
           (λ pre s, cover_inv (primary_inputs graph) chosen_cut outs s
                     ∧ closed_upto (primary_inputs graph) (λ _, False) s
                     ∧ ∀ o, o ∈ pre → o ∈ primary_inputs graph ∨ o ∈ s.1))
    in Hloop; [done | |].
  - split_and!.
    + unfold cover_inv. simpl. split_and!; [constructor | set_solver | set_solver].
    + intros l u Hl. by apply elem_of_nil in Hl.
    + intros o Ho. by apply elem_of_nil in Ho.
  - intros pre o post s s1 Hel (Hinv & Hcl & Hout) Hplace. split_and!.
    + eapply place_inv; [|done|done]. intros HPI. apply needed_output; [|done].
      rewrite Hel. apply elem_of_app. right. left.
    + by destruct (place_closed _ _ _ _ _ _ _ _ Hcl Hplace).
    + intros o' [Ho'| ->%list_elem_of_singleton]%elem_of_app.
      * destruct (Hout o' Ho'); [by left|]. right.
        apply place_covered_mono in Hplace. set_solver.
      * by destruct (place_closed _ _ _ _ _ _ _ _ Hcl Hplace).
Qed.

(** X13.  The cover has one LUT for each needed node and no other: the
    outputs of the LUTs are distinct, a node is the output of a LUT
    exactly when it is a requested output or lies in the chosen cut of a
    node with a LUT, and is no primary input; hence every input of a LUT
    is a primary input or the output of a LUT of the cover. *)
Theorem cover_is_the_needed_nodes graph chosen_cut labels outputs LUTs :
  build_cover graph chosen_cut labels outputs = Ok LUTs →
  NoDup (output <$> LUTs)
  ∧ (∀ w, w ∈ output <$> LUTs
          ↔ needed (primary_inputs graph) chosen_cut
              (match outputs with None => detect_outputs graph | Some os => os end) w)
  ∧ (∀ l u, l ∈ LUTs → u ∈ inputs l →
            u ∈ primary_inputs graph ∨ u ∈ output <$> LUTs).
Proof.
  intros Hrun. pose proof (build_cover_Ok _ _ _ _ _ Hrun) as Hluts.
  rewrite Forall_forall in Hluts.
  destruct (build_cover_state _ _ _ _ _ Hrun)
    as (st & -> & (Hnd & Hcov & Hneed) & Hcl & Houts).
  assert (∀ l u, l ∈ sort_by lut_leb st.2 → u ∈ inputs l →
            u ∈ primary_inputs graph ∨ u ∈ output <$> sort_by lut_leb st.2) as Hclosed.
  { intros l u Hl Hu. rewrite sort_by_perm in Hl.
    destruct (Hcl l u Hl Hu) as [?|[?|[]]]; [by left|]. right.
    rewrite sort_by_perm. by apply Hcov. }
  split_and!; [by rewrite sort_by_perm | | done].
  intros w. split.
  - rewrite sort_by_perm. intros Hw. by apply Hneed, Hcov.
  - induction 1 as [o Ho HPI|v C u Hv IH HC Hu HPI].
    + rewrite sort_by_perm. apply Hcov. destruct (Houts o Ho); done.
    + apply list_elem_of_fmap in IH as (l & -> & Hl).
      destruct (Hluts l Hl) as (_ & C' & HC' & Hin & _).
      assert (C' = C) as -> by congruence.
      destruct (Hclosed l u Hl) as [?|?]; [|done|done].
      rewrite Hin. by apply sorted_elem.
Qed.

Lemma cover_is_the_needed_nodes_witness :
  NoDup (output <$> Scenario.and_or_LUTs)
  ∧ (∀ w, w ∈ output <$> Scenario.and_or_LUTs
          ↔ needed (primary_inputs Scenario.and_or) Scenario.and_or_chosen
              (detect_outputs Scenario.and_or) w)
  ∧ (∀ l u, l ∈ Scenario.and_or_LUTs → u ∈ inputs l →
            u ∈ primary_inputs Scenario.and_or ∨ u ∈ output <$> Scenario.and_or_LUTs).
Proof.
  apply (cover_is_the_needed_nodes Scenario.and_or Scenario.and_or_chosen
           Scenario.and_or_labels None).
  vm_compute. reflexivity.
Defined.

(** X14.  The cover is listed by ascending level and, within a level, by
    ascending output name.  Every LUT carries the label of its output as
    its level, and its inputs are the nodes of the chosen cut of its
    output, each once, in ascending order. *)
Theorem cover_sorted_by_level_then_output graph chosen_cut labels outputs LUTs :
  build_cover graph chosen_cut labels outputs = Ok LUTs →
  StronglySorted
    (λ a b, level a < level b
            ∨ (level a = level b ∧ String.leb (output a) (output b) = true)) LUTs
  ∧ ∀ l, l ∈ LUTs →
      ∃ C, chosen_cut !! output l = Some C
           ∧ labels !! output l = Some (level l)
           ∧ (∀ u, u ∈ inputs l ↔ u ∈ C)
           ∧ NoDup (inputs l)
           ∧ StronglySorted (λ a b, String.leb a b = true) (inputs l).
Proof.
  intros Hrun. pose proof (build_cover_Ok _ _ _ _ _ Hrun) as Hluts.
  rewrite Forall_forall in Hluts. split.
  - destruct (build_cover_state _ _ _ _ _ Hrun) as (st & -> & _).
    eapply StronglySorted_impl;
      [apply (sort_by_sorted lut_leb lut_leb_trans lut_leb_total)|].
    intros a b Hab. by apply lut_leb_spec.
  - intros l Hl. destruct (Hluts l Hl) as (_ & C & HC & -> & Hlv).
    destruct (sorted_ascending C) as (? & ? & ?). by exists C.
Qed.

Lemma cover_sorted_by_level_then_output_witness :
  StronglySorted
    (λ a b, level a < level b
            ∨ (level a = level b ∧ String.leb (output a) (output b) = true))
    Scenario.and_or_LUTs
  ∧ ∀ l, l ∈ Scenario.and_or_LUTs →
      ∃ C, Scenario.and_or_chosen !! output l = Some C
           ∧ Scenario.and_or_labels !! output l = Some (level l)
           ∧ (∀ u, u ∈ inputs l ↔ u ∈ C)
           ∧ NoDup (inputs l)
           ∧ StronglySorted (λ a b, String.leb a b = true) (inputs l).
Proof.
  apply (cover_sorted_by_level_then_output Scenario.and_or Scenario.and_or_chosen
           Scenario.and_or_labels None).
  vm_compute. reflexivity.
Defined.

(** ** [area_recovery] *)

(** The cost of a cut reads [area_flow] at the gates of the cut only. *)
Lemma cut_cost_agree PIs (af af' : gmap node float) (refcnt : gmap node Z) C :
  (∀ u, u ∈ C → u ∉ PIs → af' !! u = af !! u) →
  cut_cost PIs af' refcnt C = cut_cost PIs af refcnt C.
Proof.
  intros Hagree. unfold cut_cost. apply for_each_ext.
  intros cost u Hu%elem_of_elements. case_bool_decide; [done|].
  unfold get. by rewrite Hagree.
Qed.

Lemma cut_cost_reads PIs (af : gmap node float) (refcnt : gmap node Z) C c :
  cut_cost PIs af refcnt C = Ok c → ∀ u, u ∈ C → u ∉ PIs → is_Some (af !! u).
Proof.
  unfold cut_cost. intros Hrun u Hu HPI.
  assert (∀ u, u ∈ elements C → u ∉ PIs → is_Some (af !! u)) as Hall;
    [|apply Hall; [by apply elem_of_elements | done]].
  revert Hrun.
  apply (for_each_inv (λ pre _, ∀ u, u ∈ pre → u ∉ PIs → is_Some (af !! u))).
  - intros u' Hu'. by apply elem_of_nil in Hu'.
  - intros pre x post s s1 _ Hpre Hbody u'
      [Hu'| ->%list_elem_of_singleton]%elem_of_app HPI'; [by apply Hpre|].
    rewrite bool_decide_eq_false_2 in Hbody by done.
    apply bind_Ok in Hbody as (a & Ha%get_Ok & _). by eauto.
Qed.

Section FlowLoop.
Variable PIs : gset node.
Variable labels : gmap node Z.
Variable node_cuts : gmap node (list cut).
Variable cut_depth : gmap node (list (cut * Z)).
Variable refcnt : gmap node Z.

(** What holds of [(best_cut_area, area_flow)] once the nodes [pre] are
    done: a primary input has itself as cut and flow 0, and the flow of a
    gate is the cost of its cut. *)
Definition flow_inv (pre : list node) (st : gmap node cut * gmap node float) : Prop :=
  ∀ w, (is_Some (st.2 !! w) → w ∈ pre)
       ∧ (w ∈ pre → w ∈ PIs → st.1 !! w = Some {[w]} ∧ st.2 !! w = Some 0%float)
       ∧ (w ∈ pre → w ∉ PIs →
          ∃ C c, st.1 !! w = Some C ∧ st.2 !! w = Some c
                 ∧ cut_cost PIs st.2 refcnt C = Ok c).

Lemma recover_step_flow pre st v st' :
  v ∉ pre →
  (v ∉ PIs → ∃ cs C0, node_cuts !! v = Some cs ∧ C0 ∈ cs
                      ∧ admissible labels cut_depth v C0) →
  flow_inv pre st →
  recover_step PIs labels node_cuts cut_depth refcnt st v = Ok st' →
  flow_inv (pre ++ [v]) st'.
Proof.
  intros Hv Hadm Hinv. destruct st as [chosen af]. simpl in *.
  assert (∀ C c,
            (v ∈ PIs → C = {[v]} ∧ c = 0%float) →
            (v ∉ PIs → cut_cost PIs af refcnt C = Ok c) →
            flow_inv (pre ++ [v]) (<[v := C]> chosen, <[v := c]> af)) as Hins.
  { intros C c HCPI HCgate.
    assert (∀ C', (∃ c', cut_cost PIs af refcnt C' = Ok c') →
                  cut_cost PIs (<[v := c]> af) refcnt C'
                  = cut_cost PIs af refcnt C') as Hsame.
    { intros C' [c' Hc']. apply cut_cost_agree. intros u Hu HuPI.
      rewrite lookup_insert_ne; [done|]. intros <-. apply Hv.
      apply (Hinv v). by eapply cut_cost_reads. }
    intros w. simpl. destruct (Hinv w) as (Hdom & HwPI & Hwgate). simpl in *.
    destruct (decide (v = w)) as [<-|Hne].
    - rewrite !lookup_insert_eq. split_and!.
      + intros _. apply elem_of_app. right. left.
      + intros _ HPI. by destruct (HCPI HPI) as [-> ->].
      + intros _ HPI. exists C, c. split_and!; try done.
        rewrite Hsame; by eauto.
    - rewrite !lookup_insert_ne by done.
      assert (w ∈ pre ++ [v] → w ∈ pre) as Hpre.
      { intros [?| ->%list_elem_of_singleton]%elem_of_app; done. }
      split_and!.
      + intros Hw. apply elem_of_app. left. by apply Hdom.
      + intros Hw. by apply HwPI, Hpre.
      + intros Hw HPI. destruct (Hwgate (Hpre Hw) HPI) as (C' & c' & ? & ? & Hc').
        exists C', c'. split_and!; try done. rewrite Hsame; by eauto. }
  unfold recover_step. simpl. case_bool_decide as HPI.
  { intros [= <-]. by apply Hins. }
  intros (best & Hbest & ([c C] & Hpick & [= <-])%bind_Ok)%bind_Ok.
  apply Hins; [done|]. intros _.
  destruct (Hadm HPI) as (cs & C0 & Hcs & HC0 & Hadm0).
  destruct best as [[c' C']|].
  - injection Hpick as -> ->.
    apply best_admissible_Ok in Hbest as (cs' & _ & p & q & _ & _ & Hcost & _).
    done.
  - exfalso. by eapply best_admissible_Some.
Qed.
End FlowLoop.

(** X15.  After [flowmap_labels], [area_recovery] gives every primary
    input itself as cut and area flow 0.0, and the area flow of a gate is
    the cost of its chosen cut in the returned table: 1.0 plus
    [area_flow[u] / refcnt[u]] summed over the gates [u] of the cut. *)
Theorem area_flow_is_cost_of_chosen_cut
    graph K node_cuts labels node_cuts' cut_depth chosen area_flow refcnt v :
  graph_wf graph →
  flowmap_labels graph K (Some node_cuts) = Ok (labels, node_cuts', cut_depth) →
  area_recovery graph K labels node_cuts cut_depth = Ok (chosen, area_flow) →
  compute_refcounts graph = Ok refcnt →
  v ∈ keys graph →
  (v ∈ primary_inputs graph →
     chosen !! v = Some {[v]} ∧ area_flow !! v = Some 0%float)
  ∧ (v ∉ primary_inputs graph →
     ∃ C c, chosen !! v = Some C ∧ area_flow !! v = Some c
            ∧ cut_cost (primary_inputs graph) area_flow refcnt C = Ok c).
Proof.
  intros Hwf Hlab Hrec Hrc Hv.
  destruct (flowmap_labels_Ok _ _ _ _ _ _ Hwf Hlab) as (_ & topo & fanouts & Hts & Hlok).
  destruct (topo_sort_Ok graph Hwf _ _ Hts) as (_ & Hnd & Hall & _).
  unfold area_recovery in Hrec. rewrite Hts, Hrc in Hrec. simpl in Hrec.
  assert (flow_inv (primary_inputs graph) refcnt topo (chosen, area_flow)) as Hinv;
    [|destruct (Hinv v) as (_ & HPI & Hgate); simpl in *;
      split; [apply HPI | apply Hgate]; by apply Hall].
  revert Hrec. apply (for_each_inv (flow_inv (primary_inputs graph) refcnt)).
  - intros w. simpl. rewrite lookup_empty. split_and!.
    + by intros [? [=]].
    + intros Hw. by apply elem_of_nil in Hw.
    + intros Hw. by apply elem_of_nil in Hw.
  - intros pre x post s s1 Htopo Hinv Hstep.
    eapply recover_step_flow; [| |done|done].
    + rewrite Htopo in Hnd. apply NoDup_app in Hnd as (_ & Hnot & _).
      intros Hx. apply (Hnot x Hx). left.
    + intros HPI. eapply labels_ok_admissible; [done| |done].
      rewrite Htopo. apply elem_of_app. right. left.
Qed.

Lemma area_flow_is_cost_of_chosen_cut_witness :
  ("v" ∈ primary_inputs Scenario.tie →
     Scenario.tie_chosen !! "v" = Some {["v"]}
     ∧ Scenario.tie_area_flow !! "v" = Some 0%float)
  ∧ ("v" ∉ primary_inputs Scenario.tie →
     ∃ C c, Scenario.tie_chosen !! "v" = Some C
            ∧ Scenario.tie_area_flow !! "v" = Some c
            ∧ cut_cost (primary_inputs Scenario.tie) Scenario.tie_area_flow
                Scenario.tie_refcnt C = Ok c).
Proof.
  apply (area_flow_is_cost_of_chosen_cut Scenario.tie 4 Scenario.tie_cuts
           Scenario.tie_labels Scenario.tie_cuts Scenario.tie_cut_depth).
  - by_compute.
  - vm_compute. reflexivity.
  - vm_compute. reflexivity.
  - vm_compute. reflexivity.
  - by_compute.
Defined.

(** ** [map_with_area_optimized_flow] *)

(** A table of cuts that labeling accepts has no empty list. *)
Lemma labeled_cut_lists_nonempty graph K cut_limit node_cuts labels nc' cut_depth v :
  graph_wf graph →
  enumerate_minimal_kcuts graph K cut_limit = Ok node_cuts →
  flowmap_labels graph K (Some node_cuts) = Ok (labels, nc', cut_depth) →
  node_cuts !! v ≠ Some [].
Proof.
  intros Hwf Henum Hlab Hv.
  destruct (enumerate_minimal_kcuts_entries _ _ _ _ Hwf Henum v [] Hv)
    as [[_ [=]]|[HPI _]].
  destruct (enumerate_minimal_kcuts_Ok _ _ _ _ Hwf Henum)
    as (_ & topo & fanouts & Hts & Hok).
  destruct (topo_sort_Ok graph Hwf _ _ Hts) as (_ & _ & Hall & _).
  assert (v ∈ keys graph) as Hkey.
  { apply Hall. apply (Hok v). by eauto. }
  pose proof (flowmap_labels_Ok _ _ _ _ _ _ Hwf Hlab) as [-> _].
  destruct (flowmap_labels_least _ _ _ _ _ _ v Hwf Hlab Hkey HPI)
    as (cs & lv & Hcs & _ & _ & C & HC & _).
  rewrite Hv in Hcs. injection Hcs as <-. by apply elem_of_nil in HC.
Qed.

(** X16.  On a graph with distinct keys and outputs among the keys, the
    pipeline ends in one of four ways: with "K must be >= 1" when
    [K < 1], whatever the graph; else with "Graph is not a DAG" when a
    fanin is no key or the graph has a cycle; else with "No K-feasible
    cuts" for a gate whose list of cuts is empty; else, no list being
    empty, with a result. *)
Theorem pipeline_outcomes graph K outputs cut_limit :
  graph_wf graph →
  (∀ os o, outputs = Some os → o ∈ os → o ∈ keys graph) →
  (K < 1
   ∧ map_with_area_optimized_flow graph K outputs cut_limit = Raise ValueError_K)
  ∨ (1 ≤ K ∧ ¬ (fanins_closed graph ∧ acyclic graph)
     ∧ map_with_area_optimized_flow graph K outputs cut_limit
       = Raise ValueError_not_a_DAG)
  ∨ (1 ≤ K ∧ fanins_closed graph ∧ acyclic graph
     ∧ ∃ node_cuts,
         enumerate_minimal_kcuts graph K cut_limit = Ok node_cuts
         ∧ ((∃ v, v ∈ keys graph ∧ (v ∉ primary_inputs graph)
                  ∧ node_cuts !! v = Some []
                  ∧ map_with_area_optimized_flow graph K outputs cut_limit
                    = Raise (RuntimeError_no_cuts v K))
            ∨ ((∀ v, node_cuts !! v ≠ Some [])
               ∧ ∃ labels chosen LUTs,
                   map_with_area_optimized_flow graph K outputs cut_limit
                   = Ok (labels, chosen, LUTs)))).
Proof.
  intros Hwf Houts. destruct (Z.lt_ge_cases K 1) as [HK|HK].
  { left. split; [done|].
    unfold map_with_area_optimized_flow, enumerate_minimal_kcuts.
    by destruct (Z.ltb_spec K 1); [|lia]. }
  right. destruct (topo_sort_cases graph Hwf) as [(order & Hts & _)|Hts].
  - right. destruct (topo_sort_Ok_dag _ _ _ Hwf Hts) as [Hcl Hr].
    assert (acyclic graph) as Hac by by exists (rank_in order).
    split_and!; try done.
    destruct (pipeline_run graph K outputs cut_limit Hwf Hcl Hac HK Houts)
      as (nc & Henum & [(labels & chosen & LUTs & Hrun)|(v & Hv & HPI & Hcs & _ & Hrun)]).
    + exists nc. split; [done|]. right. split; [|by eauto].
      intros v. pose proof Hrun as Hrun'.
      unfold map_with_area_optimized_flow in Hrun'. rewrite Henum in Hrun'.
      simpl in Hrun'. apply bind_Ok in Hrun' as ([[l n] c] & Hlab & _).
      by eapply labeled_cut_lists_nonempty.
    + exists nc. split; [done|]. left. by exists v.
  - left. split_and!; [done | |].
    + intros [Hcl Hac]. destruct (topo_sort_acyclic graph Hwf Hcl Hac) as [o Ho].
      congruence.
    + unfold map_with_area_optimized_flow, enumerate_minimal_kcuts.
      destruct (Z.ltb_spec K 1); [lia|]. by rewrite Hts.
Qed.

Lemma pipeline_outcomes_witness :
  (2 < 1
   ∧ map_with_area_optimized_flow Scenario.wide 2 None None = Raise ValueError_K)
  ∨ (1 ≤ 2 ∧ ¬ (fanins_closed Scenario.wide ∧ acyclic Scenario.wide)
     ∧ map_with_area_optimized_flow Scenario.wide 2 None None
       = Raise ValueError_not_a_DAG)
  ∨ (1 ≤ 2 ∧ fanins_closed Scenario.wide ∧ acyclic Scenario.wide
     ∧ ∃ node_cuts,
         enumerate_minimal_kcuts Scenario.wide 2 None = Ok node_cuts
         ∧ ((∃ v, v ∈ keys Scenario.wide ∧ (v ∉ primary_inputs Scenario.wide)
                  ∧ node_cuts !! v = Some []
                  ∧ map_with_area_optimized_flow Scenario.wide 2 None None
                    = Raise (RuntimeError_no_cuts v 2))
            ∨ ((∀ v, node_cuts !! v ≠ Some [])
               ∧ ∃ labels chosen LUTs,
                   map_with_area_optimized_flow Scenario.wide 2 None None
                   = Ok (labels, chosen, LUTs)))).
Proof.
  apply (pipeline_outcomes Scenario.wide 2 None None).
  - by_compute.
  - intros os o Hos. discriminate Hos.
Defined.

(** X17.  The pipeline returns a result on every acyclic graph whose
    fanins are keys and in which no gate has more than K distinct fanins,
    for [K >= 1], outputs among the keys and a cut limit that is unset or
    at least 1. *)
Theorem pipeline_returns_on_narrow_gates graph K outputs cut_limit :
  graph_wf graph → fanins_closed graph → acyclic graph → 1 ≤ K →
  Forall (λ p, Z.of_nat (size (list_to_set p.2 : gset node)) ≤ K) graph →
  (∀ lim, cut_limit = Some lim → 1 ≤ lim) →
  (∀ os o, outputs = Some os → o ∈ os → o ∈ keys graph) →
  ∃ labels chosen LUTs,
    map_with_area_optimized_flow graph K outputs cut_limit = Ok (labels, chosen, LUTs).
Proof.
  intros Hwf Hcl Hac HK Hnarrow Hlim Houts.
  destruct (pipeline_run graph K outputs cut_limit Hwf Hcl Hac HK Houts)
    as (nc & Henum & [Hrun|(v & Hv & HPI & Hcs & _)]); [done|]. exfalso.
  apply graph_get_key in Hv as [fins Hfins].
  pose proof (empty_cut_list_wide _ _ _ _ _ _ Hwf Henum Hlim Hfins Hcs) as Hwide.
  rewrite Forall_forall in Hnarrow.
  specialize (Hnarrow (v, fins) (graph_get_Ok _ _ _ Hfins)). simpl in Hnarrow. lia.
Qed.

Lemma pipeline_returns_on_narrow_gates_witness :
  ∃ labels chosen LUTs,
    map_with_area_optimized_flow Scenario.and_or 2 None (Some 1)
    = Ok (labels, chosen, LUTs).
Proof.
  apply (pipeline_returns_on_narrow_gates Scenario.and_or 2 None (Some 1)).
  - by_compute.
  - unfold fanins_closed. by_compute.
  - exists Scenario.and_or_rank. unfold ranked. by_compute.
  - lia.
  - by_compute.
  - intros lim [= <-]. lia.
  - intros os o Hos. discriminate Hos.
Defined.

(** X18.  In the cover the pipeline returns, the inputs of every LUT form
    a K-feasible cut of its output: a non-empty set of at most K nodes of
    the graph that every path from a primary input to the output passes
    through. *)
Theorem lut_inputs_cut_off_output graph K outputs cut_limit labels chosen LUTs l :
  graph_wf graph →
  map_with_area_optimized_flow graph K outputs cut_limit = Ok (labels, chosen, LUTs) →
  l ∈ LUTs →
  spec_K_feasible_cut graph K (output l) (list_to_set (inputs l)).
Proof.
  intros Hwf Hrun Hl.
  destruct (pipeline_Ok _ _ _ _ _ _ _ Hwf Hrun)
    as (nc & cd & topo & fanouts & Henum & _ & _ & _ & Hchosen & Hluts).
  rewrite Forall_forall in Hluts.
  destruct (Hluts l Hl) as (HPI & C & HC & -> & _).
  destruct (Hchosen _ HPI C HC) as (cs & Hcs & Hin & _).
  assert (list_to_set (sorted C) = C) as ->.
  { apply set_eq. intros u. by rewrite elem_of_list_to_set, sorted_elem. }
  by eapply enumerated_cut_feasible.
Qed.

Lemma lut_inputs_cut_off_output_witness :
  spec_K_feasible_cut Scenario.and_or 2 "or1" (list_to_set ["and1"; "c"]).
Proof.
  apply (lut_inputs_cut_off_output Scenario.and_or 2 None None
           Scenario.and_or_labels Scenario.and_or_chosen Scenario.and_or_LUTs
           {| output := "or1"; inputs := ["and1"; "c"]; level := 2 |}).
  - by_compute.
  - vm_compute. reflexivity.
  - by_compute.
Defined.

(** ** Outputs that are no nodes of the graph *)

Lemma for_each_app {S X} (body : S → X → result S) l1 l2 s :
  for_each body (l1 ++ l2) s = (s' ← for_each body l1 s; for_each body l2 s').
Proof.
  revert s. induction l1 as [|x l1 IH]; intros s; simpl; [done|].
  destruct (body s x) as [s1|e]; simpl; [apply IH | done].
Qed.

Lemma primary_inputs_keys graph v : v ∈ primary_inputs graph → v ∈ keys graph.
Proof.
  unfold primary_inputs. rewrite elem_of_list_to_set, list_elem_of_fmap.
  intros (p & -> & [_ Hp]%list_elem_of_filter).
  apply list_elem_of_fmap. by exists p.
Qed.

(** [place] raises [KeyError] at an uncovered gate without a chosen cut. *)
Lemma build_cover_unknown_output graph chosen_cut labels pre o post LUTs :
  build_cover graph chosen_cut labels (Some pre) = Ok LUTs →
  o ∉ primary_inputs graph → chosen_cut !! o = None →
  build_cover graph chosen_cut labels (Some (pre ++ o :: post)) = Raise (KeyError o).
Proof.
  intros Hrun HPI Hnone. pose proof Hrun as Hrun'.
  unfold build_cover in Hrun'. apply bind_Ok in Hrun' as (st & Hloop & _).
  assert (o ∉ st.1) as Hcov.
  { assert (cover_inv (primary_inputs graph) chosen_cut pre st
            ∧ Forall (lut_ok (primary_inputs graph) chosen_cut labels) st.2)
      as [(_ & Hcov & _) Hluts].
    { revert Hloop.
      apply (for_each_inv
               (λ _ s, cover_inv (primary_inputs graph) chosen_cut pre s
                       ∧ Forall (lut_ok (primary_inputs graph) chosen_cut labels) s.2)).
      - split; [|constructor]. unfold cover_inv. simpl.
        split_and!; [constructor | set_solver | set_solver].
      - intros p x q s s1 Hel [Hinv Hluts] Hplace. split.
        + eapply place_inv; [|done|done]. intros Hx. apply needed_output; [|done].
          rewrite Hel. apply elem_of_app. right. left.
        + by eapply place_ok. }
    intros (l & -> & Hl)%Hcov%list_elem_of_fmap.
    rewrite Forall_forall in Hluts.
    destruct (Hluts l Hl) as (_ & C & HC & _). congruence. }
  unfold build_cover. rewrite for_each_app, Hloop. simpl.
  rewrite bool_decide_eq_false_2 by tauto.
  unfold get. by rewrite Hnone.
Qed.

(** X19.  Asking for an output that is no key of the graph makes the
    pipeline raise [KeyError] for the first such output, when the run on
    the outputs before it returns; no cover is returned. *)
Theorem unknown_output_raises_KeyError graph K cut_limit pre o post r :
  graph_wf graph →
  map_with_area_optimized_flow graph K (Some pre) cut_limit = Ok r →
  o ∉ keys graph →
  map_with_area_optimized_flow graph K (Some (pre ++ o :: post)) cut_limit
  = Raise (KeyError o).
Proof.
  intros Hwf Hrun Ho. unfold map_with_area_optimized_flow in *.
  apply bind_Ok in Hrun as (nc & Henum & Hrun). rewrite Henum. simpl.
  apply bind_Ok in Hrun as ([[labels nc'] cd] & Hlab & Hrun). rewrite Hlab. simpl.
  apply bind_Ok in Hrun as ([chosen af] & Hrec & Hrun). rewrite Hrec. simpl.
  apply bind_Ok in Hrun as (LUTs & Hcover & _).
  rewrite (build_cover_unknown_output _ _ _ _ _ _ _ Hcover); [done | |].
  - intros HPI. by apply Ho, primary_inputs_keys.
  - destruct (flowmap_labels_Ok _ _ _ _ _ _ Hwf Hlab)
      as (Heq & topo & fanouts & Hts & Hlok).
    assert (nc' = nc) as -> by done.
    destruct (topo_sort_Ok graph Hwf _ _ Hts) as (_ & _ & Hall & _).
    assert (∀ v, v ∈ keys graph → v ∉ primary_inputs graph →
              ∃ cs C0, nc !! v = Some cs ∧ C0 ∈ cs ∧ admissible labels cd v C0)
      as Hadm.
    { intros v Hv HPI. eapply labels_ok_admissible; [done | by apply Hall | done]. }
    destruct (area_recovery_Ok _ _ _ _ _ _ _ Hwf Hadm Hrec o) as [Hdom _].
    destruct (chosen !! o) eqn:Hc; [|done]. exfalso. apply Ho, Hdom. by eauto.
Qed.

Lemma unknown_output_raises_KeyError_witness :
  map_with_area_optimized_flow Scenario.and_or 2 (Some (["and1"] ++ "z" :: ["or1"])) None
  = Raise (KeyError "z").
Proof.
  eapply (unknown_output_raises_KeyError Scenario.and_or 2 None ["and1"] "z" ["or1"]).
  - by_compute.
  - vm_compute. reflexivity.
  - by_compute.
Defined.
